(** * The streaming session bridge of the ovrlrd server

    A shallow embedding of [server/src/services/claude-stream.ts]
    ([runClaudeStreaming], [handleStreamMessage], [cancelStream]), of the
    read loop of [server/src/services/claude.ts] ([runClaude]) and of the
    streaming half of [server/src/routes/chat.ts]
    ([deduplicatePermissionDenials], [createStreamingCallbacks],
    [persistStreamResult], [storeSegments]).

    Conventions of the embedding.
    - A JavaScript string is a [string]; its characters are the code units
      below 256.
    - A value of type [unknown] is a [json] value; its numbers are the
      integers, which [JSON.stringify] prints in decimal.
    - An optional field ([x?: T], [T | null]) is an [option]; the tests the
      source writes as [if (x)] are the truthiness tests [truthy], [some_text].
    - Callbacks do not return anything to the bridge, so a call of a
      callback is an entry of the list of calls the function returns.
    - The platform ([Bun.spawn], timers, the pipes of the child process) is
      a script of [turn_env]: what each [await] of the turn resolves to.
      [runClaudeStreaming] runs a turn from its first statement to its last,
      as it goes when no other call, no cancellation and no other
      continuation runs while it is suspended. [step] and [run] give the
      turns as the event loop interleaves them on the one registry, one
      stretch of code between two [await]s at a time.
    - [TextDecoder] and [JSON.parse] are parameters of the development.
    - Calls of the logger ([logInfo], [logDebug], [logError]) write
      diagnostics only and are left out. *)

From Stdlib Require Import ZArith Ascii Strings.Byte DecimalString.
From stdpp Require Import base gmap strings list.

(** ** Strings *)

Module Str.

Definition nl : ascii := "010"%char.
Definition dquote : ascii := "034"%char.
Definition backslash : ascii := "092"%char.

Definition newline : string := String nl "".

(** The white space and line terminators that [String.prototype.trim]
    removes, among the code units below 256. *)
Definition is_whitespace (c : ascii) : bool :=
  match c with
  | "009" | "010" | "011" | "012" | "013" | " " | "160" => true
  | _ => false
  end%char.

Fixpoint trimStart (s : string) : string :=
  match s with
  | String c s' => if is_whitespace c then trimStart s' else s
  | EmptyString => EmptyString
  end.

Definition trimEnd (s : string) : string :=
  String.rev (trimStart (String.rev s)).

(** [s.trim()] *)
Definition trim (s : string) : string := trimEnd (trimStart s).

(** A JavaScript string is truthy when it is not empty. *)
Definition truthy (s : string) : bool := negb (String.eqb s "").

(** [if (s.trim())] *)
Definition has_text (s : string) : bool := truthy (trim s).

Fixpoint whitespace_only (s : string) : bool :=
  match s with
  | String c s' => is_whitespace c && whitespace_only s'
  | EmptyString => true
  end.

(** [s.split(sep)] for a separator of one code unit: the pieces between
    the separators, one piece more than there are separators. *)
Fixpoint split (sep : ascii) (s : string) : list string :=
  match s with
  | EmptyString => [EmptyString]
  | String c s' =>
      if Ascii.eqb c sep then EmptyString :: split sep s'
      else match split sep s' with
           | piece :: pieces => String c piece :: pieces
           | [] => [String c EmptyString]
           end
  end.

(** [lines.pop() || ''] together with what is left in [lines]. *)
Definition pop (lines : list string) : list string * string :=
  (removelast lines, List.last lines "").

Fixpoint drop (n : nat) (s : string) : string :=
  match n, s with
  | S n', String _ s' => drop n' s'
  | _, _ => s
  end.

(** The first occurrence of [needle] in [s]: what is before it and what is
    after it. *)
Fixpoint cut (needle s : string) : option (string * string) :=
  if String.prefix needle s
  then Some (EmptyString, drop (String.length needle) s)
  else match s with
       | EmptyString => None
       | String c s' =>
           match cut needle s' with
           | Some (before, after) => Some (String c before, after)
           | None => None
           end
       end.

Definition hex_digit (n : nat) : ascii :=
  match n with
  | 0 => "0" | 1 => "1" | 2 => "2" | 3 => "3" | 4 => "4" | 5 => "5"
  | 6 => "6" | 7 => "7" | 8 => "8" | 9 => "9" | 10 => "a" | 11 => "b"
  | 12 => "c" | 13 => "d" | 14 => "e" | _ => "f"
  end%char.

End Str.

(** ** JSON values and [JSON.stringify] *)

#[local] Set Warnings "-register-all".

Inductive json : Type :=
| JNull
| JBool (b : bool)
| JNumber (n : Z)
| JString (s : string)
| JArray (items : list json)
| JObject (fields : list (string * json)).

Module JSON.

(** One code unit of a quoted string (QuoteJSONString). *)
Definition escape (c : ascii) : string :=
  match c with
  | "008" => String Str.backslash "b"
  | "009" => String Str.backslash "t"
  | "010" => String Str.backslash "n"
  | "012" => String Str.backslash "f"
  | "013" => String Str.backslash "r"
  | "034" => String Str.backslash (String Str.dquote "")
  | "092" => String Str.backslash (String Str.backslash "")
  | _ =>
      let n := nat_of_ascii c in
      if Nat.ltb n 32
      then String Str.backslash
             (String "u" (String "0" (String "0"
                (String (Str.hex_digit (n / 16)) (String (Str.hex_digit (n mod 16)) "")))))
      else String c ""
  end%char.

Fixpoint escape_all (s : string) : string :=
  match s with
  | EmptyString => EmptyString
  | String c s' => escape c +:+ escape_all s'
  end.

Definition quote (s : string) : string :=
  String Str.dquote (escape_all s +:+ String Str.dquote "").

Definition number (n : Z) : string := NilZero.string_of_int (Z.to_int n).

Fixpoint join (pieces : list string) : string :=
  match pieces with
  | [] => ""
  | [piece] => piece
  | piece :: rest => piece +:+ "," +:+ join rest
  end.

(** [JSON.stringify(v)] without indentation. *)
Fixpoint stringify (v : json) : string :=
  match v with
  | JNull => "null"
  | JBool true => "true"
  | JBool false => "false"
  | JNumber n => number n
  | JString s => quote s
  | JArray items => "[" +:+ join (List.map stringify items) +:+ "]"
  | JObject fields =>
      "{" +:+ join (List.map (fun kv => quote (fst kv) +:+ ":" +:+ stringify (snd kv)) fields)
          +:+ "}"
  end.

End JSON.

(** ** Permission denials ([chat.ts]) *)

Record PermissionDenial := {
  tool_name : string;
  tool_use_id : string;
  tool_input : list (string * json)
}.

(** The key of [deduplicatePermissionDenials]:
    [`${denial.tool_name}:${JSON.stringify(denial.tool_input)}`] *)
Definition denial_key (denial : PermissionDenial) : string :=
  tool_name denial +:+ ":" +:+ JSON.stringify (JObject (tool_input denial)).

(** [denials.filter(...)] with the set [seen] the callback updates. *)
Fixpoint filter_unseen (seen : gset string) (denials : list PermissionDenial)
  : list PermissionDenial :=
  match denials with
  | [] => []
  | denial :: rest =>
      let key := denial_key denial in
      if decide (key ∈ seen) then filter_unseen seen rest
      else denial :: filter_unseen ({[key]} ∪ seen) rest
  end.

Definition deduplicatePermissionDenials (denials : list PermissionDenial)
  : list PermissionDenial :=
  filter_unseen ∅ denials.

(** ** Events of the stream ([claude-stream.ts]) *)

(** One block of [message.content]. *)
Record ContentBlock := {
  block_type : string;
  block_text : option string;
  block_name : option string;
  block_input : option json
}.

(** [message.content]: an array of blocks, or a string. *)
Inductive MessageContent :=
| Blocks (blocks : list ContentBlock)
| Text (content : string).

Record Message := {
  role : option string;
  content : MessageContent
}.

Record StreamMessage := {
  msg_type : string;
  subtype : option string;
  message : option Message;
  result : option string;
  session_id : option string;
  is_error : option bool;
  permission_denials : option (list PermissionDenial)
}.

(** The calls the bridge makes on the callbacks it was given. *)
Inductive callback :=
| onChunk (text : string)
| onSegmentEnd (content : string)
| onToolStart (toolName : string)
| onToolEnd (toolName : string)
| onComplete (result : string) (sessionId : option string)
    (permissionDenials : option (list PermissionDenial))
| onError (error : string).

(** The fields of [StreamSession] apart from the callbacks. [process] names
    the child process and [clearTimeout] the timer the closure cancels. *)
Record StreamSession := {
  process : nat;
  sessionId : option string;
  conversationId : string;
  currentSegment : string;
  lastToolName : option string;
  clearTimeout : nat
}.

(** [if (x)] for an optional string: present and not empty. *)
Definition some_text (x : option string) : option string :=
  match x with
  | Some s => if Str.truthy s then Some s else None
  | None => None
  end.

(** [x || fallback] for an optional string. *)
Definition or_else (x : option string) (fallback : string) : string :=
  match some_text x with
  | Some s => s
  | None => fallback
  end.

Definition set_sessionId (sid : option string) (session : StreamSession) : StreamSession :=
  {| process := process session; sessionId := sid;
     conversationId := conversationId session;
     currentSegment := currentSegment session;
     lastToolName := lastToolName session;
     clearTimeout := clearTimeout session |}.

Definition set_currentSegment (text : string) (session : StreamSession) : StreamSession :=
  {| process := process session; sessionId := sessionId session;
     conversationId := conversationId session;
     currentSegment := text;
     lastToolName := lastToolName session;
     clearTimeout := clearTimeout session |}.

Definition set_lastToolName (name : option string) (session : StreamSession) : StreamSession :=
  {| process := process session; sessionId := sessionId session;
     conversationId := conversationId session;
     currentSegment := currentSegment session;
     lastToolName := name;
     clearTimeout := clearTimeout session |}.

(** The statements of [handleStreamMessage] change the session and call
    callbacks: a state monad over the session that also collects the calls. *)
Definition Handler (A : Type) : Type :=
  StreamSession -> A * StreamSession * list callback.

Definition ret {A} (a : A) : Handler A := fun session => (a, session, []).

Definition bind {A B} (m : Handler A) (k : A -> Handler B) : Handler B :=
  fun session =>
    let '(a, session1, calls1) := m session in
    let '(b, session2, calls2) := k a session1 in
    (b, session2, calls1 ++ calls2).

Definition get : Handler StreamSession := fun session => (session, session, []).

Definition modify (f : StreamSession -> StreamSession) : Handler unit :=
  fun session => (tt, f session, []).

Definition call (c : callback) : Handler unit := fun session => (tt, session, [c]).

Definition skip : Handler unit := ret tt.

Declare Scope handler_scope.
Delimit Scope handler_scope with handler.
Notation "m ;; k" := (bind m (fun _ => k))
  (at level 100, k at level 200, right associativity) : handler_scope.
Notation "x <- m ;; k" := (bind m (fun x => k))
  (at level 100, m at next level, k at level 200, right associativity) : handler_scope.

Fixpoint for_each {A} (body : A -> Handler unit) (items : list A) : Handler unit :=
  match items with
  | [] => skip
  | item :: rest => (body item ;; for_each body rest)%handler
  end.

(** Run a handler: the session it leaves and the calls it made. *)
Definition exec {A} (m : Handler A) (session : StreamSession)
  : StreamSession * list callback :=
  let '(_, session', calls) := m session in (session', calls).

(** [if (session.lastToolName) { session.onToolEnd(...); session.lastToolName = null }] *)
Definition end_pending_tool : Handler unit :=
  (session <- get ;;
   match some_text (lastToolName session) with
   | Some name => (call (onToolEnd name) ;; modify (set_lastToolName None))
   | None => skip
   end)%handler.

(** [block.type === 'text' && block.text] *)
Definition text_of (block : ContentBlock) : option string :=
  if String.eqb (block_type block) "text" then some_text (block_text block) else None.

(** [block.type === 'tool_use' && block.name] *)
Definition tool_of (block : ContentBlock) : option string :=
  if String.eqb (block_type block) "tool_use" then some_text (block_name block) else None.

(** One iteration of the loop over the blocks of an assistant message. *)
Definition handle_block (block : ContentBlock) : Handler unit :=
  (match text_of block with
   | Some text =>
       end_pending_tool ;;
       session <- get ;;
       modify (set_currentSegment (currentSegment session +:+ text)) ;;
       call (onChunk text)
   | None =>
       match tool_of block with
       | Some name =>
           session <- get ;;
           (if Str.has_text (currentSegment session)
            then (call (onSegmentEnd (currentSegment session)) ;;
                  modify (set_currentSegment ""))
            else skip) ;;
           call (onToolStart name) ;;
           modify (set_lastToolName (Some name))
       | None => skip
       end
   end)%handler.

Definition open_tag : string := "<local-command-stdout>".
Definition close_tag : string := "</local-command-stdout>".

(** [content.match(/<local-command-stdout>([\s\S]*?)<\/local-command-stdout>/)]:
    the text between the first opening tag and the first closing tag after it. *)
Definition match_command_stdout (content : string) : option string :=
  match Str.cut open_tag content with
  | Some (_, after) =>
      match Str.cut close_tag after with
      | Some (inner, _) => Some inner
      | None => None
      end
  | None => None
  end.

(** [msg.subtype === 'init' && msg.session_id] *)
Definition init_session_id (msg : StreamMessage) : option string :=
  if bool_decide (subtype msg = Some "init") then some_text (session_id msg) else None.

(** The blocks of [msg.message.content] when it is an array. *)
Definition content_blocks (msg : StreamMessage) : list ContentBlock :=
  match message msg with
  | Some {| content := Blocks blocks |} => blocks
  | _ => []
  end.

(** [match[1]] when [msg.message.content] is a string in which the
    pattern matches something that is not empty. *)
Definition command_stdout (msg : StreamMessage) : option string :=
  match message msg with
  | Some {| content := Text content |} =>
      if Str.truthy content then some_text (match_command_stdout content) else None
  | _ => None
  end.

(** [msg.permission_denials] when there is at least one, for [onComplete]. *)
Definition reported_denials (msg : StreamMessage) : option (list PermissionDenial) :=
  match permission_denials msg with
  | Some (denial :: denials) => Some (denial :: denials)
  | _ => None
  end.

Definition handleStreamMessage (msg : StreamMessage) : Handler unit :=
  (if String.eqb (msg_type msg) "system" then
     match init_session_id msg with
     | Some sid => modify (set_sessionId (Some sid))
     | None => skip
     end
   else if String.eqb (msg_type msg) "assistant" then
     for_each handle_block (content_blocks msg)
   else if String.eqb (msg_type msg) "result" then
     end_pending_tool ;;
     session <- get ;;
     match is_error msg with
     | Some true => call (onError (or_else (result msg) "Unknown error"))
     | _ =>
         call (onComplete (or_else (result msg) "") (sessionId session)
                 (reported_denials msg))
     end
   else if String.eqb (msg_type msg) "user" then
     match command_stdout msg with
     | Some inner =>
         let commandOutput := Str.trim inner in
         session <- get ;;
         modify (set_currentSegment (currentSegment session +:+ commandOutput)) ;;
         call (onChunk commandOutput)
     | None => skip
     end
   else skip)%handler.

(** The messages of a stream handled one after the other. *)
Definition handle_all (msgs : list StreamMessage) : Handler unit :=
  for_each handleStreamMessage msgs.

(** ** Streaming callbacks and persistence ([chat.ts]) *)

Record Conversation := {
  id : string;
  claudeSessionId : option string;
  title : option string
}.

Record StreamResult := {
  result_sessionId : option string;
  result_permissionDenials : option (list PermissionDenial);
  result_error : option string
}.

Record StreamingState := {
  segments : list string;
  state_currentSegment : string;
  state_result : StreamResult
}.

(** The events [writeSSEEvent] sends, by their [type] field. *)
Inductive sse_event :=
| chunk (content : string)
| segment_end (conversationId : string) (content : string)
| tool_start (toolName : string)
| tool_end (toolName : string)
| permission_required (conversationId : string) (denials : list PermissionDenial)
| complete (conversationId : string)
| no_response (conversationId : string) (message : string)
| error (message : string)
| title_update (conversationId : string) (title : string).

Definition no_output_message : string :=
  "This command completed but produced no visible output.".

(** The state [handleStreamingResponse] starts a turn with. *)
Definition initial_state : StreamingState :=
  {| segments := []; state_currentSegment := "";
     state_result := {| result_sessionId := None; result_permissionDenials := None;
                        result_error := None |} |}.

(** [createStreamingCallbacks]: what one call of a callback does to the
    state and which events it writes. *)
Definition createStreamingCallbacks (conversation : Conversation) (c : callback)
    (state : StreamingState) : StreamingState * list sse_event :=
  match c with
  | onChunk text =>
      ({| segments := segments state;
          state_currentSegment := state_currentSegment state +:+ text;
          state_result := state_result state |},
       [chunk text])
  | onSegmentEnd content =>
      if Str.has_text content
      then ({| segments := segments state ++ [content];
               state_currentSegment := "";
               state_result := state_result state |},
            [segment_end (id conversation) content])
      else ({| segments := segments state;
               state_currentSegment := "";
               state_result := state_result state |},
            [])
  | onToolStart toolName => (state, [tool_start toolName])
  | onToolEnd toolName => (state, [tool_end toolName])
  | onComplete _ sessionId permissionDenials =>
      let deduplicatedDenials :=
        match permissionDenials with
        | Some denials => Some (deduplicatePermissionDenials denials)
        | None => None
        end in
      let state' :=
        {| segments := segments state;
           state_currentSegment := state_currentSegment state;
           state_result := {| result_sessionId := sessionId;
                              result_permissionDenials := deduplicatedDenials;
                              result_error := None |} |} in
      (state',
       match deduplicatedDenials with
       | Some (denial :: denials) =>
           [permission_required (id conversation) (denial :: denials)]
       | _ =>
           if Str.has_text (state_currentSegment state')
              || negb (Nat.eqb (length (segments state')) 0)
           then [complete (id conversation)]
           else [no_response (id conversation) no_output_message]
       end)
  | onError err =>
      ({| segments := segments state;
          state_currentSegment := state_currentSegment state;
          state_result := {| result_sessionId := None;
                             result_permissionDenials := None;
                             result_error := Some err |} |},
       [error err])
  end.

(** The calls of a turn applied in order. *)
Fixpoint run_callbacks (conversation : Conversation) (calls : list callback)
    (state : StreamingState) : StreamingState * list sse_event :=
  match calls with
  | [] => (state, [])
  | c :: rest =>
      let '(state1, events1) := createStreamingCallbacks conversation c state in
      let '(state2, events2) := run_callbacks conversation rest state1 in
      (state2, events1 ++ events2)
  end.

(** What [persistStreamResult] asks of its collaborators. *)
Inductive persist_op :=
| updateClaudeSessionId (conversationId : string) (sessionId : string)
| createMessage (conversationId : string) (role : string) (content : string)
| updateConversationTitle (conversationId : string) (title : string)
| sendMessageReadyNotification (conversationId : string) (title : option string)
    (messagePreview : string).

Definition persist_event (op : persist_op) : list sse_event :=
  match op with
  | updateConversationTitle conversationId t => [title_update conversationId t]
  | _ => []
  end.

(** [storeSegments] *)
Definition storeSegments (conversationId : string) (segments : list string)
    (currentSegment : string) : list persist_op :=
  List.map (createMessage conversationId "assistant") segments
  ++ (if Str.has_text currentSegment
      then [createMessage conversationId "assistant" currentSegment]
      else []).

(** [segments.join('\n')] *)
Fixpoint join_lines (pieces : list string) : string :=
  match pieces with
  | [] => ""
  | [piece] => piece
  | piece :: rest => piece +:+ Str.newline +:+ join_lines rest
  end.

(** [persistStreamResult]. [newTitle] is what [generateAndUpdateTitle]
    returns for the segments it is given. *)
Definition persistStreamResult (newTitle : list string -> option string)
    (conversation : Conversation) (state : StreamingState) : list persist_op :=
  let result := state_result state in
  (match some_text (result_sessionId result) with
   | Some sid =>
       if bool_decide (Some sid ≠ claudeSessionId conversation)
       then [updateClaudeSessionId (id conversation) sid]
       else []
   | None => []
   end)
  ++
  match result_permissionDenials result with
  | Some (_ :: _) =>
      storeSegments (id conversation) (segments state) (state_currentSegment state)
  | _ =>
      let allSegments :=
        if Str.has_text (state_currentSegment state)
        then segments state ++ [state_currentSegment state]
        else segments state in
      match allSegments with
      | [] => []
      | _ :: _ =>
          List.map (createMessage (id conversation) "assistant") allSegments
          ++ (match newTitle allSegments with
              | Some t => [updateConversationTitle (id conversation) t]
              | None => []
              end)
          ++ [sendMessageReadyNotification (id conversation)
                (match newTitle allSegments with
                 | Some t => Some t
                 | None => title conversation
                 end)
                (Str.trim (join_lines allSegments))]
      end
  end.

(** ** Arguments of the child process ([claude-config.ts]) *)

Record BaseArgsOptions := {
  opt_message : option string;
  opt_claudeSessionId : option string;
  opt_allowedTools : option (list string);
  opt_useStdin : bool
}.

(** [allowedTools.join(' ')] *)
Fixpoint join_spaces (pieces : list string) : string :=
  match pieces with
  | [] => ""
  | [piece] => piece
  | piece :: rest => piece +:+ " " +:+ join_spaces rest
  end.

(** [buildBaseArgs]; [additionalDirs] is what [getAdditionalDirs] returns. *)
Definition buildBaseArgs (additionalDirs : list string) (options : BaseArgsOptions)
  : list string :=
  (match some_text (opt_message options), opt_useStdin options with
   | Some m, false => ["-p"; m]
   | _, true => ["-p"]
   | _, _ => []
   end)
  ++ ["--output-format"; "stream-json"]
  ++ ["--verbose"]
  ++ (match opt_allowedTools options with
      | Some (tool :: tools) => ["--allowedTools"; join_spaces (tool :: tools)]
      | _ => []
      end)
  ++ List.concat (List.map (fun dir => ["--add-dir"; dir]) additionalDirs)
  ++ (match some_text (opt_claudeSessionId options) with
      | Some sid => ["--resume"; sid]
      | None => []
      end).

(** ** The platform a turn runs on *)

(** What a turn does to the world outside it, in the order it does it.
    [Kill p threw] is a call of [kill] on process [p] and whether it threw
    (the process was dead already); [RegistryDelete c removed] is
    [activeSessions.delete(c)] and the process of the entry it removed. *)
Inductive effect :=
| Spawn (proc : nat) (args : list string)
| TimerSet (timer : nat)
| TimerFired (timer : nat)
| TimerCleared (timer : nat)
| Kill (proc : nat) (threw : bool)
| RegistrySet (conversationId : string) (proc : nat)
| RegistryDelete (conversationId : string) (removed : option nat)
| StdinWrite (proc : nat) (message : string)
| StdinEnd (proc : nat)
| GetReader (proc : nat)
| ReleaseLock (proc : nat)
| StderrRead (proc : nat)
| StderrReleaseLock (proc : nat)
| Invoke (c : callback).

(** The module state of [claude-stream.ts]: the map [activeSessions], and
    the name the next spawned process gets. *)
Record world := {
  activeSessions : gmap string StreamSession;
  next_process : nat
}.

(** What writing the message to the standard input of the child does. *)
Inductive stdin_outcome :=
| stdin_ok
| write_throws (e : string)
| end_throws (e : string).

(** How the read that ends the loop resolves: [done], or rejected. *)
Inductive last_read :=
| read_done
| read_throws (e : string).

(** The script of one turn. Each [await reader.read()] comes with a flag:
    whether the timeout elapsed while the turn was suspended there. *)
Record turn_env := {
  additionalDirs : list string;
  kill_throws : nat -> bool;
  stdin : stdin_outcome;
  reads : list (bool * list byte);
  final_read : bool * last_read;
  exitCode : Z
}.

(** [proc.stdin.write(message); proc.stdin.end()]: the calls that
    returned, and the exception the [catch] receives. *)
Definition stdin_effects (proc : nat) (message : string) (outcome : stdin_outcome)
  : list effect :=
  match outcome with
  | stdin_ok => [StdinWrite proc message; StdinEnd proc]
  | write_throws _ => []
  | end_throws _ => [StdinWrite proc message]
  end.

Definition stdin_error (outcome : stdin_outcome) : option string :=
  match outcome with
  | stdin_ok => None
  | write_throws e | end_throws e => Some e
  end.

(** [activeSessions.delete(conversationId)] *)
Definition registry_delete (conversationId : string) (w : world) : list effect * world :=
  ([RegistryDelete conversationId (process <$> activeSessions w !! conversationId)],
   {| activeSessions := delete conversationId (activeSessions w);
      next_process := next_process w |}).

(** A call of [kill] on the process. Under [try { ... } catch { }] an
    exception it throws is swallowed, in the callback of the timer it ends
    the callback; the turn goes on in the same way. *)
Definition try_kill (env : turn_env) (proc : nat) : list effect :=
  [Kill proc (kill_throws env proc)].

(** The termination [runClaudeStreaming] and [cancelStream] apply to a
    session found in the registry. *)
Definition terminate (env : turn_env) (conversationId : string)
    (session : StreamSession) (w : world) : list effect * world :=
  let '(deleted, w') := registry_delete conversationId w in
  ([TimerCleared (clearTimeout session)] ++ try_kill env (process session) ++ deleted, w').

(** [cancelStream] *)
Definition cancelStream (env : turn_env) (conversationId : string) (w : world)
  : bool * list effect * world :=
  match activeSessions w !! conversationId with
  | Some session =>
      let '(effects, w') := terminate env conversationId session w in
      (true, effects, w')
  | None => (false, [], w)
  end.

(** [getActiveSessionCount] *)
Definition getActiveSessionCount (w : world) : nat := size (activeSessions w).

(** The callback of [createSubprocessTimeout] as [runClaudeStreaming] sets
    it up: it runs when the timeout elapses while the turn is suspended and
    the timer has neither fired nor been cleared. *)
Definition await_read (env : turn_env) (proc : nat) (elapsed timedOut : bool)
  : bool * list effect :=
  if elapsed && negb timedOut
  then (true, [TimerFired proc; Invoke (onError "Request timed out")] ++ try_kill env proc)
  else (timedOut, []).

Section Bridge.

(** [TextDecoder] in streaming mode consumes its input byte by byte and
    keeps what it needs of an unfinished sequence in its state. *)
Context {decoder_state : Type}.
Context (decode_byte : decoder_state -> byte -> decoder_state * string).
Context (decoder_init : decoder_state).

(** [JSON.parse] followed by the cast to [StreamMessage]; [None] is the
    exception it throws. *)
Context (JSON_parse : string -> option StreamMessage).

(** [decoder.decode(value, { stream: true })] *)
Fixpoint decode (st : decoder_state) (value : list byte) : decoder_state * string :=
  match value with
  | [] => (st, "")
  | b :: rest =>
      let '(st1, text1) := decode_byte st b in
      let '(st2, text2) := decode st1 rest in
      (st2, text1 +:+ text2)
  end.

(** The head of one iteration of the read loop: the chunk is decoded and
    appended to the buffer, which is cut into complete lines and a rest. *)
Definition read_chunk (value : list byte) (st : decoder_state) (buffer : string)
  : decoder_state * string * list string :=
  let '(st', text) := decode st value in
  let lines := Str.split Str.nl (buffer +:+ text) in
  let '(lines', buffer') := Str.pop lines in
  (st', buffer', lines').

(** What the body of the loop over the lines hands to
    [handleStreamMessage]: nothing for a blank line, nothing when
    [JSON.parse] throws. *)
Definition parse_line (line : string) : option StreamMessage :=
  if Str.has_text line then JSON_parse line else None.

(** [if (!line.trim()) continue; try { ... } catch { }] *)
Definition handle_line (line : string) : Handler unit :=
  match parse_line line with
  | Some parsed => handleStreamMessage parsed
  | None => skip
  end.

(** The state of the read loop of [runClaudeStreaming]. *)
Record reading := {
  decoder : decoder_state;
  buffer : string;
  session : StreamSession;
  timedOut : bool
}.

(** The iterations of [while (true)] that read a chunk. *)
Fixpoint read_loop (env : turn_env) (chunks : list (bool * list byte)) (r : reading)
  : reading * list effect :=
  match chunks with
  | [] => (r, [])
  | (elapsed, value) :: rest =>
      let '(timedOut', fired) := await_read env (process (session r)) elapsed (timedOut r) in
      let '(st', buffer', lines) := read_chunk value (decoder r) (buffer r) in
      let '(session', calls) := exec (for_each handle_line lines) (session r) in
      let '(r', effects) :=
        read_loop env rest
          {| decoder := st'; buffer := buffer'; session := session'; timedOut := timedOut' |} in
      (r', fired ++ List.map Invoke calls ++ effects)
  end.

(** The statements of the [try] block after the chunks, and the [catch]. *)
Definition end_of_stream (env : turn_env) (r : reading) : reading * list effect :=
  let '(elapsed, outcome) := final_read env in
  let '(timedOut', fired) := await_read env (process (session r)) elapsed (timedOut r) in
  match outcome with
  | read_done =>
      let '(session', calls) := exec (handle_line (buffer r)) (session r) in
      ({| decoder := decoder r; buffer := buffer r; session := session';
          timedOut := timedOut' |},
       fired ++ List.map Invoke calls)
  | read_throws e =>
      ({| decoder := decoder r; buffer := buffer r; session := session r;
          timedOut := timedOut' |},
       fired ++ (if timedOut' then []
                 else [Invoke (onError ("Stream read error: " +:+ e))]))
  end.

(** [runClaudeStreaming], for a turn that nothing interleaves with. *)
Definition runClaudeStreaming (message conversationId : string)
    (claudeSessionId : option string) (allowedTools : option (list string))
    (env : turn_env) (w : world) : list effect * world :=
  let args :=
    buildBaseArgs (additionalDirs env)
      {| opt_message := None; opt_claudeSessionId := claudeSessionId;
         opt_allowedTools := allowedTools; opt_useStdin := true |} in
  let '(evicted, w1) :=
    match activeSessions w !! conversationId with
    | Some existingSession => terminate env conversationId existingSession w
    | None => ([], w)
    end in
  let proc := next_process w1 in
  let session0 :=
    {| process := proc; sessionId := claudeSessionId; conversationId := conversationId;
       currentSegment := ""; lastToolName := None; clearTimeout := proc |} in
  let w2 :=
    {| activeSessions := <[conversationId := session0]> (activeSessions w1);
       next_process := S proc |} in
  let started := [Spawn proc args; TimerSet proc; RegistrySet conversationId proc] in
  match stdin_error (stdin env) with
  | Some e =>
      let '(deleted, w3) := registry_delete conversationId w2 in
      (evicted ++ started ++ stdin_effects proc message (stdin env)
         ++ [TimerCleared proc] ++ deleted
         ++ [Invoke (onError ("Failed to send message: " +:+ e))]
         ++ try_kill env proc,
       w3)
  | None =>
      let '(r1, looped) :=
        read_loop env (reads env)
          {| decoder := decoder_init; buffer := ""; session := session0; timedOut := false |} in
      let '(r2, ended) := end_of_stream env r1 in
      let '(deleted, w3) := registry_delete conversationId w2 in
      (evicted ++ started ++ stdin_effects proc message (stdin env)
         ++ [GetReader proc] ++ looped ++ ended
         ++ [TimerCleared proc; ReleaseLock proc] ++ deleted
         ++ (if timedOut r2 then []
             else if Z.eqb (exitCode env) 0 then []
             else [StderrRead proc; StderrReleaseLock proc]),
       w3)
  end.

(** The calls on the callbacks among the effects of a turn. *)
Definition calls_of (effects : list effect) : list callback :=
  omap (fun e => match e with Invoke c => Some c | _ => None end) effects.

(** The writes to the database [persistStreamResult] awaits outside a
    [try]: an exception of one of them ends [persistStreamResult]. The
    title is updated inside the [try] of [generateAndUpdateTitle], and the
    notification is not awaited. *)
Definition is_db_write (op : persist_op) : bool :=
  match op with
  | updateClaudeSessionId _ _ | createMessage _ _ _ => true
  | _ => false
  end.

(** What is done of [ops] when the write number [failing] throws, and
    whether a write throws. *)
Fixpoint until_failure (failing : nat) (ops : list persist_op) : list persist_op * bool :=
  match ops with
  | [] => ([], false)
  | op :: rest =>
      if is_db_write op
      then match failing with
           | 0 => ([], true)
           | S failing' =>
               let '(done, threw) := until_failure failing' rest in (op :: done, threw)
           end
      else let '(done, threw) := until_failure failing rest in (op :: done, threw)
  end.

(** [handleStreamingResponse]: the events the client receives during the
    turn and after it, what is done in the persistence layer after the
    turn, and the world the turn leaves. [failing_write] is the number,
    from 0, of the write to the database that throws, if one does: what
    [persistStreamResult] has done before it stays done, and the [catch]
    writes one more event. *)
Definition handleStreamingResponse (newTitle : list string -> option string)
    (failing_write : option nat) (message : string) (conversation : Conversation)
    (allowedTools : option (list string)) (env : turn_env) (w : world)
  : list sse_event * list persist_op * world :=
  let '(effects, w') :=
    runClaudeStreaming message (id conversation) (claudeSessionId conversation)
      allowedTools env w in
  let '(state, events) := run_callbacks conversation (calls_of effects) initial_state in
  match some_text (result_error (state_result state)) with
  | Some _ => (events, [], w')
  | None =>
      let ops := persistStreamResult newTitle conversation state in
      match failing_write with
      | None => (events ++ List.concat (List.map persist_event ops), ops, w')
      | Some failing =>
          let '(done, threw) := until_failure failing ops in
          (events ++ List.concat (List.map persist_event done)
             ++ (if threw then [error "Failed to store response"] else []),
           done, w')
      end
  end.

(** ** The line decoder on its own *)

(** The lines the loop has cut off once all the chunks are read, and the
    decoder state and buffer it is left with. *)
Fixpoint feed (chunks : list (list byte)) (st : decoder_state) (buffer : string)
  : decoder_state * string * list string :=
  match chunks with
  | [] => (st, buffer, [])
  | value :: rest =>
      let '(st1, buffer1, lines1) := read_chunk value st buffer in
      let '(st2, buffer2, lines2) := feed rest st1 buffer1 in
      (st2, buffer2, lines1 ++ lines2)
  end.

(** The objects the read loop of [runClaudeStreaming] hands to
    [handleStreamMessage] for a stream that arrives as [chunks] and then
    ends: those of the complete lines, then that of the rest of the buffer. *)
Definition decoded_objects (chunks : list (list byte)) : list StreamMessage :=
  let '(_, buffer, lines) := feed chunks decoder_init "" in
  omap parse_line lines ++ omap parse_line [buffer].

(** The read loop of [runClaude] keeps the text of the assistant and the
    session id; the rest of the buffer is not parsed when the stream ends. *)
Record ClaudeResponse := {
  response_text : string;
  response_sessionId : string
}.

Definition runClaude_event (event : StreamMessage) (acc : ClaudeResponse) : ClaudeResponse :=
  let acc1 :=
    if String.eqb (msg_type event) "system"
    then match some_text (session_id event) with
         | Some sid => {| response_text := response_text acc; response_sessionId := sid |}
         | None => acc
         end
    else acc in
  let with_session_id (text : string) :=
    {| response_text := text;
       response_sessionId := default (response_sessionId acc1) (some_text (session_id event)) |} in
  if String.eqb (msg_type event) "assistant" then
    match message event with
    | Some {| content := Blocks blocks |} =>
        with_session_id
          (fold_left
             (fun text block =>
                if String.eqb (block_type block) "text"
                then text +:+ default "undefined" (block_text block)
                else text)
             blocks (response_text acc1))
    | Some {| content := Text text |} =>
        if Str.truthy text then with_session_id (response_text acc1) else acc1
    | None => acc1
    end
  else acc1.

Definition runClaude_line (line : string) (acc : ClaudeResponse) : ClaudeResponse :=
  match parse_line line with
  | Some event => runClaude_event event acc
  | None => acc
  end.

Fixpoint runClaude_loop (chunks : list (list byte)) (st : decoder_state) (buffer : string)
    (acc : ClaudeResponse) : ClaudeResponse :=
  match chunks with
  | [] => acc
  | value :: rest =>
      let '(st', buffer', lines) := read_chunk value st buffer in
      runClaude_loop rest st' buffer' (fold_left (fun a line => runClaude_line line a) lines acc)
  end.

End Bridge.

(** ** The lexical structure of serialised values

    A scanner that follows a serialised value the way a JSON lexer does:
    it knows whether it is outside a string, inside one, or just after a
    backslash inside one, and how many brackets are open. It stops on a
    backslash outside a string and on a closing bracket that would take the
    depth to [floor] or below. *)

Inductive lex :=
| Outside (depth : nat)
| Inside (depth : nat)
| Escaped (depth : nat).

Definition depth_of (st : lex) : nat :=
  match st with
  | Outside d | Inside d | Escaped d => d
  end.

Definition lex_step (floor : nat) (st : lex) (c : ascii) : option lex :=
  match st with
  | Outside d =>
      if Ascii.eqb c Str.dquote then Some (Inside d)
      else if Ascii.eqb c Str.backslash then None
      else if Ascii.eqb c "{" || Ascii.eqb c "[" then Some (Outside (S d))
      else if Ascii.eqb c "}" || Ascii.eqb c "]"
           then (if Nat.ltb floor d then Some (Outside (Nat.pred d)) else None)
      else Some (Outside d)
  | Inside d =>
      if Ascii.eqb c Str.dquote then Some (Outside d)
      else if Ascii.eqb c Str.backslash then Some (Escaped d)
      else Some (Inside d)
  | Escaped d => Some (Inside d)
  end.

Fixpoint scan (floor : nat) (st : lex) (s : string) : option lex :=
  match s with
  | EmptyString => Some st
  | String c s' =>
      match lex_step floor st c with
      | Some st' => scan floor st' s'
      | None => None
      end
  end.

(** One of the two scanners is inside a string and the other outside. *)
Definition opposite (st1 st2 : lex) : Prop :=
  match st1, st2 with
  | Inside _, Outside _ | Outside _, Inside _ => True
  | _, _ => False
  end.

(** The composite key of the specification: the name of the tool and the
    serialised input. *)
Definition composite_key (denial : PermissionDenial) : string * string :=
  (tool_name denial, JSON.stringify (JObject (tool_input denial))).

(** ** A decoder and a parser to run the bridge on *)

(** The decoder of a stream of code units below 256, one per byte. *)
Definition latin1_byte (st : unit) (b : byte) : unit * string :=
  (st, String (ascii_of_byte b) "").

(** The cast [as StreamMessage] of a parsed object. *)
Module Cast.

Definition field (name : string) (v : json) : option json :=
  match v with
  | JObject fields => snd <$> List.find (fun kv => String.eqb (fst kv) name) fields
  | _ => None
  end.

Definition as_text (v : option json) : option string :=
  match v with
  | Some (JString s) => Some s
  | _ => None
  end.

Definition as_flag (v : option json) : option bool :=
  match v with
  | Some (JBool b) => Some b
  | _ => None
  end.

Definition as_block (v : json) : ContentBlock :=
  {| block_type := default "" (as_text (field "type" v));
     block_text := as_text (field "text" v);
     block_name := as_text (field "name" v);
     block_input := field "input" v |}.

Definition as_message (v : option json) : option Message :=
  match v with
  | Some m =>
      match field "content" m with
      | Some (JArray items) =>
          Some {| role := as_text (field "role" m); content := Blocks (List.map as_block items) |}
      | Some (JString s) =>
          Some {| role := as_text (field "role" m); content := Text s |}
      | _ => None
      end
  | None => None
  end.

Definition as_denial (v : json) : PermissionDenial :=
  {| tool_name := default "" (as_text (field "tool_name" v));
     tool_use_id := default "" (as_text (field "tool_use_id" v));
     tool_input := match field "tool_input" v with
                   | Some (JObject fields) => fields
                   | _ => []
                   end |}.

Definition as_denials (v : option json) : option (list PermissionDenial) :=
  match v with
  | Some (JArray items) => Some (List.map as_denial items)
  | _ => None
  end.

Definition stream_message (v : json) : StreamMessage :=
  {| msg_type := default "" (as_text (field "type" v));
     subtype := as_text (field "subtype" v);
     message := as_message (field "message" v);
     result := as_text (field "result" v);
     session_id := as_text (field "session_id" v);
     is_error := as_flag (field "is_error" v);
     permission_denials := as_denials (field "permission_denials" v) |}.

End Cast.

(** A parser that knows the serialisations of the values of [known] and
    throws on every other line. *)
Definition parse_known (known : list json) (line : string) : option StreamMessage :=
  Cast.stream_message
    <$> List.find (fun v => String.eqb (JSON.stringify v) (Str.trim line)) known.

Module Example.

Definition j_init (sid : string) : json :=
  JObject [("type", JString "system"); ("subtype", JString "init");
           ("session_id", JString sid)].

Definition j_text (t : string) : json :=
  JObject [("type", JString "assistant");
           ("message", JObject [("role", JString "assistant");
                                ("content", JArray [JObject [("type", JString "text");
                                                             ("text", JString t)]])])].

Definition j_tool (name : string) : json :=
  JObject [("type", JString "assistant");
           ("message", JObject [("role", JString "assistant");
                                ("content", JArray [JObject [("type", JString "tool_use");
                                                             ("name", JString name)]])])].

Definition j_result (res : string) : json :=
  JObject [("type", JString "result"); ("is_error", JBool false);
           ("result", JString res)].

Definition known : list json :=
  [j_init "s1"; j_text "a"; j_text "b"; j_text " "; j_tool "Bash"; j_result ""; j_result "ok"].

Definition parse : string -> option StreamMessage := parse_known known.

(** The bytes of a line of output. *)
Definition line (v : json) : list byte :=
  String.list_byte_of_string (JSON.stringify v +:+ Str.newline).

Definition text_delta (t : string) : StreamMessage := Cast.stream_message (j_text t).
Definition tool_invoked (name : string) : StreamMessage := Cast.stream_message (j_tool name).
Definition turn_succeeded (res : string) : StreamMessage := Cast.stream_message (j_result res).

Definition j_init_event : StreamMessage := Cast.stream_message (j_init "s1").

Definition conversation : Conversation :=
  {| id := "c1"; claudeSessionId := None; title := None |}.

Definition empty_world : world := {| activeSessions := ∅; next_process := 0 |}.

(** A turn whose child writes its lines in one chunk each and exits. *)
Definition env (lines : list json) : turn_env :=
  {| additionalDirs := []; kill_throws := fun _ => false; stdin := stdin_ok;
     reads := List.map (fun v => (false, line v)) lines;
     final_read := (false, read_done); exitCode := 0 |}.

(** The same turn when the timeout elapses before the stream ends. *)
Definition env_late_timeout (lines : list json) : turn_env :=
  {| additionalDirs := []; kill_throws := fun _ => false; stdin := stdin_ok;
     reads := List.map (fun v => (false, line v)) lines;
     final_read := (true, read_done); exitCode := 0 |}.


Definition run (e : turn_env) (w : world) : list effect * world :=
  runClaudeStreaming latin1_byte tt parse "hi" "c1" None None e w.

(** The events the client of [conversation] receives for such a turn. *)
Definition events (e : turn_env) (w : world) : list sse_event :=
  (handleStreamingResponse latin1_byte tt parse (fun _ => None) None "hi" conversation None
     e w).1.1.

(** A world in which a turn for the conversation is running. *)
Definition busy_world : world :=
  {| activeSessions :=
       {[ "c1" := {| process := 0; sessionId := None; conversationId := "c1";
                     currentSegment := ""; lastToolName := None; clearTimeout := 0 |} ]};
     next_process := 1 |}.

End Example.

Definition ex_denials : list PermissionDenial :=
  [ {| tool_name := "Write"; tool_use_id := "1"; tool_input := [("path", JString "/a")] |};
    {| tool_name := "Write"; tool_use_id := "2"; tool_input := [("path", JString "/a")] |};
    {| tool_name := "Bash"; tool_use_id := "3"; tool_input := [("cmd", JString "ls")] |} ].


(** ** Turns that interleave

    JavaScript runs one function at a time, and a call of
    [runClaudeStreaming] gives way at each [await]: to other calls for the
    same or another conversation, to the callbacks of timers and to
    [cancelStream]. All of them work on the one map [activeSessions]. The
    event loop is a list of events; each event runs one stretch of code
    from where a call was suspended to its next [await]. *)

(** Where a call of [runClaudeStreaming] is: suspended at
    [await reader.read()], at [await proc.exited] or at
    [await stderrReader.read()], returned after the write to the standard
    input failed, or returned at the end. *)
Inductive phase :=
| at_read
| at_exit
| at_stderr
| unwritten
| finished.

(** What the event loop runs next. A read of the call with process [proc]
    resolves with a chunk, resolves with [done] or is rejected; the child
    exits; the read of its error output is settled; the time of a timer is
    up; [runClaudeStreaming] or [cancelStream] is called. *)
Inductive event :=
| Call (message conversationId : string) (claudeSessionId : option string)
    (allowedTools : option (list string)) (outcome : stdin_outcome)
| Chunk (proc : nat) (value : list byte)
| EndOfStream (proc : nat) (outcome : last_read)
| Exited (proc : nat) (exitCode : Z)
| ErrorOutput (proc : nat)
| Elapsed (timer : nat)
| Cancel (conversationId : string).

(** The timers that are set and have neither fired nor been cleared, after
    [effects]. Clearing a timer that is not set does nothing. *)
Fixpoint timers_after (effects : list effect) (timers : gset nat) : gset nat :=
  match effects with
  | [] => timers
  | TimerSet t :: rest => timers_after rest ({[t]} ∪ timers)
  | TimerFired t :: rest | TimerCleared t :: rest => timers_after rest (timers ∖ {[t]})
  | _ :: rest => timers_after rest timers
  end.

Section Interleaving.

Context {decoder_state : Type}.
Context (decode_byte : decoder_state -> byte -> decoder_state * string).
Context (decoder_init : decoder_state).
Context (JSON_parse : string -> option StreamMessage).

(** The variables of a call that live across its [await]s, and where the
    call is. *)
Record turn_state := {
  turn_reading : reading (decoder_state := decoder_state);
  turn_phase : phase
}.

(** The module state shared by all the calls, the calls in flight by the
    name of their child process, and the timers that are set. *)
Record system := {
  module_state : world;
  turns : gmap nat turn_state;
  timers : gset nat
}.

(** The server after it has started. *)
Definition initial_system : system :=
  {| module_state := {| activeSessions := ∅; next_process := 0 |};
     turns := ∅; timers := ∅ |}.

(** [runClaudeStreaming] from its first statement to its first [await], or
    to its [return] when the write to the standard input fails. Of [env]
    the arguments of the configuration and the outcome of [kill] are used;
    the outcome of the write comes with the call. *)
Definition start_turn (env : turn_env) (message conversationId : string)
    (claudeSessionId : option string) (allowedTools : option (list string))
    (outcome : stdin_outcome) (w : world) : nat * list effect * world * turn_state :=
  let args :=
    buildBaseArgs (additionalDirs env)
      {| opt_message := None; opt_claudeSessionId := claudeSessionId;
         opt_allowedTools := allowedTools; opt_useStdin := true |} in
  let '(evicted, w1) :=
    match activeSessions w !! conversationId with
    | Some existingSession => terminate env conversationId existingSession w
    | None => ([], w)
    end in
  let proc := next_process w1 in
  let session0 :=
    {| process := proc; sessionId := claudeSessionId; conversationId := conversationId;
       currentSegment := ""; lastToolName := None; clearTimeout := proc |} in
  let w2 :=
    {| activeSessions := <[conversationId := session0]> (activeSessions w1);
       next_process := S proc |} in
  let started := [Spawn proc args; TimerSet proc; RegistrySet conversationId proc] in
  let r0 := {| decoder := decoder_init; buffer := ""; session := session0; timedOut := false |} in
  match stdin_error outcome with
  | Some e =>
      let '(deleted, w3) := registry_delete conversationId w2 in
      (proc,
       evicted ++ started ++ stdin_effects proc message outcome
         ++ [TimerCleared proc] ++ deleted
         ++ [Invoke (onError ("Failed to send message: " +:+ e))]
         ++ try_kill env proc,
       w3, {| turn_reading := r0; turn_phase := unwritten |})
  | None =>
      (proc,
       evicted ++ started ++ stdin_effects proc message outcome ++ [GetReader proc],
       w2, {| turn_reading := r0; turn_phase := at_read |})
  end.

(** One iteration of the read loop, from the chunk the read resolves with
    to the next [await reader.read()]. *)
Definition read_step (value : list byte) (r : reading (decoder_state := decoder_state))
  : list effect * reading (decoder_state := decoder_state) :=
  let '(st', buffer', lines) := read_chunk decode_byte value (decoder r) (buffer r) in
  let '(session', calls) := exec (for_each (handle_line JSON_parse) lines) (session r) in
  (List.map Invoke calls,
   {| decoder := st'; buffer := buffer'; session := session'; timedOut := timedOut r |}).

(** From the read that ends the loop to [await proc.exited]: the rest of
    the buffer after [done], or the [catch]; then the [finally]. *)
Definition leave_loop (outcome : last_read) (r : reading (decoder_state := decoder_state))
    (w : world) : list effect * reading (decoder_state := decoder_state) * world :=
  let proc := process (session r) in
  let '(deleted, w') := registry_delete (conversationId (session r)) w in
  let finally := [TimerCleared proc; ReleaseLock proc] ++ deleted in
  match outcome with
  | read_done =>
      let '(session', calls) := exec (handle_line JSON_parse (buffer r)) (session r) in
      (List.map Invoke calls ++ finally,
       {| decoder := decoder r; buffer := buffer r; session := session';
          timedOut := timedOut r |},
       w')
  | read_throws e =>
      ((if timedOut r then [] else [Invoke (onError ("Stream read error: " +:+ e))])
         ++ finally,
       r, w')
  end.

(** The statements after [await proc.exited], to the [return] or to
    [await stderrReader.read()]. *)
Definition after_exit (exitCode : Z) (r : reading (decoder_state := decoder_state))
  : list effect * phase :=
  let proc := process (session r) in
  if timedOut r then ([], finished)
  else if Z.eqb exitCode 0 then ([], finished)
  else ([StderrRead proc], at_stderr).

(** The [finally] after the read of the error output. *)
Definition after_stderr (r : reading (decoder_state := decoder_state)) : list effect :=
  [StderrReleaseLock (process (session r))].

(** The callback [createSubprocessTimeout] gives to [setTimeout], with the
    [onTimeout] of [runClaudeStreaming]. *)
Definition timer_callback (env : turn_env) (r : reading (decoder_state := decoder_state))
  : list effect * reading (decoder_state := decoder_state) :=
  let proc := process (session r) in
  ([TimerFired proc; Invoke (onError "Request timed out")] ++ try_kill env proc,
   {| decoder := decoder r; buffer := buffer r; session := session r; timedOut := true |}).

Definition with_turn (proc : nat) (t : turn_state) (w : world) (effects : list effect)
    (s : system) : system :=
  {| module_state := w; turns := <[proc := t]> (turns s);
     timers := timers_after effects (timers s) |}.

(** One event: the call on whose behalf the code runs (none for
    [cancelStream]), what it does, and the system it leaves. An event for
    a call that is not suspended where the event resumes it, and the time
    of a timer that is not set, run no code. *)
Definition step (env : turn_env) (ev : event) (s : system)
  : option nat * list effect * system :=
  let idle := (None, [], s) in
  match ev with
  | Call message conversationId claudeSessionId allowedTools outcome =>
      let '(proc, effects, w, t) :=
        start_turn env message conversationId claudeSessionId allowedTools outcome
          (module_state s) in
      (Some proc, effects, with_turn proc t w effects s)
  | Chunk proc value =>
      match turns s !! proc with
      | Some {| turn_reading := r; turn_phase := at_read |} =>
          let '(effects, r') := read_step value r in
          (Some proc, effects,
           with_turn proc {| turn_reading := r'; turn_phase := at_read |}
             (module_state s) effects s)
      | _ => idle
      end
  | EndOfStream proc outcome =>
      match turns s !! proc with
      | Some {| turn_reading := r; turn_phase := at_read |} =>
          let '(effects, r', w) := leave_loop outcome r (module_state s) in
          (Some proc, effects,
           with_turn proc {| turn_reading := r'; turn_phase := at_exit |} w effects s)
      | _ => idle
      end
  | Exited proc exitCode =>
      match turns s !! proc with
      | Some {| turn_reading := r; turn_phase := at_exit |} =>
          let '(effects, ph) := after_exit exitCode r in
          (Some proc, effects,
           with_turn proc {| turn_reading := r; turn_phase := ph |}
             (module_state s) effects s)
      | _ => idle
      end
  | ErrorOutput proc =>
      match turns s !! proc with
      | Some {| turn_reading := r; turn_phase := at_stderr |} =>
          (Some proc, after_stderr r,
           with_turn proc {| turn_reading := r; turn_phase := finished |}
             (module_state s) (after_stderr r) s)
      | _ => idle
      end
  | Elapsed timer =>
      match turns s !! timer with
      | Some {| turn_reading := r; turn_phase := ph |} =>
          if decide (timer ∈ timers s)
          then
            let '(effects, r') := timer_callback env r in
            (Some timer, effects,
             with_turn timer {| turn_reading := r'; turn_phase := ph |}
               (module_state s) effects s)
          else idle
      | None => idle
      end
  | Cancel conversationId =>
      let '(_, effects, w) := cancelStream env conversationId (module_state s) in
      (None, effects,
       {| module_state := w; turns := turns s;
          timers := timers_after effects (timers s) |})
  end.

(** The events of a schedule one after the other: what is done, with the
    call that does it, and the system at the end. *)
Fixpoint run (env : turn_env) (schedule : list event) (s : system)
  : list (option nat * effect) * system :=
  match schedule with
  | [] => ([], s)
  | ev :: rest =>
      let '(actor, effects, s1) := step env ev s in
      let '(trace, s2) := run env rest s1 in
      (List.map (pair actor) effects ++ trace, s2)
  end.

(** The events of a turn that nothing else interleaves with, for the
    script [env] of the turn: the time of the timer is up before a read
    resolves where the script says so. *)
Definition time_up (proc : nat) (elapsed : bool) : list event :=
  if elapsed then [Elapsed proc] else [].

Definition read_events (proc : nat) (chunks : list (bool * list byte)) : list event :=
  List.concat
    (List.map (fun '(elapsed, value) => time_up proc elapsed ++ [Chunk proc value]) chunks).

Definition undisturbed (message conversationId : string) (claudeSessionId : option string)
    (allowedTools : option (list string)) (env : turn_env) (proc : nat) : list event :=
  Call message conversationId claudeSessionId allowedTools (stdin env)
  :: read_events proc (reads env)
  ++ time_up proc (fst (final_read env))
  ++ [EndOfStream proc (snd (final_read env)); Exited proc (exitCode env);
      ErrorOutput proc].

End Interleaving.

(** ** Notions the properties are stated with *)

(** The occurrence at position [i] of [denials] is the first one with its
    key. *)
Definition first_with_key {K} (key : PermissionDenial -> K)
    (denials : list PermissionDenial) (i : nat) (d : PermissionDenial) : Prop :=
  denials !! i = Some d /\
  forall j d', j < i -> denials !! j = Some d' -> key d' <> key d.

(** Positions that go up strictly. *)
Definition increasing (positions : list nat) : Prop :=
  forall a b i j, positions !! a = Some i -> positions !! b = Some j -> a < b -> i < j.

(** [kept] is the list of the first occurrences of [denials], one for each
    key, in the order of [denials]: the items of [kept] are, one by one,
    those at the positions of [denials] that hold a first occurrence,
    taken in increasing order. *)
Definition first_occurrences {K} (key : PermissionDenial -> K)
    (denials kept : list PermissionDenial) : Prop :=
  exists positions,
    increasing positions
    /\ (forall i, i ∈ positions <-> exists d, first_with_key key denials i d)
    /\ Forall2 (fun i d => denials !! i = Some d) positions kept.

(** The session a handler leaves, and the calls it makes. *)
Definition session_after {A} (m : Handler A) (session : StreamSession) : StreamSession :=
  (exec m session).1.

Definition calls_made {A} (m : Handler A) (session : StreamSession) : list callback :=
  (exec m session).2.

(** The events the client receives for a list of calls, from [state]. *)
Definition events_of (conversation : Conversation) (calls : list callback)
    (state : StreamingState) : list sse_event :=
  (run_callbacks conversation calls state).2.

Definition state_after (conversation : Conversation) (calls : list callback)
    (state : StreamingState) : StreamingState :=
  (run_callbacks conversation calls state).1.

(** [state] with its current segment replaced. *)
Definition with_currentSegment (text : string) (state : StreamingState) : StreamingState :=
  {| segments := segments state; state_currentSegment := text;
     state_result := state_result state |}.

(** The events [onToolEnd] writes for the tool that is pending. *)
Definition pending_tool_events (session : StreamSession) : list sse_event :=
  match some_text (lastToolName session) with
  | Some name => [tool_end name]
  | None => []
  end.

(** The calls that end a turn for the caller, and the events that end it
    for the client. *)
Definition is_terminal_call (c : callback) : bool :=
  match c with
  | onComplete _ _ _ | onError _ => true
  | _ => false
  end.

Definition is_terminal_event (e : sse_event) : bool :=
  match e with
  | permission_required _ _ | complete _ | no_response _ _ | error _ => true
  | _ => false
  end.

Definition is_tool_end (e : sse_event) : bool :=
  match e with
  | tool_end _ => true
  | _ => false
  end.

Definition is_result (msg : StreamMessage) : bool := String.eqb (msg_type msg) "result".

(** A result event that reports success. *)
Definition is_success (msg : StreamMessage) : bool :=
  is_result msg && negb (bool_decide (is_error msg = Some true)).




(** An event that carries no text, invokes no tool and is not a result. *)
Definition is_quiet (msg : StreamMessage) : bool :=
  negb (is_result msg)
  && (if String.eqb (msg_type msg) "assistant"
      then forallb (fun block => bool_decide (text_of block = None /\ tool_of block = None))
             (content_blocks msg)
      else true)
  && (if String.eqb (msg_type msg) "user"
      then bool_decide (command_stdout msg = None)
      else true).

(** The calls [end_pending_tool] makes in [session], and the session it
    leaves. *)
Definition pending_tool_end (session : StreamSession) : list callback :=
  match some_text (lastToolName session) with
  | Some name => [onToolEnd name]
  | None => []
  end.

Definition without_pending_tool (session : StreamSession) : StreamSession :=
  match some_text (lastToolName session) with
  | Some _ => set_lastToolName None session
  | None => session
  end.

(** An assistant event with the given blocks, and a result event that
    reports success. *)
Definition assistant_event (blocks : list ContentBlock) : StreamMessage :=
  {| msg_type := "assistant"; subtype := None;
     message := Some {| role := Some "assistant"; content := Blocks blocks |};
     result := None; session_id := None; is_error := None; permission_denials := None |}.

Definition text_block (text : string) : ContentBlock :=
  {| block_type := "text"; block_text := Some text; block_name := None;
     block_input := None |}.

Definition tool_use_block (name : string) : ContentBlock :=
  {| block_type := "tool_use"; block_text := None; block_name := Some name;
     block_input := None |}.

Definition success_event (res : string) : StreamMessage :=
  {| msg_type := "result"; subtype := Some "success"; message := None;
     result := Some res; session_id := None; is_error := Some false;
     permission_denials := None |}.

(** The session [runClaudeStreaming] starts a turn with. *)
Definition new_session (proc : nat) (conversationId : string)
    (claudeSessionId : option string) : StreamSession :=
  {| process := proc; sessionId := claudeSessionId; conversationId := conversationId;
     currentSegment := ""; lastToolName := None; clearTimeout := proc |}.

(** The processes and timers of the registered sessions were created
    before the next process is. *)
Definition wf_world (w : world) : Prop :=
  forall conversationId session,
    activeSessions w !! conversationId = Some session ->
    process session < next_process w /\ clearTimeout session < next_process w.

(** The three releases a turn owes for its process [proc]: its timer is
    cleared, the lock of its reader is released, its entry is deleted. *)
Definition is_release (proc : nat) (conversationId : string) (e : effect) : bool :=
  match e with
  | TimerCleared t => Nat.eqb t proc
  | ReleaseLock p => Nat.eqb p proc
  | RegistryDelete c (Some p) => String.eqb c conversationId && Nat.eqb p proc
  | _ => false
  end.

(** The timeout elapses at one of the reads of the turn. *)
Definition timer_fires (env : turn_env) : bool :=
  existsb fst (reads env) || fst (final_read env).

(** The call the timer makes when it fires. *)
Definition timeout_call (fires : bool) : list callback :=
  if fires then [onError "Request timed out"] else [].

(** The call the [catch] of the read loop makes: none after a timeout. *)
Definition read_error_call (env : turn_env) : list callback :=
  match snd (final_read env) with
  | read_throws e =>
      if timer_fires env then [] else [onError ("Stream read error: " +:+ e)]
  | read_done => []
  end.

Definition read_fails (env : turn_env) : bool :=
  match snd (final_read env) with
  | read_throws _ => true
  | read_done => false
  end.

(** A text that is scanned at any depth [d] from outside a string back to
    outside a string, without going below [d]. *)
Definition scans (s : string) : Prop :=
  forall d, scan d (Outside d) s = Some (Outside d).

(** A buffer without a line break in it. *)
Definition unbroken (buffer : string) : Prop := Str.split Str.nl buffer = [buffer].

Section Objects.

Context {decoder_state : Type}.
Context (decode_byte : decoder_state -> byte -> decoder_state * string).
Context (decoder_init : decoder_state).
Context (JSON_parse : string -> option StreamMessage).

(** The objects a turn hands to [handleStreamMessage]: those of the
    complete lines and, when the stream ends without a read error, that of
    the rest of the buffer. *)
Definition handed_over (env : turn_env) : list StreamMessage :=
  let '(_, buffer, lines) := feed decode_byte (List.map snd (reads env)) decoder_init "" in
  omap (parse_line JSON_parse) lines
  ++ (if read_fails env then [] else omap (parse_line JSON_parse) [buffer]).

(** The reading state the loop starts in. *)
Definition start_reading (proc : nat) (conversationId : string)
    (claudeSessionId : option string) : reading (decoder_state := decoder_state) :=
  {| decoder := decoder_init; buffer := "";
     session := new_session proc conversationId claudeSessionId; timedOut := false |}.

End Objects.

(** The effects of the eviction of the session found in the registry. *)
Definition eviction (env : turn_env) (conversationId : string) (w : world) : list effect :=
  match activeSessions w !! conversationId with
  | Some existing =>
      [TimerCleared (clearTimeout existing);
       Kill (process existing) (kill_throws env (process existing));
       RegistryDelete conversationId (Some (process existing))]
  | None => []
  end.

(** The effects of the statements that follow [await proc.exited]. *)
Definition exit_effects (env : turn_env) (proc : nat) (timedOut : bool) : list effect :=
  if timedOut then []
  else if Z.eqb (exitCode env) 0 then []
  else [StderrRead proc; StderrReleaseLock proc].

(** The arguments [runClaudeStreaming] spawns the child with. *)
Definition turn_args (env : turn_env) (claudeSessionId : option string)
    (allowedTools : option (list string)) : list string :=
  buildBaseArgs (additionalDirs env)
    {| opt_message := None; opt_claudeSessionId := claudeSessionId;
       opt_allowedTools := allowedTools; opt_useStdin := true |}.


(** ** Notions for turns that interleave *)







(** The call with process [proc] is suspended at a read of the output of
    its child, for the conversation [c]: it holds a live session handle of
    the conversation. *)
Definition reads_for {decoder_state} (c : string)
    (s : system (decoder_state := decoder_state)) (proc : nat) : bool :=
  match turns s !! proc with
  | Some t =>
      match turn_phase t with
      | at_read => String.eqb (conversationId (session (turn_reading t))) c
      | _ => false
      end
  | None => false
  end.

(** What a handler leaves alone in the session: the process, the
    conversation and the timer. *)
Definition handle_of (session : StreamSession) : nat * string * nat :=
  (process session, conversationId session, clearTimeout session).





(** Schedules to run the system on: the child of every call takes the
    message, and no [kill] throws. *)
Module Schedules.

Definition ran (schedule : list event)
  : list (option nat * effect) * system (decoder_state := unit) :=
  run latin1_byte tt Example.parse (Example.env []) schedule initial_system.

(** Three messages for one conversation. The second comes while the first
    call reads; the child of the first call is killed, so its read
    resolves with [done]; the third comes while the second call reads. *)
Definition three_calls : list event :=
  [Call "one" "c1" None None stdin_ok;
   Call "two" "c1" None None stdin_ok;
   EndOfStream 0 read_done;
   Call "three" "c1" None None stdin_ok].


End Schedules.

(** ** The call that does not stream ([claude.ts], [chat.ts]) *)

(** What an [async] function gives its caller: the value it returns, or
    the exception it throws, by its message. *)
Inductive outcome (A : Type) : Type :=
| returned (a : A)
| thrown (e : string).

Arguments returned {A} a.
Arguments thrown {A} e.

(** The script of one call of [runClaude]: what each [await] resolves to.
    [call_exitCode] is [proc.exitCode] once the child has exited, [None]
    for [null]. *)
Record call_env := {
  call_additionalDirs : list string;
  call_kill_throws : nat -> bool;
  call_reads : list (bool * list byte);
  call_final_read : bool * last_read;
  call_exitCode : option Z
}.

(** The callback of [createSubprocessTimeout] as [runClaude] sets it up. *)
Definition await_call (env : call_env) (proc : nat) (elapsed timedOut : bool)
  : bool * list effect :=
  if elapsed && negb timedOut
  then (true, [TimerFired proc; Kill proc (call_kill_throws env proc)])
  else (timedOut, []).

(** [`${proc.exitCode}`] *)
Definition exit_code_text (code : option Z) : string :=
  match code with
  | Some n => JSON.number n
  | None => "null"
  end.

(** The response [runClaude] starts with. *)
Definition no_response_yet : ClaudeResponse :=
  {| response_text := ""; response_sessionId := "" |}.

Section Call.

Context {decoder_state : Type}.
Context (decode_byte : decoder_state -> byte -> decoder_state * string).
Context (decoder_init : decoder_state).
Context (JSON_parse : string -> option StreamMessage).

(** The state of the read loop of [runClaude]. *)
Record call_reading := {
  call_decoder : decoder_state;
  call_buffer : string;
  call_response : ClaudeResponse;
  call_timedOut : bool
}.

(** The iterations of [while (true)] that read a chunk. *)
Fixpoint call_loop (env : call_env) (proc : nat) (chunks : list (bool * list byte))
    (r : call_reading) : call_reading * list effect :=
  match chunks with
  | [] => (r, [])
  | (elapsed, value) :: rest =>
      let '(timedOut', fired) := await_call env proc elapsed (call_timedOut r) in
      let '(st', buffer', lines) :=
        read_chunk decode_byte value (call_decoder r) (call_buffer r) in
      let response' :=
        fold_left (fun acc line => runClaude_line JSON_parse line acc) lines (call_response r) in
      let '(r', effects) :=
        call_loop env proc rest
          {| call_decoder := st'; call_buffer := buffer'; call_response := response';
             call_timedOut := timedOut' |} in
      (r', fired ++ effects)
  end.

(** [runClaude]. The [catch] kills the child and throws the exception
    again; the [finally] clears the timer and releases the reader. *)
Definition runClaude (message : string) (claudeSessionId : option string)
    (env : call_env) (w : world) : list effect * outcome ClaudeResponse * world :=
  let args :=
    buildBaseArgs (call_additionalDirs env)
      {| opt_message := Some message; opt_claudeSessionId := claudeSessionId;
         opt_allowedTools := None; opt_useStdin := false |} in
  let proc := next_process w in
  let w' := {| activeSessions := activeSessions w; next_process := S proc |} in
  let started := [Spawn proc args; TimerSet proc; GetReader proc] in
  let '(r, looped) :=
    call_loop env proc (call_reads env)
      {| call_decoder := decoder_init; call_buffer := ""; call_response := no_response_yet;
         call_timedOut := false |} in
  let '(elapsed, last_outcome) := call_final_read env in
  let '(timedOut', fired) := await_call env proc elapsed (call_timedOut r) in
  let caught := [Kill proc (call_kill_throws env proc)] in
  let finally := [TimerCleared proc; ReleaseLock proc] in
  match last_outcome with
  | read_throws e =>
      (started ++ looped ++ fired ++ caught ++ finally, thrown e, w')
  | read_done =>
      if timedOut'
      then (started ++ looped ++ fired ++ [TimerCleared proc] ++ caught ++ finally,
            thrown "Claude CLI request timed out", w')
      else match call_exitCode env with
           | Some 0%Z =>
               (started ++ looped ++ fired ++ [TimerCleared proc] ++ finally,
                returned (call_response r), w')
           | code =>
               (started ++ looped ++ fired ++ [TimerCleared proc]
                  ++ [StderrRead proc; StderrReleaseLock proc] ++ caught ++ finally,
                thrown ("Claude CLI exited with code " +:+ exit_code_text code), w')
           end
  end.

(** [sendNonStreamingMessage]: what it asks of the persistence layer, which
    is taken not to throw, and the text it returns. *)
Definition sendNonStreamingMessage (conversation : Conversation) (message : string)
    (env : call_env) (w : world)
  : list effect * list persist_op * outcome string * world :=
  let '(effects, response, w') := runClaude message (claudeSessionId conversation) env w in
  match response with
  | returned response =>
      (effects,
       (if Str.truthy (response_sessionId response)
           && bool_decide (Some (response_sessionId response) ≠ claudeSessionId conversation)
        then [updateClaudeSessionId (id conversation) (response_sessionId response)]
        else [])
       ++ [createMessage (id conversation) "assistant" (response_text response)],
       returned (response_text response), w')
  | thrown e => (effects, [], thrown e, w')
  end.

End Call.

(** ** Titles of conversations ([title-generator.ts], [chat.ts]) *)

(** [s.slice(0, n)] *)
Fixpoint slice_head (n : nat) (s : string) : string :=
  match n, s with
  | S n', String c s' => String c (slice_head n' s')
  | _, _ => EmptyString
  end.

(** [items.slice(-n)]: the last [n] items. *)
Definition slice_last {A} (n : nat) (items : list A) : list A :=
  List.skipn (length items - n) items.

Definition is_quote (c : ascii) : bool :=
  Ascii.eqb c Str.dquote || Ascii.eqb c "'".

Definition strip_leading_quote (s : string) : string :=
  match s with
  | String c s' => if is_quote c then s' else s
  | EmptyString => EmptyString
  end.

(** [result.replace(/^["']|["']$/g, '')]: a quote at the start is removed,
    and a quote at the end of what is left. *)
Definition strip_quotes (s : string) : string :=
  String.rev (strip_leading_quote (String.rev (strip_leading_quote s))).

(** What [generateTitle] makes of the text the child has printed: [None]
    when the title is kept. *)
Definition clean_title (output : string) : option string :=
  let result := Str.trim output in
  if String.eqb result "KEEP" || String.eqb result "" then None
  else
    let title := Str.trim (strip_quotes result) in
    Some (if Nat.ltb 60 (String.length title) then slice_head 57 title +:+ "..." else title).

Record TitleResult := {
  generated_title : option string;
  generated_error : option string
}.

(** One of the recent messages [generateTitle] is given. *)
Record RecentMessage := {
  recent_role : string;
  recent_content : string
}.

(** The context of the prompt: the last four messages, a line each. *)
Definition title_context (recentMessages : list RecentMessage) : string :=
  join_lines
    (List.map (fun m => recent_role m +:+ ": " +:+ slice_head 200 (recent_content m))
       (slice_last 4 recentMessages)).

Definition title_prompt (currentTitle : option string) (context : string) : string :=
  match some_text currentTitle with
  | Some current =>
      "Current title: " +:+ String Str.dquote current +:+ String Str.dquote Str.newline
      +:+ Str.newline
      +:+ "Recent conversation:" +:+ Str.newline
      +:+ context +:+ Str.newline
      +:+ Str.newline
      +:+ "If the topic has significantly shifted, provide a new short title (3-6 words) that captures the current topic. If the topic is the same, respond with just: KEEP"
      +:+ Str.newline
      +:+ Str.newline
      +:+ "Respond with ONLY the new title or KEEP, nothing else."
  | None =>
      "Conversation:" +:+ Str.newline
      +:+ context +:+ Str.newline
      +:+ Str.newline
      +:+ "Provide a short title (3-6 words) that captures what this conversation is about. Respond with ONLY the title, nothing else."
  end.

(** What the child that is asked for a title does: something in the [try]
    block throws, or the child prints [output] and exits. The timer of
    [generateTitle] kills the child after [TITLE_TIMEOUT_MS]; what the child
    has printed and its exit code are then those of a killed child. *)
Inductive title_process :=
| title_throws (e : string)
| title_exits (output : string) (exitCode : Z).

(** [generateTitle]; [run] is the child spawned with a prompt. *)
Definition generateTitle (run : string -> title_process) (currentTitle : option string)
    (recentMessages : list RecentMessage) : TitleResult :=
  match recentMessages with
  | [] =>
      {| generated_title := None;
         generated_error := Some "No messages to generate title from" |}
  | _ :: _ =>
      match run (title_prompt currentTitle (title_context recentMessages)) with
      | title_throws e => {| generated_title := None; generated_error := Some e |}
      | title_exits output exitCode =>
          if Z.eqb exitCode 0
          then {| generated_title := clean_title output; generated_error := None |}
          else {| generated_title := None;
                  generated_error := Some "Title generation failed" |}
      end
  end.

(** [generateAndUpdateTitle]: the title [persistStreamResult] goes on with.
    The update of the conversation is taken not to throw. *)
Definition generateAndUpdateTitle (run : string -> title_process)
    (conversation : Conversation) (userMessage : string) (segments : list string)
  : option string :=
  some_text
    (generated_title
       (generateTitle run (title conversation)
          [ {| recent_role := "user"; recent_content := userMessage |};
            {| recent_role := "assistant"; recent_content := join_lines segments |} ])).

(** ** Configuration ([config.ts]) *)

(** [requireEnv]: [value] is [process.env[name]]. *)
Definition requireEnv (isProduction : bool) (name : string) (value defaultValue : option string)
  : outcome string :=
  match some_text value with
  | Some v => returned v
  | None =>
      match some_text defaultValue with
      | Some v => returned v
      | None =>
          if isProduction
          then thrown ("Missing required environment variable: " +:+ name)
          else returned ""
      end
  end.

(** [config.apiKey] *)
Definition config_apiKey (isProduction : bool) (API_KEY : option string) : outcome string :=
  requireEnv isProduction "API_KEY" API_KEY (if isProduction then None else Some "").

(** [config.claudeAdditionalDirs], which [getAdditionalDirs] returns:
    [(process.env.CLAUDE_ADDITIONAL_DIRS || '').split(':').filter(Boolean)] *)
Definition claudeAdditionalDirs (CLAUDE_ADDITIONAL_DIRS : option string) : list string :=
  List.filter Str.truthy (Str.split ":" (or_else CLAUDE_ADDITIONAL_DIRS "")).

(** [dirs.join(':')], the way the variable is written. *)
Fixpoint join_colons (pieces : list string) : string :=
  match pieces with
  | [] => ""
  | [piece] => piece
  | piece :: rest => piece +:+ ":" +:+ join_colons rest
  end.

(** ** What is written on the event stream ([chat.ts]) *)

(** One property of an object literal after the ones before it: a key
    that is there already keeps its place and takes the new value. *)
Fixpoint assign (key : string) (value : json) (fields : list (string * json))
  : list (string * json) :=
  match fields with
  | [] => [(key, value)]
  | (k, v) :: rest =>
      if String.eqb k key then (k, value) :: rest else (k, v) :: assign key value rest
  end.

(** [{ type, ...data }] *)
Definition with_type (type : string) (data : list (string * json)) : list (string * json) :=
  fold_left (fun fields kv => assign (fst kv) (snd kv) fields) data [("type", JString type)].

(** [writeSSEEvent]: the text of the [data] field of the event. *)
Definition writeSSEEvent (type : string) (data : list (string * json)) : string :=
  JSON.stringify (JObject (with_type type data)).

(** A denial as an object, its fields in the order of the interface. *)
Definition denial_json (denial : PermissionDenial) : json :=
  JObject [("tool_name", JString (tool_name denial));
           ("tool_use_id", JString (tool_use_id denial));
           ("tool_input", JObject (tool_input denial))].

(** The arguments [writeSSEEvent] is called with for each event. *)
Definition event_type (e : sse_event) : string :=
  match e with
  | chunk _ => "chunk"
  | segment_end _ _ => "segment_end"
  | tool_start _ => "tool_start"
  | tool_end _ => "tool_end"
  | permission_required _ _ => "permission_required"
  | complete _ => "complete"
  | no_response _ _ => "no_response"
  | error _ => "error"
  | title_update _ _ => "title_update"
  end.

Definition event_data (e : sse_event) : list (string * json) :=
  match e with
  | chunk text => [("content", JString text)]
  | segment_end conversationId text =>
      [("conversationId", JString conversationId); ("content", JString text)]
  | tool_start toolName | tool_end toolName => [("toolName", JString toolName)]
  | permission_required conversationId denials =>
      [("conversationId", JString conversationId);
       ("denials", JArray (List.map denial_json denials))]
  | complete conversationId => [("conversationId", JString conversationId)]
  | no_response conversationId text =>
      [("conversationId", JString conversationId); ("message", JString text)]
  | error text => [("message", JString text)]
  | title_update conversationId text =>
      [("conversationId", JString conversationId); ("title", JString text)]
  end.

Definition written (e : sse_event) : string := writeSSEEvent (event_type e) (event_data e).

(** ** The middleware in front of the chat routes ([apiKey.ts], [rateLimit.ts]) *)

(** The loop of [secureCompare]: [result |= a.charCodeAt(i) ^ b.charCodeAt(i)] *)
Fixpoint secure_fold (a b : string) (result : N) : N :=
  match a, b with
  | String x a', String y b' =>
      secure_fold a' b' (N.lor result (N.lxor (N_of_ascii x) (N_of_ascii y)))
  | _, _ => result
  end.

(** [secureCompare] *)
Definition secureCompare (a b : string) : bool :=
  if negb (Nat.eqb (String.length a) (String.length b)) then false
  else N.eqb (secure_fold a b 0) 0.

(** What a middleware does with a request: it calls [next], or answers
    with a status and an error. *)
Inductive gate :=
| next
| answer (status : Z) (err : string).

(** [apiKeyMiddleware]; [apiKey] is the header [X-API-Key]. *)
Definition apiKeyMiddleware (configApiKey : string) (isProduction : bool)
    (path : string) (apiKey : option string) : gate :=
  if String.eqb path "/health" then next
  else if negb (Str.truthy configApiKey) then
    (if isProduction then answer 500 "Server misconfigured: API key required" else next)
  else
    match some_text apiKey with
    | None => answer 401 "Missing API key"
    | Some key =>
        if secureCompare key configApiKey then next else answer 401 "Invalid API key"
    end.

Record RateLimitEntry := {
  entry_count : Z;
  entry_resetAt : Z
}.

Record RateLimitConfig := {
  windowMs : Z;
  maxRequests : Z
}.

(** The headers of the answer; the times are in milliseconds. *)
Record rate_headers := {
  X_RateLimit_Limit : Z;
  X_RateLimit_Remaining : Z;
  X_RateLimit_Reset : Z;
  Retry_After : option Z
}.

Inductive rate_decision :=
| let_through (headers : rate_headers)
| too_many_requests (headers : rate_headers).

(** [Math.ceil(x / 1000)] for an integer [x]. *)
Definition ceil_seconds (x : Z) : Z := (- ((- x) / 1000))%Z.

(** The key of a request when the limiter has no [keyGenerator]:
    [userId || ip]. *)
Definition rate_limit_key (userId x_forwarded_for cf_connecting_ip : option string) : string :=
  or_else userId (or_else x_forwarded_for (or_else cf_connecting_ip "unknown")).

(** The middleware [rateLimit(config)] returns, for a request with [key]
    at time [now], on the store all the limiters share. *)
Definition rateLimit (config : RateLimitConfig) (key : string) (now : Z)
    (store : gmap string RateLimitEntry) : rate_decision * gmap string RateLimitEntry :=
  let headers_of (entry : RateLimitEntry) :=
    {| X_RateLimit_Limit := maxRequests config;
       X_RateLimit_Remaining := Z.max 0 (maxRequests config - entry_count entry);
       X_RateLimit_Reset := ceil_seconds (entry_resetAt entry);
       Retry_After := None |} in
  let new_window :=
    {| entry_count := 1; entry_resetAt := (now + windowMs config)%Z |} in
  match store !! key with
  | Some entry =>
      if (entry_resetAt entry <? now)%Z then
        (let_through (headers_of new_window), <[key := new_window]> store)
      else if (maxRequests config <=? entry_count entry)%Z then
        (too_many_requests
           {| X_RateLimit_Limit := maxRequests config;
              X_RateLimit_Remaining := 0;
              X_RateLimit_Reset := ceil_seconds (entry_resetAt entry);
              Retry_After := Some (ceil_seconds (entry_resetAt entry - now)) |},
         store)
      else
        let entry' :=
          {| entry_count := (entry_count entry + 1)%Z;
             entry_resetAt := entry_resetAt entry |} in
        (let_through (headers_of entry'), <[key := entry']> store)
  | None => (let_through (headers_of new_window), <[key := new_window]> store)
  end.

(** The callback of [cleanupInterval], run at time [now]. *)
Definition cleanup (now : Z) (store : gmap string RateLimitEntry)
  : gmap string RateLimitEntry :=
  filter (fun kv => ¬ (entry_resetAt kv.2 < now)%Z) store.

(** The limiters of [app.ts]. *)
Definition standardRateLimit : RateLimitConfig :=
  {| windowMs := 60 * 1000; maxRequests := 30 |}.

Definition claudeRateLimit : RateLimitConfig :=
  {| windowMs := 60 * 1000; maxRequests := 10 |}.

Definition authRateLimit : RateLimitConfig :=
  {| windowMs := 15 * 60 * 1000; maxRequests := 10 |}.

(** ** Who may use a conversation ([authorization.ts], [conversations.ts]) *)

(** A row of the table [conversations]. *)
Record ConversationRow := {
  row_id : string;
  row_user_id : string;
  row_claude_session_id : option string;
  row_title : option string;
  row_created_at : string;
  row_updated_at : string
}.

(** A conversation as [db/conversations.ts] returns it. *)
Record StoredConversation := {
  stored_id : string;
  stored_userId : string;
  stored_claudeSessionId : option string;
  stored_title : option string;
  stored_createdAt : string;
  stored_updatedAt : string
}.

Definition rowToConversation (row : ConversationRow) : StoredConversation :=
  {| stored_id := row_id row;
     stored_userId := row_user_id row;
     stored_claudeSessionId := row_claude_session_id row;
     stored_title := row_title row;
     stored_createdAt := row_created_at row;
     stored_updatedAt := row_updated_at row |}.

(** [getConversation]: the first row of
    [SELECT * FROM conversations WHERE id = ?], when there is one. *)
Definition getConversation (conversationId : string) (table : list ConversationRow)
  : option StoredConversation :=
  rowToConversation
    <$> List.find (fun row => String.eqb (row_id row) conversationId) table.

Inductive ConversationAuthResult :=
| authorized (conversation : StoredConversation)
| unauthorized (err : string) (status : Z).

(** [authorizeConversation]; [userId] is the user of the request. *)
Definition authorizeConversation (userId conversationId : string)
    (table : list ConversationRow) : ConversationAuthResult :=
  match getConversation conversationId table with
  | Some conversation =>
      if String.eqb (stored_userId conversation) userId
      then authorized conversation
      else unauthorized "Conversation not found" 404
  | None => unauthorized "Conversation not found" 404
  end.

(** [deleteConversation]: [DELETE FROM conversations WHERE id = ?] *)
Definition deleteConversation (conversationId : string) (table : list ConversationRow)
  : list ConversationRow :=
  List.filter (fun row => negb (String.eqb (row_id row) conversationId)) table.

(** The route [DELETE /chat/:id]: the status of the answer and the table
    it leaves. *)
Definition delete_chat (userId conversationId : string) (table : list ConversationRow)
  : Z * list ConversationRow :=
  match authorizeConversation userId conversationId table with
  | authorized _ => (200%Z, deleteConversation conversationId table)
  | unauthorized _ status => (status, table)
  end.

(** The conversation a chat route goes on with, as [chat.ts] sees it. *)
Definition as_conversation (conversation : StoredConversation) : Conversation :=
  {| id := stored_id conversation;
     claudeSessionId := stored_claudeSessionId conversation;
     title := stored_title conversation |}.

(** ** Notions of the further properties *)

Definition is_spawn (e : effect) : bool :=
  match e with
  | Spawn _ _ => true
  | _ => false
  end.

(** The tools protocol of a list of calls: [onToolEnd] names the tool
    that was started last and has not been ended, and a terminal call is
    made when no tool is pending. The result is the tool that is pending
    after the calls, or [None] when a call breaks the protocol. *)
Fixpoint tool_protocol (pending : option string) (calls : list callback)
  : option (option string) :=
  match calls with
  | [] => Some pending
  | onToolStart name :: rest => tool_protocol (Some name) rest
  | onToolEnd name :: rest =>
      if bool_decide (pending = Some name) then tool_protocol None rest else None
  | (onComplete _ _ _ | onError _) :: rest =>
      match pending with
      | None => tool_protocol None rest
      | Some _ => None
      end
  | (onChunk _ | onSegmentEnd _) :: rest => tool_protocol pending rest
  end.

(** The texts of the chunks the client receives, one after the other. *)
Fixpoint chunked_text (events : list sse_event) : string :=
  match events with
  | [] => ""
  | chunk text :: rest => text +:+ chunked_text rest
  | _ :: rest => chunked_text rest
  end.

(** The texts of a list, one after the other. *)
Fixpoint concat_text (texts : list string) : string :=
  match texts with
  | [] => ""
  | text :: rest => text +:+ concat_text rest
  end.

(** The segments the client is told the end of. *)
Definition ended_segments (events : list sse_event) : list string :=
  omap (fun e => match e with segment_end _ text => Some text | _ => None end) events.

(** The assistant messages the persistence layer is asked to create. *)
Definition created_messages (ops : list persist_op) : list string :=
  omap (fun op => match op with
                  | createMessage _ "assistant" text => Some text
                  | _ => None
                  end) ops.

(** The segment that is current when the turn ends, when it has text. *)
Definition final_segment (state : StreamingState) : list string :=
  if Str.has_text (state_currentSegment state) then [state_currentSegment state] else [].

(** The script of a turn with another exit code of the child. *)
Definition with_exitCode (code : Z) (env : turn_env) : turn_env :=
  {| additionalDirs := additionalDirs env; kill_throws := kill_throws env;
     stdin := stdin env; reads := reads env; final_read := final_read env;
     exitCode := code |}.

(** A [user] event whose content is a string. *)
Definition user_event (text : string) : StreamMessage :=
  {| msg_type := "user"; subtype := None;
     message := Some {| role := Some "user"; content := Text text |};
     result := None; session_id := None; is_error := None; permission_denials := None |}.

(** The character [c] occurs in [s]. *)
Fixpoint occurs (c : ascii) (s : string) : bool :=
  match s with
  | EmptyString => false
  | String c' s' => Ascii.eqb c' c || occurs c s'
  end.

(** The effects the read loop of a turn has: the timer fires and kills
    the child, and callbacks are called. *)
Definition in_the_loop (e : effect) : bool :=
  match e with
  | TimerFired _ | Kill _ _ | Invoke _ => true
  | _ => false
  end.

(** A call of [onError] comes with a message that is not empty. *)
Definition error_has_text (c : callback) : bool :=
  match c with
  | onError e => Str.truthy e
  | _ => true
  end.

(** The terminal call that is the last one of a turn. *)
Definition last_terminal_call (calls : list callback) : option callback :=
  last (List.filter is_terminal_call calls).

(** The timeout elapses at one of the reads of a call. *)
Definition call_times_out (env : call_env) : bool :=
  existsb fst (call_reads env) || fst (call_final_read env).

(** The read loop of a call ends without an exception, the timer has not
    fired and the child has exited with code 0. *)
Definition call_succeeds (env : call_env) : bool :=
  match snd (call_final_read env) with
  | read_done => negb (call_times_out env) && bool_decide (call_exitCode env = Some 0%Z)
  | read_throws _ => false
  end.

(** The kills of the child and the releases of its timer and reader. *)
Definition is_kill_or_release (e : effect) : bool :=
  match e with
  | Kill _ _ | TimerCleared _ | ReleaseLock _ => true
  | _ => false
  end.

(** Every block of type [text] of the event carries a text. *)
Definition texts_present (msg : StreamMessage) : bool :=
  forallb (fun block =>
             negb (String.eqb (block_type block) "text")
             || bool_decide (block_text block <> None))
    (content_blocks msg).

Definition is_assistant (msg : StreamMessage) : bool :=
  String.eqb (msg_type msg) "assistant".

Section CompleteLines.

Context {decoder_state : Type}.
Context (decode_byte : decoder_state -> byte -> decoder_state * string).
Context (decoder_init : decoder_state).
Context (JSON_parse : string -> option StreamMessage).

(** The objects of the complete lines of a stream that arrives as
    [chunks]: those of the lines that end with a line break. *)
Definition complete_objects (chunks : list (list byte)) : list StreamMessage :=
  omap (parse_line JSON_parse) (feed decode_byte chunks decoder_init "").2.

(** The rest of the stream after its last line break. *)
Definition unterminated_line (chunks : list (list byte)) : string :=
  (feed decode_byte chunks decoder_init "").1.2.

End CompleteLines.

(** The response [runClaude] makes of a list of events. *)
Definition response_of (events : list StreamMessage) : ClaudeResponse :=
  fold_left (fun acc event => runClaude_event event acc) events no_response_yet.

(** The texts of the calls of [onChunk], one after the other. *)
Fixpoint chunks_of (calls : list callback) : string :=
  match calls with
  | [] => ""
  | onChunk text :: rest => text +:+ chunks_of rest
  | _ :: rest => chunks_of rest
  end.

(** The exception [runClaude] throws for a script on which it does not
    succeed: that of the read, else that of the timeout, else that of the
    exit code. *)
Definition call_exception (env : call_env) : string :=
  match snd (call_final_read env) with
  | read_throws e => e
  | read_done =>
      if call_times_out env then "Claude CLI request timed out"
      else "Claude CLI exited with code " +:+ exit_code_text (call_exitCode env)
  end.

(** The standard error of the child is read when the loop has ended
    without an exception and without a timeout and the exit code is not 0. *)
Definition call_reads_stderr (env : call_env) : bool :=
  match snd (call_final_read env) with
  | read_done => negb (call_times_out env) && negb (bool_decide (call_exitCode env = Some 0%Z))
  | read_throws _ => false
  end.

(** A text without a control character: no code unit below 32, so no
    line feed and no carriage return. *)
Fixpoint no_control (s : string) : bool :=
  match s with
  | EmptyString => true
  | String c s' => negb (Nat.ltb (nat_of_ascii c) 32) && no_control s'
  end.

Definition is_let_through (d : rate_decision) : bool :=
  match d with
  | let_through _ => true
  | too_many_requests _ => false
  end.

(** The requests of one key, each with the limiter that handles it and
    the time it arrives at, served one after the other on the store. *)
Fixpoint serve (key : string) (requests : list (RateLimitConfig * Z))
    (store : gmap string RateLimitEntry)
  : list rate_decision * gmap string RateLimitEntry :=
  match requests with
  | [] => ([], store)
  | (config, now) :: rest =>
      let '(d, store1) := rateLimit config key now store in
      let '(ds, store2) := serve key rest store1 in
      (d :: ds, store2)
  end.

(** The number of requests that are let through. *)
Definition passes (decisions : list rate_decision) : nat :=
  length (List.filter is_let_through decisions).

(** The key has no window that is open at time [now]: no entry, or one
    whose window is over. *)
Definition no_open_window (key : string) (now : Z) (store : gmap string RateLimitEntry)
  : bool :=
  match store !! key with
  | Some entry => (entry_resetAt entry <? now)%Z
  | None => true
  end.

(** The requests of any keys, served one after the other on the store. *)
Fixpoint serve_all (requests : list (RateLimitConfig * string * Z))
    (store : gmap string RateLimitEntry)
  : list rate_decision * gmap string RateLimitEntry :=
  match requests with
  | [] => ([], store)
  | (config, key, now) :: rest =>
      let '(d, store1) := rateLimit config key now store in
      let '(ds, store2) := serve_all rest store1 in
      (d :: ds, store2)
  end.

(** [pruned] is [store] without some of the entries whose window was over
    at time [now]. *)
Definition is_pruned (now : Z) (pruned store : gmap string RateLimitEntry) : Prop :=
  forall key,
    pruned !! key = store !! key
    \/ (pruned !! key = None
        /\ exists entry, store !! key = Some entry /\ (entry_resetAt entry < now)%Z).

(** ** Samples to run the further properties on *)

Module Sample.

(** A result event that reports an error and has no result text. *)
Definition failure_event : StreamMessage :=
  {| msg_type := "result"; subtype := Some "error_during_execution"; message := None;
     result := None; session_id := None; is_error := Some true;
     permission_denials := None |}.

Definition j_failure (res : string) : json :=
  JObject [("type", JString "result"); ("is_error", JBool true);
           ("result", JString res)].

Definition parse : string -> option StreamMessage :=
  parse_known (Example.known ++ [j_failure "boom"]).

(** The events the client receives and what is stored for a turn whose
    child writes the lines of [lines]. *)
Definition respond (lines : list json)
  : list sse_event * list persist_op * world :=
  handleStreamingResponse latin1_byte tt parse (fun _ => None) None "hi"
    Example.conversation None (Example.env lines) Example.empty_world.

Definition turn (lines : list json) : list effect * world :=
  runClaudeStreaming latin1_byte tt parse "hi" "c1" None None (Example.env lines)
    Example.empty_world.

(** A text with the output of a slash command. *)
Definition command_text : string :=
  "<local-command-stdout> ok </local-command-stdout>".

(** A child that answers with a title in quotes, and a line break. *)
Definition quoted_title : string :=
  String Str.dquote ("Fixing the build" +:+ String Str.dquote Str.newline).

Definition titled (prompt : string) : title_process := title_exits quoted_title 0.

(** A table with a conversation of each of two users. *)
Definition row (conversationId userId : string) : ConversationRow :=
  {| row_id := conversationId; row_user_id := userId; row_claude_session_id := None;
     row_title := None; row_created_at := "2025-01-01 00:00:00";
     row_updated_at := "2025-01-01 00:00:00" |}.

Definition table : list ConversationRow := [row "c1" "u1"; row "c2" "u2"].

(** A store with an entry whose window is over at time 100. *)
Definition stale_store : gmap string RateLimitEntry :=
  {[ "u1" := {| entry_count := 5; entry_resetAt := 50 |} ]}.

End Sample.

(** ** Pages of messages and conversations ([conversations.ts]) *)

(** A row of the table [messages]. *)
Record MessageRow := {
  message_row_id : string;
  message_row_conversation_id : string;
  message_row_role : string;
  message_row_content : string;
  message_row_created_at : string
}.

(** A message as [db/conversations.ts] returns it. *)
Record StoredMessage := {
  message_id : string;
  message_conversationId : string;
  message_role : string;
  message_content : string;
  message_createdAt : string
}.

Definition rowToMessage (row : MessageRow) : StoredMessage :=
  {| message_id := message_row_id row;
     message_conversationId := message_row_conversation_id row;
     message_role := message_row_role row;
     message_content := message_row_content row;
     message_createdAt := message_row_created_at row |}.

(** [limit] is a number of rows, [cursor] a time stamp. *)
Record PaginationOptions := {
  page_limit : option nat;
  page_cursor : option string
}.

Record PaginatedResult (A : Type) := {
  items : list A;
  hasMore : bool;
  nextCursor : option string
}.

Arguments items {A} _.
Arguments hasMore {A} _.
Arguments nextCursor {A} _.

(** [options.limit || fallback] *)
Definition limit_of (options : PaginationOptions) (fallback : nat) : nat :=
  match page_limit options with
  | Some (S n) => S n
  | _ => fallback
  end.

(** The comparison [<] of SQLite on texts: code unit by code unit. *)
Definition text_before (a b : string) : bool := String.ltb a b.

(** The [WHERE] clause of the query of [getMessages]: with the cursor
    when the options have one that is not empty. *)
Definition message_selected (conversationId : string) (options : PaginationOptions)
    (row : MessageRow) : bool :=
  String.eqb (message_row_conversation_id row) conversationId
  && match some_text (page_cursor options) with
     | Some cursor => text_before (message_row_created_at row) cursor
     | None => true
     end.

(** No row comes before one with a greater key. *)
Fixpoint descending {Row} (key : Row -> string) (rows : list Row) : Prop :=
  match rows with
  | [] => True
  | row :: rest =>
      Forall (fun later => text_before (key row) (key later) = false) rest
      /\ descending key rest
  end.

(** What a query [SELECT ... WHERE ... ORDER BY key DESC LIMIT n] may
    answer on a table: the first [n] of the selected rows in descending
    order. *)
Definition answers {Row} (selected : Row -> bool) (key : Row -> string) (n : nat)
    (table rows : list Row) : Prop :=
  exists ordered,
    ordered ≡ₚ List.filter selected table
    /\ descending key ordered
    /\ rows = take n ordered.

(** [getMessages]; [rows] is what the query answers, for the limit of the
    options and one row more. *)
Definition getMessages (options : PaginationOptions) (rows : list MessageRow)
  : PaginatedResult StoredMessage :=
  let limit := limit_of options 50 in
  let more := Nat.ltb limit (length rows) in
  let page := List.map rowToMessage (List.rev (take limit rows)) in
  {| items := page;
     hasMore := more;
     nextCursor :=
       match page with
       | firstItem :: _ => if more then Some (message_createdAt firstItem) else None
       | [] => None
       end |}.

(** The [WHERE] clause of the query of [getConversations]. *)
Definition conversation_selected (userId : string) (options : PaginationOptions)
    (row : ConversationRow) : bool :=
  String.eqb (row_user_id row) userId
  && match some_text (page_cursor options) with
     | Some cursor => text_before (row_updated_at row) cursor
     | None => true
     end.

(** [getConversations] *)
Definition getConversations (options : PaginationOptions) (rows : list ConversationRow)
  : PaginatedResult StoredConversation :=
  let limit := limit_of options 20 in
  let more := Nat.ltb limit (length rows) in
  let page := List.map rowToConversation (take limit rows) in
  {| items := page;
     hasMore := more;
     nextCursor :=
       match last page with
       | Some lastItem => if more then Some (stored_updatedAt lastItem) else None
       | None => None
       end |}.

(** ** Time stamps ([conversations.ts]) *)

(** What the getters of a [Date] return: [getUTCFullYear], [getUTCMonth]
    (from 0), [getUTCDate], [getUTCHours], [getUTCMinutes],
    [getUTCSeconds], [getUTCMilliseconds]. *)
Record UTCDate := {
  utc_year : nat;
  utc_month : nat;
  utc_date : nat;
  utc_hours : nat;
  utc_minutes : nat;
  utc_seconds : nat;
  utc_milliseconds : nat
}.

Fixpoint zeros (n : nat) : string :=
  match n with
  | 0 => ""
  | S n' => String "0" (zeros n')
  end.

(** [s.padStart(width, '0')] *)
Definition padStart (width : nat) (s : string) : string :=
  zeros (width - String.length s) +:+ s.

(** [n.toString()] for a natural number. *)
Definition decimal (n : nat) : string := JSON.number (Z.of_nat n).

(** [pad] of [formatSqliteTimestamp] *)
Definition pad (width n : nat) : string := padStart width (decimal n).

(** [formatSqliteTimestamp] *)
Definition formatSqliteTimestamp (date : UTCDate) : string :=
  decimal (utc_year date) +:+ "-" +:+ pad 2 (utc_month date + 1) +:+ "-"
  +:+ pad 2 (utc_date date) +:+ " "
  +:+ pad 2 (utc_hours date) +:+ ":" +:+ pad 2 (utc_minutes date) +:+ ":"
  +:+ pad 2 (utc_seconds date) +:+ "."
  +:+ pad 3 (utc_milliseconds date).

(** The options of the request for the page after one whose [nextCursor]
    is [cursor]. *)
Definition with_cursor (cursor : string) (options : PaginationOptions) : PaginationOptions :=
  {| page_limit := page_limit options; page_cursor := Some cursor |}.

Module SamplePages.

Definition message (n : string) : MessageRow :=
  {| message_row_id := "m" +:+ n; message_row_conversation_id := "c1";
     message_row_role := "assistant"; message_row_content := "text " +:+ n;
     message_row_created_at := "2025-01-01 00:00:0" +:+ n +:+ ".000" |}.

(** The messages of a conversation, the newest first. *)
Definition messages : list MessageRow := [message "3"; message "2"; message "1"].

Definition first_page : PaginationOptions := {| page_limit := Some 2; page_cursor := None |}.

Definition conversation (n : string) : ConversationRow :=
  {| row_id := "c" +:+ n; row_user_id := "u1"; row_claude_session_id := None;
     row_title := None; row_created_at := "2025-01-01 00:00:00";
     row_updated_at := "2025-01-01 00:00:0" +:+ n |}.

Definition conversations : list ConversationRow :=
  [conversation "3"; conversation "2"; conversation "1"].

(** New Year's Eve, a millisecond before midnight, and the midnight that
    follows it. *)
Definition new_years_eve : UTCDate :=
  {| utc_year := 2024; utc_month := 11; utc_date := 31; utc_hours := 23;
     utc_minutes := 59; utc_seconds := 59; utc_milliseconds := 999 |}.

Definition new_year : UTCDate :=
  {| utc_year := 2025; utc_month := 0; utc_date := 1; utc_hours := 0;
     utc_minutes := 0; utc_seconds := 0; utc_milliseconds := 0 |}.

End SamplePages.

(** A date whose year has four digits and whose other fields have as
    many digits as [formatSqliteTimestamp] pads them to. *)
Definition four_digit_year (date : UTCDate) : Prop :=
  1000 <= utc_year date < 10 * 1000 /\ utc_month date + 1 < 100 /\ utc_date date < 100
  /\ utc_hours date < 100 /\ utc_minutes date < 100 /\ utc_seconds date < 100
  /\ utc_milliseconds date < 1000.

(** The comparison of two comparisons, the first one first. *)
Definition then_compare (c1 c2 : comparison) : comparison :=
  match c1 with
  | Eq => c2
  | _ => c1
  end.

(** Which of two dates is the earlier one. *)
Definition date_compare (d1 d2 : UTCDate) : comparison :=
  then_compare (Nat.compare (utc_year d1) (utc_year d2))
    (then_compare (Nat.compare (utc_month d1) (utc_month d2))
       (then_compare (Nat.compare (utc_date d1) (utc_date d2))
          (then_compare (Nat.compare (utc_hours d1) (utc_hours d2))
             (then_compare (Nat.compare (utc_minutes d1) (utc_minutes d2))
                (then_compare (Nat.compare (utc_seconds d1) (utc_seconds d2))
                   (Nat.compare (utc_milliseconds d1) (utc_milliseconds d2))))))).
(** * Properties *)

(** ** Strings *)

Module StrFacts.

Lemma app_cons c s t : String c s +:+ t = String c (s +:+ t).
Proof. reflexivity. Qed.

Lemma app_nil_l s : "" +:+ s = s.
Proof. reflexivity. Qed.

Lemma app_nil_r s : s +:+ "" = s.
Proof. induction s as [|c s IH]; [done|]. by rewrite app_cons, IH. Qed.

Lemma app_assoc s t u : (s +:+ t) +:+ u = s +:+ (t +:+ u).
Proof. induction s as [|c s IH]; [done|]. by rewrite !app_cons, IH. Qed.

Lemma app_eq_nil s t : s +:+ t = "" -> s = "" /\ t = "".
Proof. destruct s; [done|]. by rewrite app_cons. Qed.

(** Two ways of cutting the same string overlap. *)
Lemma app_eq_app a b c d :
  a +:+ b = c +:+ d ->
  exists x, (a = c +:+ x /\ d = x +:+ b) \/ (c = a +:+ x /\ b = x +:+ d).
Proof.
  revert c. induction a as [|h a IH]; intros c Heq.
  - exists c. right. by rewrite !app_nil_l in *.
  - destruct c as [|h' c].
    + exists (String h a). left. by rewrite !app_nil_l in *.
    + rewrite !app_cons in Heq. injection Heq as -> Heq.
      destruct (IH _ Heq) as [x [[-> ->]|[-> ->]]]; exists x; [left|right]; by rewrite ?app_cons.
Qed.

Lemma string_length_app s t : String.length (s +:+ t) = String.length s + String.length t.
Proof. induction s as [|c s IH]; [done|]. rewrite app_cons. simpl. by rewrite IH. Qed.

(** The last character can be cancelled. *)
Lemma app_inj_last s t c : s +:+ String c "" = t +:+ String c "" -> s = t.
Proof.
  revert t. induction s as [|h s IH]; intros [|h' t] Heq; rewrite ?app_cons, ?app_nil_l in Heq.
  - done.
  - injection Heq as -> Heq. symmetry in Heq. apply app_eq_nil in Heq as [_ ?]. done.
  - injection Heq as -> Heq. apply app_eq_nil in Heq as [_ ?]. done.
  - injection Heq as -> Heq. f_equal. by apply IH.
Qed.

Lemma truthy_spec s : Str.truthy s = true <-> s <> "".
Proof.
  unfold Str.truthy. destruct (String.eqb_spec s ""); simpl; split; congruence.
Qed.

Lemma rev_app_app s t u : String.rev_app s t +:+ u = String.rev_app s (t +:+ u).
Proof.
  revert t. induction s as [|c s IH]; intros t; simpl; [done|]. by rewrite IH, app_cons.
Qed.

Lemma rev_app_eq s t : String.rev_app s t = String.rev s +:+ t.
Proof. unfold String.rev. by rewrite rev_app_app, app_nil_l. Qed.

Lemma rev_cons c s : String.rev (String c s) = String.rev s +:+ String c "".
Proof. unfold String.rev at 1. simpl. by rewrite rev_app_eq. Qed.

Lemma rev_app s t : String.rev (s +:+ t) = String.rev t +:+ String.rev s.
Proof.
  induction s as [|c s IH].
  - by rewrite app_nil_l, app_nil_r.
  - by rewrite app_cons, !rev_cons, IH, app_assoc.
Qed.

Lemma rev_involutive s : String.rev (String.rev s) = s.
Proof.
  induction s as [|c s IH]; [done|]. by rewrite rev_cons, rev_app, IH.
Qed.

Lemma rev_eq_nil s : String.rev s = "" -> s = "".
Proof. intros H. by rewrite <- (rev_involutive s), H. Qed.

Lemma whitespace_only_app s t :
  Str.whitespace_only (s +:+ t) = Str.whitespace_only s && Str.whitespace_only t.
Proof.
  induction s as [|c s IH]; [done|]. rewrite app_cons. simpl. rewrite IH.
  by destruct (Str.is_whitespace c).
Qed.

Lemma whitespace_only_rev s : Str.whitespace_only (String.rev s) = Str.whitespace_only s.
Proof.
  induction s as [|c s IH]; [done|].
  rewrite rev_cons, whitespace_only_app, IH. simpl.
  destruct (Str.is_whitespace c), (Str.whitespace_only s); done.
Qed.

Lemma trimStart_nil s : Str.trimStart s = "" <-> Str.whitespace_only s = true.
Proof.
  induction s as [|c s IH]; simpl; [done|].
  destruct (Str.is_whitespace c); simpl; [done|]. split; congruence.
Qed.

Lemma whitespace_only_trimStart s :
  Str.whitespace_only (Str.trimStart s) = Str.whitespace_only s.
Proof.
  induction s as [|c s IH]; simpl; [done|].
  destruct (Str.is_whitespace c) eqn:Hc; simpl; [done|]. by rewrite Hc.
Qed.

(** [s.trim()] is empty exactly when [s] is white space only. *)
Lemma trim_nil s : Str.trim s = "" <-> Str.whitespace_only s = true.
Proof.
  unfold Str.trim, Str.trimEnd. split.
  - intros H%rev_eq_nil. apply trimStart_nil in H.
    by rewrite whitespace_only_rev, whitespace_only_trimStart in H.
  - intros H. assert (Str.trimStart (String.rev (Str.trimStart s)) = "") as ->; [|done].
    apply trimStart_nil. by rewrite whitespace_only_rev, whitespace_only_trimStart.
Qed.

Lemma has_text_spec s : Str.has_text s = true <-> Str.whitespace_only s = false.
Proof.
  unfold Str.has_text. rewrite truthy_spec, trim_nil. by destruct (Str.whitespace_only s).
Qed.

Lemma has_text_false s : Str.has_text s = false <-> Str.whitespace_only s = true.
Proof.
  pose proof (has_text_spec s) as [H1 H2].
  destruct (Str.has_text s), (Str.whitespace_only s); intuition congruence.
Qed.

Lemma split_not_nil sep s : Str.split sep s <> [].
Proof.
  destruct s as [|c s]; simpl; [done|].
  destruct (Ascii.eqb c sep); [done|]. by destruct (Str.split sep s).
Qed.

(** Splitting a concatenation: the complete pieces of the first part stay
    as they are, and its last piece continues into the second part. *)
Lemma split_app sep s t :
  Str.split sep (s +:+ t)
  = removelast (Str.split sep s) ++ Str.split sep (List.last (Str.split sep s) "" +:+ t).
Proof.
  induction s as [|c s IH]; [done|].
  rewrite app_cons. simpl. pose proof (split_not_nil sep s) as Hne.
  destruct (Ascii.eqb c sep) eqn:Hc.
  - rewrite IH. destruct (Str.split sep s) as [|p ps] eqn:Hs; [done|]. done.
  - rewrite IH. destruct (Str.split sep s) as [|p ps] eqn:Hs; [done|].
    destruct ps as [|p' ps]; simpl.
    + by rewrite Hc.
    + done.
Qed.

End StrFacts.

(** ** The composite key is read back from the key string *)

Section Lexical.

Import StrFacts.

Implicit Types (st : lex) (s t : string) (d floor : nat) (v : json).

Lemma scan_app floor st s t :
  scan floor st (s +:+ t) = scan floor st s ≫= fun st' => scan floor st' t.
Proof.
  revert st. induction s as [|c s IH]; intros st; [done|].
  rewrite app_cons. simpl. destruct (lex_step floor st c); [apply IH|done].
Qed.

Lemma scan_app_Some floor st s t st' :
  scan floor st (s +:+ t) = Some st' ->
  exists st1, scan floor st s = Some st1 /\ scan floor st1 t = Some st'.
Proof.
  rewrite scan_app. destruct (scan floor st s) as [st1|]; [|done]. by exists st1.
Qed.

Lemma lex_step_floor_mono floor floor' st c st' :
  floor' <= floor -> lex_step floor st c = Some st' -> lex_step floor' st c = Some st'.
Proof.
  intros Hle. destruct st as [d|d|d]; simpl; [|done..].
  repeat (case_match; try done).
  all: repeat match goal with
              | H : Nat.ltb _ _ = true |- _ => apply Nat.ltb_lt in H
              | H : Nat.ltb _ _ = false |- _ => apply Nat.ltb_ge in H
              end; lia.
Qed.

Lemma scan_floor_mono floor floor' st s st' :
  floor' <= floor -> scan floor st s = Some st' -> scan floor' st s = Some st'.
Proof.
  intros Hle. revert st. induction s as [|c s IH]; intros st; simpl; [done|].
  destruct (lex_step floor st c) as [st1|] eqn:Hstep; [|done].
  rewrite (lex_step_floor_mono _ _ _ _ _ Hle Hstep). apply IH.
Qed.

Lemma lex_step_depth floor st c st' :
  floor <= depth_of st -> lex_step floor st c = Some st' -> floor <= depth_of st'.
Proof.
  destruct st as [d|d|d]; simpl; intros Hd Hstep;
    repeat case_match; simplify_eq; simpl; try lia.
  match goal with H : Nat.ltb _ _ = true |- _ => apply Nat.ltb_lt in H end. lia.
Qed.

Lemma scan_depth floor st s st' :
  floor <= depth_of st -> scan floor st s = Some st' -> floor <= depth_of st'.
Proof.
  revert st. induction s as [|c s IH]; intros st Hd; simpl; [by intros [= <-]|].
  destruct (lex_step floor st c) as [st1|] eqn:Hstep; [|done].
  apply IH. by eapply lex_step_depth.
Qed.

Lemma lex_step_opposite f1 f2 st1 st2 c st1' st2' :
  opposite st1 st2 ->
  lex_step f1 st1 c = Some st1' -> lex_step f2 st2 c = Some st2' ->
  opposite st1' st2'.
Proof.
  destruct st1, st2; simpl; try done; intros _ H1 H2;
    repeat case_match; simplify_eq; done.
Qed.

(** Two scanners that start on the two sides of a quote stay on the two
    sides of a quote. *)
Lemma scan_opposite f1 f2 st1 st2 s st1' st2' :
  opposite st1 st2 ->
  scan f1 st1 s = Some st1' -> scan f2 st2 s = Some st2' ->
  opposite st1' st2'.
Proof.
  revert st1 st2. induction s as [|c s IH]; intros st1 st2 Hop; simpl.
  - by intros [= <-] [= <-].
  - destruct (lex_step f1 st1 c) as [a|] eqn:H1; [|done].
    destruct (lex_step f2 st2 c) as [b|] eqn:H2; [|done].
    apply IH. by eapply lex_step_opposite.
Qed.

End Lexical.

Section Serialised.

Import StrFacts.

Implicit Types (st : lex) (s t : string) (d floor : nat) (v : json).

Lemma scan_escape floor d c :
  scan floor (Inside d) (JSON.escape c) = Some (Inside d).
Proof. by destruct c as [[] [] [] [] [] [] [] []]. Qed.

Lemma scan_escape_all floor d s :
  scan floor (Inside d) (JSON.escape_all s) = Some (Inside d).
Proof.
  induction s as [|c s IH]; [done|]. simpl.
  by rewrite scan_app, scan_escape.
Qed.

Lemma scan_quote floor d s :
  scan floor (Outside d) (JSON.quote s) = Some (Outside d).
Proof.
  unfold JSON.quote. simpl. by rewrite scan_app, scan_escape_all.
Qed.

Lemma scan_uint floor d u :
  scan floor (Outside d) (NilEmpty.string_of_uint u) = Some (Outside d).
Proof. induction u; simpl; done. Qed.

Lemma scan_number floor d n :
  scan floor (Outside d) (JSON.number n) = Some (Outside d).
Proof.
  unfold JSON.number, NilZero.string_of_int, NilZero.string_of_uint.
  destruct (Z.to_int n) as [u|u]; [destruct u|destruct u]; try done;
    simpl; apply (scan_uint floor d).
Qed.

Lemma scans_app s t : scans s -> scans t -> scans (s +:+ t).
Proof. intros Hs Ht d. by rewrite scan_app, Hs; simpl. Qed.

Lemma scans_join pieces : Forall scans pieces -> scans (JSON.join pieces).
Proof.
  induction 1 as [|s pieces Hs _ IH]; [done|].
  destruct pieces as [|s' pieces]; [done|].
  change (JSON.join (s :: s' :: pieces)) with (s +:+ "," +:+ JSON.join (s' :: pieces)).
  apply scans_app; [done|]. apply (scans_app ","); [done|]. done.
Qed.

(** What is between a pair of brackets. *)
Lemma scans_bracketed (o c : ascii) body :
  (o = "{" /\ c = "}" \/ o = "[" /\ c = "]")%char ->
  scans body -> scans (String o "" +:+ body +:+ String c "").
Proof.
  intros Hoc Hbody d.
  assert (scan d (Outside d) (String o "") = Some (Outside (S d))) as Ho.
  { by destruct Hoc as [[-> _]|[-> _]]. }
  assert (scan d (Outside (S d)) (String c "") = Some (Outside d)) as Hc.
  { destruct Hoc as [[_ ->]|[_ ->]]; simpl; by rewrite (proj2 (Nat.ltb_lt d (S d))) by lia. }
  rewrite scan_app, Ho. simpl. rewrite scan_app.
  rewrite (scan_floor_mono (S d) d _ _ _ (Nat.le_succ_diag_r d) (Hbody (S d))). simpl.
  exact Hc.
Qed.

Lemma scans_fields (fields : list (string * json)) :
  Forall (fun kv => scans (JSON.stringify kv.2)) fields ->
  scans (JSON.join (List.map (fun kv => JSON.quote kv.1 +:+ ":" +:+ JSON.stringify kv.2) fields)).
Proof.
  intros H. apply scans_join. apply Forall_forall. intros s Hs.
  apply list_elem_of_In, in_map_iff in Hs as (kv & <- & Hkv).
  apply scans_app; [intros d; apply scan_quote|].
  apply (scans_app ":"); [done|].
  by apply (proj1 (Forall_forall _ _) H), list_elem_of_In.
Qed.

Lemma scans_items (items : list json) :
  Forall (fun v => scans (JSON.stringify v)) items ->
  scans (JSON.join (List.map JSON.stringify items)).
Proof.
  intros H. apply scans_join. apply Forall_forall. intros s Hs.
  apply list_elem_of_In, in_map_iff in Hs as (v & <- & Hv).
  by apply (proj1 (Forall_forall _ _) H), list_elem_of_In.
Qed.

Lemma json_induction (P : json -> Prop) :
  P JNull -> (forall b, P (JBool b)) -> (forall n, P (JNumber n)) ->
  (forall s, P (JString s)) ->
  (forall items, Forall P items -> P (JArray items)) ->
  (forall fields, Forall (fun kv => P kv.2) fields -> P (JObject fields)) ->
  forall v, P v.
Proof.
  intros Hnull Hbool Hnum Hstr Harr Hobj. fix IH 1. intros [ |b|n|s|items|fields].
  - exact Hnull.
  - apply Hbool.
  - apply Hnum.
  - apply Hstr.
  - apply Harr. revert items. fix IHitems 1. intros [|v items].
    + constructor.
    + constructor; [apply IH|apply IHitems].
  - apply Hobj. revert fields. fix IHfields 1. intros [|[k v] fields].
    + constructor.
    + constructor; [apply IH|apply IHfields].
Qed.

Lemma scans_stringify v : scans (JSON.stringify v).
Proof.
  induction v as [ |[]|n|s|items IH|fields IH] using json_induction.
  - by intros d.
  - by intros d.
  - by intros d.
  - intros d. apply scan_number.
  - intros d. apply scan_quote.
  - change (JSON.stringify (JArray items))
      with ("[" +:+ JSON.join (List.map JSON.stringify items) +:+ "]").
    apply (scans_bracketed "[" "]"); [by right|]. by apply scans_items.
  - change (JSON.stringify (JObject fields))
      with ("{" +:+ JSON.join (List.map (fun kv => JSON.quote kv.1 +:+ ":" +:+ JSON.stringify kv.2) fields) +:+ "}").
    apply (scans_bracketed "{" "}"); [by left|]. by apply scans_fields.
Qed.

(** The serialisation of an object is not the end of the serialisation of
    another object. *)
Lemma object_not_suffix fields1 fields2 pre :
  JSON.stringify (JObject fields1) = pre +:+ JSON.stringify (JObject fields2) ->
  pre = "".
Proof.
  set (body fields := JSON.join (List.map (fun kv : string * json => JSON.quote kv.1 +:+ ":" +:+ JSON.stringify kv.2) fields)).
  change (JSON.stringify (JObject fields1)) with ("{" +:+ body fields1 +:+ "}").
  change (JSON.stringify (JObject fields2)) with ("{" +:+ body fields2 +:+ "}").
  assert (forall fields, scans (body fields)) as Hbody.
  { intros fields. apply scans_fields, Forall_forall. intros; apply scans_stringify. }
  destruct pre as [|c pre]; [done|]. intros Heq. exfalso.
  rewrite !app_cons, app_nil_l in Heq. injection Heq as <- Heq.
  assert (body fields1 +:+ "}" = (pre +:+ "{" +:+ body fields2) +:+ "}") as Hlast.
  { rewrite Heq. by rewrite ?app_assoc, ?app_cons, ?app_nil_l. }
  apply app_inj_last in Hlast.
  pose proof (Hbody fields1 1) as H1. rewrite Hlast in H1.
  apply scan_app_Some in H1 as (st & Hpre & Hrest).
  apply scan_depth in Hpre as Hdepth; [|simpl; lia].
  assert (exists st', lex_step 1 st "{" = Some st' /\
            scan 1 st' (body fields2) = Some (Outside 1)) as (st' & Hstep & Hscan).
  { rewrite app_cons, app_nil_l in Hrest. simpl in Hrest.
    destruct (lex_step 1 st "{") as [st'|]; [|done]. by exists st'. }
  destruct st as [k|k|k]; simpl in Hstep, Hdepth; injection Hstep as <-.
  - pose proof (scan_floor_mono (S k) 1 _ _ _ ltac:(lia) (Hbody fields2 (S k))) as H2.
    rewrite Hscan in H2. injection H2 as H2. lia.
  - exact (scan_opposite 1 0 (Inside k) (Outside 0) _ _ _ I Hscan (Hbody fields2 0)).
  - exact (scan_opposite 1 0 (Inside k) (Outside 0) _ _ _ I Hscan (Hbody fields2 0)).
Qed.

(** The key string determines the name of the tool and the serialised
    input. *)
Lemma denial_key_inj (a b : PermissionDenial) :
  denial_key a = denial_key b <-> composite_key a = composite_key b.
Proof.
  unfold denial_key, composite_key.
  generalize (tool_input a) (tool_input b) (tool_name a) (tool_name b).
  intros f1 f2 n1 n2.
  remember (JSON.stringify (JObject f1)) as s1 eqn:Hs1.
  remember (JSON.stringify (JObject f2)) as s2 eqn:Hs2.
  split; [|by intros [= -> ->]].
  assert (forall fa fb x c sa sb,
            sa = JSON.stringify (JObject fa) -> sb = JSON.stringify (JObject fb) ->
            ":" +:+ sa = String c x +:+ ":" +:+ sb -> False) as Hsuffix.
  { intros fa fb x c sa sb Ha Hb Hs.
    rewrite ?app_cons, ?app_nil_l in Hs. injection Hs as <- Hs.
    change (String ":" sb) with (":" +:+ sb) in Hs. rewrite <- app_assoc in Hs.
    subst sa sb. apply object_not_suffix in Hs. apply app_eq_nil in Hs as [_ ?]. done. }
  intros Heq. apply app_eq_app in Heq as [[|c x] [[Hn Hs]|[Hn Hs]]].
  - rewrite app_nil_r in Hn. rewrite ?app_cons, ?app_nil_l in Hs. congruence.
  - rewrite app_nil_r in Hn. rewrite ?app_cons, ?app_nil_l in Hs. congruence.
  - destruct (Hsuffix _ _ _ _ _ _ Hs2 Hs1 Hs).
  - destruct (Hsuffix _ _ _ _ _ _ Hs1 Hs2 Hs).
Qed.

End Serialised.

(** ** Deduplication of permission denials *)

Section Dedup.

Implicit Types (seen : gset string) (denials kept : list PermissionDenial)
  (d : PermissionDenial).

Lemma filter_unseen_sublist seen denials :
  sublist (filter_unseen seen denials) denials.
Proof.
  revert seen. induction denials as [|d denials IH]; intros seen; simpl; [done|].
  case_decide; [by apply sublist_cons | by apply sublist_skip].
Qed.

Lemma filter_unseen_fresh seen denials d :
  d ∈ filter_unseen seen denials -> denial_key d ∉ seen.
Proof.
  revert seen. induction denials as [|d' denials IH]; intros seen; simpl.
  - by intros ?%elem_of_nil.
  - case_decide as Hin; [by apply IH|].
    intros [->|Hd]%elem_of_cons; [done|]. apply IH in Hd. set_solver.
Qed.

Lemma filter_unseen_NoDup seen denials :
  NoDup (denial_key <$> filter_unseen seen denials).
Proof.
  revert seen. induction denials as [|d denials IH]; intros seen; simpl.
  - constructor.
  - case_decide as Hin; [by apply IH|].
    rewrite fmap_cons. constructor; [|by apply IH].
    intros (d' & Heq & Hd')%list_elem_of_fmap. apply filter_unseen_fresh in Hd'. set_solver.
Qed.

Lemma filter_unseen_keeps_first seen denials i d :
  first_with_key denial_key denials i d -> denial_key d ∉ seen ->
  d ∈ filter_unseen seen denials.
Proof.
  revert seen i. induction denials as [|d0 denials IH]; intros seen i [Hi Hfirst] Hseen.
  - done.
  - simpl. destruct i as [|i]; simpl in Hi.
    + injection Hi as ->. rewrite decide_False by done. by left.
    + assert (denial_key d0 <> denial_key d) as Hne.
      { apply (Hfirst 0); [lia|done]. }
      assert (first_with_key denial_key denials i d) as Hrest.
      { split; [done|]. intros j d' ??. apply (Hfirst (S j)); [lia|done]. }
      case_decide.
      * by apply (IH _ i).
      * right. apply (IH _ i); [done|]. set_solver.
Qed.

Lemma filter_unseen_kept_first seen denials d :
  d ∈ filter_unseen seen denials ->
  exists i, first_with_key denial_key denials i d.
Proof.
  revert seen. induction denials as [|d0 denials IH]; intros seen; simpl.
  - by intros ?%elem_of_nil.
  - intros Hd.
    assert (d = d0 \/ (denial_key d0 <> denial_key d /\ exists i, first_with_key denial_key denials i d))
      as [->|[Hne [i [Hi Hfirst]]]].
    { case_decide as Hin.
      - right. split; [|by eapply IH]. apply filter_unseen_fresh in Hd. congruence.
      - apply elem_of_cons in Hd as [->|Hd]; [by left|]. right.
        split; [|by eapply IH]. apply filter_unseen_fresh in Hd. set_solver. }
    + exists 0. split; [done|]. intros; lia.
    + exists (S i). split; [done|]. intros [|j] d' Hj Hd'; simpl in Hd'.
      * by injection Hd' as <-.
      * apply (Hfirst j); [lia|done].
Qed.

Lemma increasing_nil : increasing [].
Proof. by intros a b i j Ha. Qed.

Lemma increasing_S positions :
  increasing positions -> increasing (S <$> positions).
Proof.
  intros Hup a b i j Ha Hb Hab. rewrite list_lookup_fmap in Ha, Hb.
  destruct (positions !! a) as [i'|] eqn:Hi; [|done].
  destruct (positions !! b) as [j'|] eqn:Hj; [|done].
  simpl in Ha, Hb. simplify_eq. pose proof (Hup a b i' j' Hi Hj Hab). lia.
Qed.

Lemma increasing_cons_0 positions :
  increasing positions -> increasing (0 :: (S <$> positions)).
Proof.
  intros Hup [|a] [|b] i j Ha Hb Hab; try lia; simpl in Ha, Hb.
  - simplify_eq. rewrite list_lookup_fmap in Hb.
    destruct (positions !! b); simpl in Hb; simplify_eq. lia.
  - apply (increasing_S positions Hup a b i j Ha Hb). lia.
Qed.

Lemma first_with_key_0 {K} (key : PermissionDenial -> K) d0 denials d :
  first_with_key key (d0 :: denials) 0 d <-> d = d0.
Proof.
  split.
  - by intros [[= ->] _].
  - intros ->. split; [done|]. intros; lia.
Qed.

Lemma first_with_key_S {K} (key : PermissionDenial -> K) d0 denials i d :
  first_with_key key (d0 :: denials) (S i) d
  <-> key d0 <> key d /\ first_with_key key denials i d.
Proof.
  split.
  - intros [Hi Hfirst]. split.
    + apply (Hfirst 0); [lia|done].
    + split; [done|]. intros j d' Hj Hd'. apply (Hfirst (S j)); [lia|done].
  - intros [Hne [Hi Hfirst]]. split; [done|]. intros [|j] d' Hj Hd'; simpl in Hd'.
    + by injection Hd' as <-.
    + apply (Hfirst j); [lia|done].
Qed.

(** The items [filter_unseen] keeps are those at the positions of the
    first occurrences whose key has not been seen, in increasing order. *)
Lemma filter_unseen_positions seen denials :
  exists positions,
    increasing positions
    /\ (forall i, i ∈ positions
                  <-> exists d, first_with_key denial_key denials i d /\ denial_key d ∉ seen)
    /\ Forall2 (fun i d => denials !! i = Some d) positions (filter_unseen seen denials).
Proof.
  revert seen. induction denials as [|d0 denials IH]; intros seen.
  - exists []. split; [apply increasing_nil|]. split; [|constructor].
    intros i. split; [by intros ?%elem_of_nil|]. by intros (d & [Hi _] & _).
  - simpl. case_decide as Hseen.
    + destruct (IH seen) as (positions & Hup & Hin & Hitems).
      exists (S <$> positions). split; [by apply increasing_S|]. split.
      * intros i. rewrite list_elem_of_fmap. split.
        -- intros (i' & -> & Hi'). apply Hin in Hi' as (d & Hfirst & Hd).
           exists d. split; [|done]. apply first_with_key_S. split; [congruence|done].
        -- intros (d & Hfirst & Hd). destruct i as [|i].
           ++ apply first_with_key_0 in Hfirst as ->. done.
           ++ apply first_with_key_S in Hfirst as [_ Hfirst].
              exists i. split; [done|]. apply Hin. by exists d.
      * apply Forall2_fmap_l. by eapply Forall2_impl.
    + destruct (IH ({[denial_key d0]} ∪ seen)) as (positions & Hup & Hin & Hitems).
      exists (0 :: (S <$> positions)). split; [by apply increasing_cons_0|]. split.
      * intros i. rewrite elem_of_cons, list_elem_of_fmap. split.
        -- intros [->|(i' & -> & Hi')].
           ++ exists d0. split; [by apply first_with_key_0|done].
           ++ apply Hin in Hi' as (d & Hfirst & Hd). exists d.
              apply not_elem_of_union in Hd as [Hd0%not_elem_of_singleton Hd].
              split; [|done]. apply first_with_key_S. split; [congruence|done].
        -- intros (d & Hfirst & Hd). destruct i as [|i]; [by left|right].
           apply first_with_key_S in Hfirst as [Hne Hfirst].
           exists i. split; [done|]. apply Hin. exists d. split; [done|].
           apply not_elem_of_union. split; [|done]. apply not_elem_of_singleton. congruence.
      * constructor; [done|]. apply Forall2_fmap_l. by eapply Forall2_impl.
Qed.

Lemma increasing_inv (i : nat) positions :
  increasing (i :: positions) ->
  increasing positions /\ forall j, j ∈ positions -> i < j.
Proof.
  intros Hup. split.
  - intros a b j k Ha Hb Hab. apply (Hup (S a) (S b)); [done..|lia].
  - intros j [b Hb]%list_elem_of_lookup. apply (Hup 0 (S b)); [done..|lia].
Qed.

(** Two increasing lists of the same positions are the same list. *)
Lemma increasing_ext (positions1 positions2 : list nat) :
  increasing positions1 -> increasing positions2 ->
  (forall i, i ∈ positions1 <-> i ∈ positions2) ->
  positions1 = positions2.
Proof.
  revert positions2. induction positions1 as [|i positions1 IH]; intros [|j positions2].
  - done.
  - intros _ _ Hsame. pose proof (proj2 (Hsame j) ltac:(by left)) as H.
    by apply elem_of_nil in H.
  - intros _ _ Hsame. pose proof (proj1 (Hsame i) ltac:(by left)) as H.
    by apply elem_of_nil in H.
  - intros [Hup1 Hlt1]%increasing_inv [Hup2 Hlt2]%increasing_inv Hsame.
    assert (i = j) as ->.
    { pose proof (proj1 (Hsame i) ltac:(by left)) as [->|Hi]%elem_of_cons; [done|].
      pose proof (proj2 (Hsame j) ltac:(by left)) as [->|Hj]%elem_of_cons; [done|].
      apply Hlt2 in Hi. apply Hlt1 in Hj. lia. }
    f_equal. apply IH; [done..|]. intros k. split; intros Hk.
    + pose proof (proj1 (Hsame k) ltac:(by right)) as [->|]%elem_of_cons; [|done].
      apply Hlt1 in Hk. lia.
    + pose proof (proj2 (Hsame k) ltac:(by right)) as [->|]%elem_of_cons; [|done].
      apply Hlt2 in Hk. lia.
Qed.

(** There is one list of first occurrences. *)
Lemma first_occurrences_unique {K} (key : PermissionDenial -> K) denials kept1 kept2 :
  first_occurrences key denials kept1 -> first_occurrences key denials kept2 ->
  kept1 = kept2.
Proof.
  intros (positions1 & Hup1 & Hin1 & Hitems1) (positions2 & Hup2 & Hin2 & Hitems2).
  assert (positions1 = positions2) as <-.
  { apply increasing_ext; [done..|]. intros i. by rewrite Hin1, Hin2. }
  clear Hup1 Hup2 Hin1 Hin2. revert kept2 Hitems2.
  induction Hitems1 as [|i d positions kept1 Hd Hitems1 IH]; intros kept2 Hitems2.
  - by apply Forall2_nil_inv_l in Hitems2.
  - apply Forall2_cons_inv_l in Hitems2 as (d' & kept2' & Hd' & Hitems2 & ->).
    f_equal; [congruence|by apply IH].
Qed.

End Dedup.

(** ** The handler of the events *)

Section HandlerFacts.

Import StrFacts.

Implicit Types (session : StreamSession) (msg : StreamMessage) (c : callback).

Lemma exec_bind {A B} (m : Handler A) (k : A -> Handler B) session :
  exec (bind m k) session =
  let '(a, session1, calls1) := m session in
  let '(session2, calls2) := exec (k a) session1 in
  (session2, calls1 ++ calls2).
Proof.
  unfold exec, bind. destruct (m session) as [[a session1] calls1].
  by destruct (k a session1) as [[b session2] calls2].
Qed.

Lemma session_after_for_each_cons {A} (body : A -> Handler unit) x xs session :
  session_after (for_each body (x :: xs)) session
  = session_after (for_each body xs) (session_after (body x) session).
Proof.
  unfold session_after, exec. simpl. unfold bind.
  destruct (body x session) as [[[] s1] c1]. simpl.
  by destruct (for_each body xs s1) as [[[] s2] c2].
Qed.

Lemma calls_made_for_each_cons {A} (body : A -> Handler unit) x xs session :
  calls_made (for_each body (x :: xs)) session
  = calls_made (body x) session
    ++ calls_made (for_each body xs) (session_after (body x) session).
Proof.
  unfold calls_made, session_after, exec. simpl. unfold bind.
  destruct (body x session) as [[[] s1] c1]. simpl.
  by destruct (for_each body xs s1) as [[[] s2] c2].
Qed.

Lemma session_after_for_each_app {A} (body : A -> Handler unit) xs ys session :
  session_after (for_each body (xs ++ ys)) session
  = session_after (for_each body ys) (session_after (for_each body xs) session).
Proof.
  revert session. induction xs as [|x xs IH]; intros session; [done|].
  rewrite <- app_comm_cons. by rewrite !session_after_for_each_cons, IH.
Qed.

Lemma calls_made_for_each_app {A} (body : A -> Handler unit) xs ys session :
  calls_made (for_each body (xs ++ ys)) session
  = calls_made (for_each body xs) session
    ++ calls_made (for_each body ys) (session_after (for_each body xs) session).
Proof.
  revert session. induction xs as [|x xs IH]; intros session; [done|].
  rewrite <- app_comm_cons.
  rewrite !calls_made_for_each_cons, !session_after_for_each_cons, IH.
  by rewrite (assoc (++)).
Qed.

(** Unfolding a handler on a session. *)
Ltac run_handler :=
  unfold calls_made, session_after, exec, handleStreamMessage, handle_block,
    end_pending_tool, bind, get, modify, call, skip, ret;
  repeat (simpl; case_match; simplify_eq; simpl; try done).

(** *** What each statement does *)

Lemma calls_made_end_pending_tool session :
  calls_made end_pending_tool session = pending_tool_end session.
Proof. unfold pending_tool_end. run_handler. Qed.

Lemma session_after_end_pending_tool session :
  session_after end_pending_tool session = without_pending_tool session.
Proof. unfold without_pending_tool. run_handler. Qed.

Lemma calls_made_handle_block block session :
  calls_made (handle_block block) session =
  match text_of block, tool_of block with
  | Some text, _ => pending_tool_end session ++ [onChunk text]
  | None, Some name =>
      (if Str.has_text (currentSegment session)
       then [onSegmentEnd (currentSegment session)] else [])
      ++ [onToolStart name]
  | None, None => []
  end.
Proof. unfold pending_tool_end. run_handler. Qed.

Lemma session_after_handle_block block session :
  session_after (handle_block block) session =
  match text_of block, tool_of block with
  | Some text, _ =>
      set_currentSegment (currentSegment session +:+ text) (without_pending_tool session)
  | None, Some name =>
      set_lastToolName (Some name)
        (if Str.has_text (currentSegment session)
         then set_currentSegment "" session else session)
  | None, None => session
  end.
Proof. unfold without_pending_tool. run_handler. Qed.

Lemma calls_made_result msg session :
  is_result msg = true ->
  calls_made (handleStreamMessage msg) session =
  pending_tool_end session
  ++ [if bool_decide (is_error msg = Some true)
      then onError (or_else (result msg) "Unknown error")
      else onComplete (or_else (result msg) "") (sessionId session) (reported_denials msg)].
Proof.
  unfold is_result, pending_tool_end. intros Hres%String.eqb_eq.
  unfold handleStreamMessage. rewrite Hres. run_handler.
Qed.

Lemma session_after_result msg session :
  is_result msg = true ->
  session_after (handleStreamMessage msg) session = without_pending_tool session.
Proof.
  unfold is_result, without_pending_tool. intros Hres%String.eqb_eq.
  unfold handleStreamMessage. rewrite Hres. run_handler.
Qed.


Lemma calls_made_system msg session :
  String.eqb (msg_type msg) "system" = true ->
  calls_made (handleStreamMessage msg) session = [].
Proof. intros H. unfold handleStreamMessage. rewrite H. run_handler. Qed.

Lemma session_after_system msg session :
  String.eqb (msg_type msg) "system" = true ->
  session_after (handleStreamMessage msg) session =
  match init_session_id msg with
  | Some sid => set_sessionId (Some sid) session
  | None => session
  end.
Proof. intros H. unfold handleStreamMessage. rewrite H. run_handler. Qed.

Lemma handle_assistant msg :
  String.eqb (msg_type msg) "assistant" = true ->
  handleStreamMessage msg = for_each handle_block (content_blocks msg).
Proof.
  intros H. unfold handleStreamMessage. rewrite H.
  apply String.eqb_eq in H. by rewrite H.
Qed.

Lemma calls_made_user msg session :
  String.eqb (msg_type msg) "user" = true ->
  calls_made (handleStreamMessage msg) session =
  match command_stdout msg with
  | Some inner => [onChunk (Str.trim inner)]
  | None => []
  end.
Proof.
  intros H. unfold handleStreamMessage. apply String.eqb_eq in H. rewrite H. run_handler.
Qed.

Lemma session_after_user msg session :
  String.eqb (msg_type msg) "user" = true ->
  session_after (handleStreamMessage msg) session =
  match command_stdout msg with
  | Some inner => set_currentSegment (currentSegment session +:+ Str.trim inner) session
  | None => session
  end.
Proof.
  intros H. unfold handleStreamMessage. apply String.eqb_eq in H. rewrite H. run_handler.
Qed.

Lemma handle_other msg session :
  String.eqb (msg_type msg) "system" = false ->
  String.eqb (msg_type msg) "assistant" = false ->
  String.eqb (msg_type msg) "result" = false ->
  String.eqb (msg_type msg) "user" = false ->
  exec (handleStreamMessage msg) session = (session, []).
Proof. intros H1 H2 H3 H4. unfold handleStreamMessage. by rewrite H1, H2, H3, H4. Qed.

(** The five kinds of event. *)
Lemma event_cases msg :
  String.eqb (msg_type msg) "system" = true
  \/ String.eqb (msg_type msg) "assistant" = true
  \/ is_result msg = true
  \/ String.eqb (msg_type msg) "user" = true
  \/ (String.eqb (msg_type msg) "system" = false
      /\ forall session, exec (handleStreamMessage msg) session = (session, [])).
Proof.
  unfold is_result.
  destruct (String.eqb (msg_type msg) "system") eqn:H1; [by left|].
  destruct (String.eqb (msg_type msg) "assistant") eqn:H2; [by right; left|].
  destruct (String.eqb (msg_type msg) "result") eqn:H3; [by right; right; left|].
  destruct (String.eqb (msg_type msg) "user") eqn:H4; [by right; right; right; left|].
  right; right; right; right. split; [done|]. intros session. by apply handle_other.
Qed.

(** *** Terminal calls *)

Lemma handle_block_not_terminal block session :
  List.filter is_terminal_call (calls_made (handle_block block) session) = [].
Proof.
  rewrite calls_made_handle_block. unfold pending_tool_end.
  repeat (case_match; simpl; try done).
Qed.

Lemma blocks_not_terminal blocks session :
  List.filter is_terminal_call (calls_made (for_each handle_block blocks) session) = [].
Proof.
  revert session. induction blocks as [|block blocks IH]; intros session; [done|].
  by rewrite calls_made_for_each_cons, List.filter_app, handle_block_not_terminal, IH.
Qed.

(** A result event makes one terminal call, any other event none. *)
Lemma terminal_calls_of_event msg session :
  length (List.filter is_terminal_call (calls_made (handleStreamMessage msg) session))
  = if is_result msg then 1 else 0.
Proof.
  destruct (is_result msg) eqn:Hres.
  - rewrite calls_made_result by done. rewrite List.filter_app, length_app.
    unfold pending_tool_end. repeat (case_match; simpl; try done).
  - destruct (event_cases msg) as [H|[H|[H|[H|[_ H]]]]].
    + by rewrite calls_made_system.
    + by rewrite handle_assistant, blocks_not_terminal.
    + congruence.
    + rewrite calls_made_user by done. by case_match.
    + unfold calls_made. by rewrite H.
Qed.

Lemma terminal_calls_of_events msgs session :
  length (List.filter is_terminal_call (calls_made (handle_all msgs) session))
  = length (List.filter is_result msgs).
Proof.
  unfold handle_all. revert session.
  induction msgs as [|msg msgs IH]; intros session; [done|].
  rewrite calls_made_for_each_cons, List.filter_app, length_app, terminal_calls_of_event, IH.
  simpl. by destruct (is_result msg).
Qed.

(** *** The session id *)





End HandlerFacts.

(** ** The callbacks of the route *)

Section CallbackFacts.

Import StrFacts.

Implicit Types (conv : Conversation) (state : StreamingState) (c : callback)
  (calls : list callback).

Lemma events_of_cons conv c calls state :
  events_of conv (c :: calls) state
  = (createStreamingCallbacks conv c state).2
    ++ events_of conv calls (createStreamingCallbacks conv c state).1.
Proof.
  unfold events_of. simpl. destruct (createStreamingCallbacks conv c state) as [s1 e1].
  simpl. by destruct (run_callbacks conv calls s1).
Qed.

Lemma state_after_cons conv c calls state :
  state_after conv (c :: calls) state
  = state_after conv calls (createStreamingCallbacks conv c state).1.
Proof.
  unfold state_after. simpl. destruct (createStreamingCallbacks conv c state) as [s1 e1].
  simpl. by destruct (run_callbacks conv calls s1).
Qed.

Lemma state_after_app conv calls1 calls2 state :
  state_after conv (calls1 ++ calls2) state
  = state_after conv calls2 (state_after conv calls1 state).
Proof.
  revert state. induction calls1 as [|c calls1 IH]; intros state; [done|].
  rewrite <- app_comm_cons. by rewrite !state_after_cons, IH.
Qed.

Lemma events_of_app conv calls1 calls2 state :
  events_of conv (calls1 ++ calls2) state
  = events_of conv calls1 state ++ events_of conv calls2 (state_after conv calls1 state).
Proof.
  revert state. induction calls1 as [|c calls1 IH]; intros state; [done|].
  rewrite <- app_comm_cons. rewrite !events_of_cons, state_after_cons, IH.
  by rewrite (assoc (++)).
Qed.

(** A terminal call writes one terminal event, any other call none. *)
Lemma terminal_events_of_call conv c state :
  length (List.filter is_terminal_event (createStreamingCallbacks conv c state).2)
  = if is_terminal_call c then 1 else 0.
Proof.
  destruct c; simpl; try done.
  - by case_match.
  - repeat (case_match; simpl; try done).
Qed.

Lemma terminal_events_of_calls conv calls state :
  length (List.filter is_terminal_event (events_of conv calls state))
  = length (List.filter is_terminal_call calls).
Proof.
  revert state. induction calls as [|c calls IH]; intros state; [done|].
  rewrite events_of_cons, List.filter_app, length_app, terminal_events_of_call, IH.
  simpl. by destruct (is_terminal_call c).
Qed.

(** The finalized segments of the state all have text. *)
Lemma segments_have_text_call conv c state :
  Forall (fun s => Str.has_text s = true) (segments state) ->
  Forall (fun s => Str.has_text s = true) (segments (createStreamingCallbacks conv c state).1).
Proof.
  intros H. destruct c as [| text | | | |]; simpl; try done.
  destruct (Str.has_text text) eqn:Hc; simpl; [|done].
  apply Forall_app. split; [done|]. by constructor.
Qed.

Lemma segments_have_text conv calls state :
  Forall (fun s => Str.has_text s = true) (segments state) ->
  Forall (fun s => Str.has_text s = true) (segments (state_after conv calls state)).
Proof.
  revert state. induction calls as [|c calls IH]; intros state H; [done|].
  rewrite state_after_cons. by apply IH, segments_have_text_call.
Qed.

End CallbackFacts.

(** ** The line decoder *)

Section DecoderFacts.

Import StrFacts.

Context {decoder_state : Type}.
Context (decode_byte : decoder_state -> byte -> decoder_state * string).
Context (decoder_init : decoder_state).
Context (JSON_parse : string -> option StreamMessage).

Implicit Types (st : decoder_state) (value : list byte) (chunks : list (list byte))
  (buffer : string) (lines : list string).

(** Decoding is a homomorphism: the state of the decoder carries what a
    chunk boundary cuts. *)
Lemma decode_app value1 value2 st :
  decode decode_byte st (value1 ++ value2) =
  let '(st1, text1) := decode decode_byte st value1 in
  let '(st2, text2) := decode decode_byte st1 value2 in
  (st2, text1 +:+ text2).
Proof.
  revert st. induction value1 as [|b value1 IH]; intros st.
  - simpl. by destruct (decode decode_byte st value2).
  - rewrite <- app_comm_cons. simpl. destruct (decode_byte st b) as [st1 text1].
    rewrite IH. destruct (decode decode_byte st1 value1) as [st2 text2].
    destruct (decode decode_byte st2 value2) as [st3 text3].
    by rewrite app_assoc.
Qed.

(** The last piece of a split has no separator in it. *)
Lemma split_last sep s :
  Str.split sep (List.last (Str.split sep s) "") = [List.last (Str.split sep s) ""].
Proof.
  induction s as [|c s IH]; [done|].
  simpl. pose proof (split_not_nil sep s) as Hne.
  destruct (Ascii.eqb c sep) eqn:Hc.
  - destruct (Str.split sep s) as [|p ps]; [done|]. exact IH.
  - destruct (Str.split sep s) as [|p ps]; [done|].
    destruct ps as [|p' ps].
    + simpl in *. by rewrite Hc, IH.
    + exact IH.
Qed.

Lemma read_chunk_unbroken value st buffer :
  unbroken (read_chunk decode_byte value st buffer).1.2.
Proof.
  unfold read_chunk. destruct (decode decode_byte st value) as [st' text].
  simpl. apply split_last.
Qed.

Lemma read_chunk_nil st buffer :
  unbroken buffer -> read_chunk decode_byte [] st buffer = (st, buffer, []).
Proof.
  unfold unbroken, read_chunk. simpl. rewrite app_nil_r. by intros ->.
Qed.

Lemma removelast_app_cons {A} (xs : list A) y ys :
  removelast (xs ++ y :: ys) = xs ++ removelast (y :: ys).
Proof. by rewrite removelast_app. Qed.

Lemma List_last_app_cons {A} (xs : list A) y ys d :
  List.last (xs ++ y :: ys) d = List.last (y :: ys) d.
Proof.
  induction xs as [|x xs IH]; [done|].
  rewrite <- app_comm_cons. simpl. rewrite IH. by destruct (xs ++ y :: ys) eqn:E; [destruct xs|].
Qed.

(** Reading two chunks one after the other is reading them as one. *)
Lemma read_chunk_app value1 value2 st buffer :
  read_chunk decode_byte (value1 ++ value2) st buffer =
  let '(st1, buffer1, lines1) := read_chunk decode_byte value1 st buffer in
  let '(st2, buffer2, lines2) := read_chunk decode_byte value2 st1 buffer1 in
  (st2, buffer2, lines1 ++ lines2).
Proof.
  unfold read_chunk. rewrite decode_app.
  destruct (decode decode_byte st value1) as [st1 text1]. simpl.
  destruct (decode decode_byte st1 value2) as [st2 text2].
  unfold Str.pop. rewrite <- app_assoc, split_app.
  pose proof (split_not_nil Str.nl (List.last (Str.split Str.nl (buffer +:+ text1)) "" +:+ text2)) as Hne.
  destruct (Str.split Str.nl (List.last (Str.split Str.nl (buffer +:+ text1)) "" +:+ text2))
    as [|p ps]; [done|].
  by rewrite removelast_app_cons, List_last_app_cons.
Qed.

(** Whatever the chunks are, the loop cuts the lines of their
    concatenation. *)
Lemma feed_concat chunks st buffer :
  unbroken buffer ->
  feed decode_byte chunks st buffer = read_chunk decode_byte (concat chunks) st buffer.
Proof.
  revert st buffer. induction chunks as [|value chunks IH]; intros st buffer Hbuf.
  - simpl. by rewrite read_chunk_nil.
  - simpl. rewrite read_chunk_app.
    pose proof (read_chunk_unbroken value st buffer) as Hbuf1.
    destruct (read_chunk decode_byte value st buffer) as [[st1 buffer1] lines1].
    by rewrite IH.
Qed.


Lemma omap_cons {A B} (f : A -> option B) x xs :
  omap f (x :: xs) = match f x with Some y => y :: omap f xs | None => omap f xs end.
Proof. done. Qed.

(** The loop over the lines handles the objects the lines parse to. *)
Lemma session_after_lines lines session :
  session_after (for_each (handle_line JSON_parse) lines) session
  = session_after (handle_all (omap (parse_line JSON_parse) lines)) session.
Proof.
  revert session. induction lines as [|line lines IH]; intros session; [done|].
  rewrite omap_cons, session_after_for_each_cons. unfold handle_line at 2.
  destruct (parse_line JSON_parse line) as [msg|].
  - unfold handle_all. by rewrite session_after_for_each_cons, IH.
  - by rewrite <- IH.
Qed.

Lemma calls_made_lines lines session :
  calls_made (for_each (handle_line JSON_parse) lines) session
  = calls_made (handle_all (omap (parse_line JSON_parse) lines)) session.
Proof.
  revert session. induction lines as [|line lines IH]; intros session; [done|].
  rewrite omap_cons, calls_made_for_each_cons. unfold handle_line at 1 3.
  destruct (parse_line JSON_parse line) as [msg|].
  - unfold handle_all. by rewrite calls_made_for_each_cons, IH.
  - by rewrite <- IH.
Qed.

Lemma exec_eq {A} (m : Handler A) session :
  exec m session = (session_after m session, calls_made m session).
Proof. unfold session_after, calls_made. by destruct (exec m session). Qed.

Lemma exec_lines lines session :
  exec (for_each (handle_line JSON_parse) lines) session
  = exec (handle_all (omap (parse_line JSON_parse) lines)) session.
Proof. by rewrite !exec_eq, session_after_lines, calls_made_lines. Qed.

(** A line that does not parse leaves no trace. *)
Lemma exec_lines_unparsed before bad after session :
  parse_line JSON_parse bad = None ->
  exec (for_each (handle_line JSON_parse) (before ++ bad :: after)) session
  = exec (for_each (handle_line JSON_parse) (before ++ after)) session.
Proof.
  intros Hbad. rewrite !exec_lines. f_equal. f_equal.
  rewrite !omap_app, omap_cons. by rewrite Hbad.
Qed.

(** The loop of [runClaude] folds over the lines the chunks are cut into. *)
Lemma runClaude_loop_feed chunks st buffer acc :
  runClaude_loop decode_byte JSON_parse chunks st buffer acc
  = fold_left (fun a line => runClaude_line JSON_parse line a)
      (feed decode_byte chunks st buffer).2 acc.
Proof.
  revert st buffer acc. induction chunks as [|value chunks IH]; intros st buffer acc; [done|].
  simpl. destruct (read_chunk decode_byte value st buffer) as [[st1 buffer1] lines1].
  rewrite IH. destruct (feed decode_byte chunks st1 buffer1) as [[st2 buffer2] lines2].
  simpl. by rewrite fold_left_app.
Qed.

End DecoderFacts.

(** ** The read loop of a turn *)

Section LoopFacts.

Context {decoder_state : Type}.
Context (decode_byte : decoder_state -> byte -> decoder_state * string).
Context (decoder_init : decoder_state).
Context (JSON_parse : string -> option StreamMessage).

Local Abbreviation loop := (read_loop decode_byte JSON_parse).
Local Abbreviation cut_lines := (feed decode_byte).
Local Abbreviation parsed := (omap (parse_line JSON_parse)).

Implicit Types (env : turn_env) (r : reading (decoder_state := decoder_state))
  (chunks : list (bool * list byte)).

Lemma calls_of_app effects1 effects2 :
  calls_of (effects1 ++ effects2) = calls_of effects1 ++ calls_of effects2.
Proof. apply omap_app. Qed.

Lemma calls_of_Invoke calls : calls_of (List.map Invoke calls) = calls.
Proof. induction calls as [|c calls IH]; [done|]. simpl. by rewrite IH. Qed.

Lemma await_read_timedOut env proc elapsed timedOut :
  (await_read env proc elapsed timedOut).1 = timedOut || elapsed.
Proof. unfold await_read. by destruct elapsed, timedOut. Qed.

Lemma await_read_calls env proc elapsed timedOut :
  calls_of (await_read env proc elapsed timedOut).2 = timeout_call (elapsed && negb timedOut).
Proof. unfold await_read. by destruct elapsed, timedOut. Qed.

Lemma await_read_no_release env proc elapsed timedOut p c :
  List.filter (is_release p c) (await_read env proc elapsed timedOut).2 = [].
Proof. unfold await_read. by destruct elapsed, timedOut. Qed.

Lemma Invoke_no_release calls p c :
  List.filter (is_release p c) (List.map Invoke calls) = [].
Proof. by induction calls. Qed.

(** One iteration of the loop, unfolded. *)
Lemma read_loop_cons env elapsed value chunks r :
  loop env ((elapsed, value) :: chunks) r =
  let fired := await_read env (process (session r)) elapsed (timedOut r) in
  let chunk := read_chunk decode_byte value (decoder r) (buffer r) in
  let handled := exec (for_each (handle_line JSON_parse) chunk.2) (session r) in
  let rest :=
    loop env chunks
      {| decoder := chunk.1.1; buffer := chunk.1.2; session := handled.1;
         timedOut := fired.1 |} in
  (rest.1, fired.2 ++ List.map Invoke handled.2 ++ rest.2).
Proof.
  simpl. destruct (await_read _ _ _ _) as [t f].
  destruct (read_chunk _ _ _ _) as [[st b] lines].
  destruct (exec _ _) as [s calls]. simpl.
  by destruct (loop _ _ _) as [r' effects].
Qed.

Lemma feed_cons value (chunks : list (list byte)) st buffer :
  cut_lines (value :: chunks) st buffer =
  let chunk := read_chunk decode_byte value st buffer in
  let rest := cut_lines chunks chunk.1.1 chunk.1.2 in
  (rest.1, chunk.2 ++ rest.2).
Proof.
  simpl. destruct (read_chunk _ _ _ _) as [[st1 b1] l1]. simpl.
  by destruct (cut_lines _ _ _) as [[st2 b2] l2].
Qed.

(** The loop never releases anything. *)
Lemma read_loop_no_release env chunks r p c :
  List.filter (is_release p c) (loop env chunks r).2 = [].
Proof.
  revert r. induction chunks as [|[elapsed value] chunks IH]; intros r; [done|].
  rewrite read_loop_cons. simpl.
  by rewrite !List.filter_app, await_read_no_release, Invoke_no_release, IH.
Qed.

(** The state the loop ends in, and the calls it makes: those of the
    objects of the lines, and the call of the timer somewhere among them
    when it fires. *)
Lemma read_loop_spec env chunks r :
  let fed := cut_lines (List.map snd chunks) (decoder r) (buffer r) in
  let msgs := parsed fed.2 in
  let looped := loop env chunks r in
  decoder looped.1 = fed.1.1
  /\ buffer looped.1 = fed.1.2
  /\ timedOut looped.1 = timedOut r || existsb fst chunks
  /\ session looped.1 = session_after (handle_all msgs) (session r)
  /\ exists calls1 calls2,
       calls_of looped.2
       = calls1 ++ timeout_call (negb (timedOut r) && existsb fst chunks) ++ calls2
       /\ calls1 ++ calls2 = calls_made (handle_all msgs) (session r).
Proof.
  revert r. induction chunks as [|[elapsed value] chunks IH]; intros r.
  - simpl. rewrite orb_false_r, andb_false_r. repeat split; try done. by exists [], [].
  - rewrite read_loop_cons. cbn [List.map snd]. rewrite feed_cons. cbn zeta.
    set (chunk := read_chunk decode_byte value (decoder r) (buffer r)).
    set (fired := await_read env (process (session r)) elapsed (timedOut r)).
    set (handled := exec (for_each (handle_line JSON_parse) chunk.2) (session r)).
    set (r1 := {| decoder := chunk.1.1; buffer := chunk.1.2; session := handled.1;
                  timedOut := fired.1 |}).
    destruct (IH r1) as (Hdec & Hbuf & Htime & Hsess & calls1 & calls2 & Hcalls & Hall).
    cbn [fst snd] in *. cbn [decoder buffer session timedOut r1] in *.
    assert (handled.1 = session_after (handle_all (parsed chunk.2)) (session r)) as Hs1.
    { unfold handled. by rewrite exec_lines. }
    assert (handled.2 = calls_made (handle_all (parsed chunk.2)) (session r)) as Hc1.
    { unfold handled. by rewrite exec_lines. }
    assert (fired.1 = timedOut r || elapsed) as Hf1 by apply await_read_timedOut.
    assert (calls_of fired.2 = timeout_call (elapsed && negb (timedOut r))) as Hf2
      by apply await_read_calls.
    rewrite omap_app. unfold handle_all in *.
    rewrite session_after_for_each_app, calls_made_for_each_app, <- Hs1, <- Hc1.
    split; [done|]. split; [done|].
    split; [rewrite Htime, Hf1; simpl; by destruct (timedOut r), elapsed|].
    split; [done|].
    rewrite !calls_of_app, calls_of_Invoke, Hcalls, Hf2, Hf1. rewrite <- Hall. simpl.
    destruct elapsed, (timedOut r); simpl.
    + exists (handled.2 ++ calls1), calls2. by rewrite <- ?app_assoc.
    + by exists [], (handled.2 ++ calls1 ++ calls2).
    + exists (handled.2 ++ calls1), calls2. by rewrite <- ?app_assoc.
    + exists (handled.2 ++ calls1), calls2. by rewrite <- ?app_assoc.
Qed.

(** The end of the loop, unfolded. *)
Lemma end_of_stream_eq env r :
  end_of_stream JSON_parse env r =
  let fired := await_read env (process (session r)) (final_read env).1 (timedOut r) in
  match (final_read env).2 with
  | read_done =>
      ({| decoder := decoder r; buffer := buffer r;
          session := session_after (handle_line JSON_parse (buffer r)) (session r);
          timedOut := fired.1 |},
       fired.2 ++ List.map Invoke (calls_made (handle_line JSON_parse (buffer r)) (session r)))
  | read_throws e =>
      ({| decoder := decoder r; buffer := buffer r; session := session r;
          timedOut := fired.1 |},
       fired.2 ++ (if fired.1 then [] else [Invoke (onError ("Stream read error: " +:+ e))]))
  end.
Proof.
  unfold end_of_stream, session_after, calls_made.
  destruct (final_read env) as [elapsed [|e]]; simpl;
    destruct (await_read _ _ _ _) as [t f]; simpl; [|done].
  by destruct (exec _ _).
Qed.

Lemma end_of_stream_timedOut env r :
  timedOut (end_of_stream JSON_parse env r).1 = timedOut r || (final_read env).1.
Proof.
  rewrite end_of_stream_eq. cbn zeta.
  destruct (final_read env).2; simpl; apply await_read_timedOut.
Qed.

Lemma end_of_stream_no_release env r p c :
  List.filter (is_release p c) (end_of_stream JSON_parse env r).2 = [].
Proof.
  rewrite end_of_stream_eq. cbn zeta.
  destruct (final_read env).2; simpl;
    rewrite List.filter_app, await_read_no_release; simpl.
  - apply Invoke_no_release.
  - by case_match.
Qed.

Lemma end_of_stream_calls env r :
  calls_of (end_of_stream JSON_parse env r).2
  = timeout_call ((final_read env).1 && negb (timedOut r))
    ++ match (final_read env).2 with
       | read_done => calls_made (handle_all (parsed [buffer r])) (session r)
       | read_throws e =>
           if timedOut r || (final_read env).1 then []
           else [onError ("Stream read error: " +:+ e)]
       end.
Proof.
  rewrite end_of_stream_eq. cbn zeta.
  destruct (final_read env).2; simpl;
    rewrite calls_of_app, await_read_calls; f_equal.
  - rewrite calls_of_Invoke. rewrite <- (calls_made_lines JSON_parse [buffer r]).
    rewrite calls_made_for_each_cons. simpl. by rewrite app_nil_r.
  - rewrite await_read_timedOut. by case_match.
Qed.

End LoopFacts.

(** ** A turn *)

Section TurnFacts.

Context {decoder_state : Type}.
Context (decode_byte : decoder_state -> byte -> decoder_state * string).
Context (decoder_init : decoder_state).
Context (JSON_parse : string -> option StreamMessage).

Local Abbreviation turn := (runClaudeStreaming decode_byte decoder_init JSON_parse).
Local Abbreviation loop := (read_loop decode_byte JSON_parse).
Local Abbreviation begin_reading := (start_reading decoder_init).
Local Abbreviation finish := (end_of_stream JSON_parse).
Local Abbreviation objects := (handed_over decode_byte decoder_init JSON_parse).

Implicit Types (env : turn_env) (w : world) (message conversationId : string)
  (claudeSessionId : option string) (allowedTools : option (list string)).

(** The effects of a turn whose message reaches the child. *)
Lemma turn_written env w message conversationId claudeSessionId allowedTools :
  stdin env = stdin_ok ->
  let proc := next_process w in
  let looped := loop env (reads env) (begin_reading proc conversationId claudeSessionId) in
  let ended := finish env looped.1 in
  (turn message conversationId claudeSessionId allowedTools env w).1
  = eviction env conversationId w
    ++ [Spawn proc (turn_args env claudeSessionId allowedTools);
        TimerSet proc; RegistrySet conversationId proc]
    ++ [StdinWrite proc message; StdinEnd proc]
    ++ [GetReader proc] ++ looped.2 ++ ended.2
    ++ [TimerCleared proc; ReleaseLock proc]
    ++ [RegistryDelete conversationId (Some proc)]
    ++ exit_effects env proc (timedOut ended.1).
Proof.
  intros Hstdin. unfold runClaudeStreaming, eviction, terminate, registry_delete, try_kill.
  rewrite Hstdin.
  destruct (activeSessions w !! conversationId) as [existing|] eqn:Hex; cbn.
  - rewrite lookup_insert_eq. simpl.
    fold (new_session (next_process w) conversationId claudeSessionId).
    fold (start_reading decoder_init (next_process w) conversationId claudeSessionId).
    destruct (loop env (reads env) _) as [r1 looped]. simpl.
    destruct (finish env r1) as [r2 ended]. simpl.
    done.
  - rewrite lookup_insert_eq. simpl.
    fold (new_session (next_process w) conversationId claudeSessionId).
    fold (start_reading decoder_init (next_process w) conversationId claudeSessionId).
    destruct (loop env (reads env) _) as [r1 looped]. simpl.
    destruct (finish env r1) as [r2 ended]. simpl.
    done.
Qed.

(** The effects of a turn whose message does not reach the child. *)
Lemma turn_unwritten env w message conversationId claudeSessionId allowedTools e :
  stdin_error (stdin env) = Some e ->
  let proc := next_process w in
  (turn message conversationId claudeSessionId allowedTools env w).1
  = eviction env conversationId w
    ++ [Spawn proc (turn_args env claudeSessionId allowedTools);
        TimerSet proc; RegistrySet conversationId proc]
    ++ stdin_effects proc message (stdin env)
    ++ [TimerCleared proc; RegistryDelete conversationId (Some proc);
        Invoke (onError ("Failed to send message: " +:+ e));
        Kill proc (kill_throws env proc)].
Proof.
  intros Hstdin. unfold runClaudeStreaming, eviction, terminate, registry_delete, try_kill.
  rewrite Hstdin.
  destruct (activeSessions w !! conversationId) as [existing|] eqn:Hex; cbn.
  - rewrite lookup_insert_eq. simpl. done.
  - rewrite lookup_insert_eq. simpl. done.
Qed.

(** The registry a turn leaves has no entry for its conversation. *)
Lemma turn_registry env w message conversationId claudeSessionId allowedTools :
  activeSessions (turn message conversationId claudeSessionId allowedTools env w).2
    !! conversationId = None.
Proof.
  unfold runClaudeStreaming, terminate, registry_delete.
  destruct (activeSessions w !! conversationId) as [existing|]; simpl;
    destruct (stdin_error (stdin env)); simpl;
    repeat (match goal with |- context [let '(_, _) := ?x in _] => destruct x end; simpl);
    apply lookup_delete_eq.
Qed.


(** The calls of a turn whose message reaches the child: those of the
    objects handed over, with the call of the timer somewhere among them
    when it fires, and the call of the [catch] at the end. *)
Lemma turn_calls env w message conversationId claudeSessionId allowedTools :
  stdin env = stdin_ok ->
  exists calls1 calls2,
    calls_of (turn message conversationId claudeSessionId allowedTools env w).1
    = calls1 ++ timeout_call (timer_fires env) ++ calls2 ++ read_error_call env
    /\ calls1 ++ calls2
       = calls_made (handle_all (objects env))
           (new_session (next_process w) conversationId claudeSessionId).
Proof.
  intros Hstdin. rewrite turn_written by done. cbn zeta.
  pose proof (read_loop_spec decode_byte JSON_parse env (reads env)
                (begin_reading (next_process w) conversationId claudeSessionId))
    as (Hdec & Hbuf & Htime & Hsess & calls1 & calls2 & Hcalls & Hall).
  cbn [decoder buffer session timedOut start_reading] in *.
  rewrite !calls_of_app, Hcalls, end_of_stream_calls, Htime, Hbuf, Hsess.
  assert (calls_of (eviction env conversationId w) = []) as ->.
  { unfold eviction. by case_match. }
  assert (forall t, calls_of (exit_effects env (next_process w) t) = []) as ->.
  { intros t. unfold exit_effects. by repeat case_match. }
  cbn [calls_of omap list_omap app]. rewrite !app_nil_r.
  unfold handed_over, read_error_call, read_fails, timer_fires.
  destruct (feed decode_byte (List.map snd (reads env)) decoder_init "")
    as [[st buffer] lines]. cbn [fst snd] in *.
  destruct (final_read env) as [elapsed outcome]. cbn [fst snd].
  unfold handle_all in *. simpl orb. simpl negb. simpl andb.
  destruct outcome as [|e].
  - rewrite calls_made_for_each_app, <- Hall.
    set (last_calls := calls_made (for_each handleStreamMessage _) _).
    destruct (existsb fst (reads env)), elapsed; simpl; rewrite ?app_nil_r.
    + exists calls1, (calls2 ++ last_calls). split; by rewrite ?app_nil_r, <- ?app_assoc.
    + exists calls1, (calls2 ++ last_calls). split; by rewrite ?app_nil_r, <- ?app_assoc.
    + exists (calls1 ++ calls2), last_calls. split; by rewrite ?app_nil_r, <- ?app_assoc.
    + exists (calls1 ++ calls2), last_calls. split; by rewrite ?app_nil_r, <- ?app_assoc.
  - rewrite app_nil_r, <- Hall.
    destruct (existsb fst (reads env)), elapsed; simpl; rewrite ?app_nil_r.
    + exists calls1, calls2. split; by rewrite ?app_nil_r, <- ?app_assoc.
    + exists calls1, calls2. split; by rewrite ?app_nil_r, <- ?app_assoc.
    + exists (calls1 ++ calls2), []. split; by rewrite ?app_nil_r, <- ?app_assoc.
    + exists (calls1 ++ calls2), []. split; by rewrite ?app_nil_r, <- ?app_assoc.
Qed.


Lemma turn_calls_unwritten env w message conversationId claudeSessionId allowedTools e :
  stdin_error (stdin env) = Some e ->
  calls_of (turn message conversationId claudeSessionId allowedTools env w).1
  = [onError ("Failed to send message: " +:+ e)].
Proof.
  intros Hstdin. rewrite (turn_unwritten _ _ _ _ _ _ e) by done. cbn zeta.
  rewrite !calls_of_app.
  assert (calls_of (eviction env conversationId w) = []) as ->.
  { unfold eviction. by case_match. }
  assert (calls_of (stdin_effects (next_process w) message (stdin env)) = []) as ->.
  { by destruct (stdin env). }
  done.
Qed.

(** The sessions of a well-formed world are older than the next process. *)
Lemma eviction_no_release env w conversationId :
  wf_world w ->
  List.filter (is_release (next_process w) conversationId) (eviction env conversationId w) = [].
Proof.
  intros Hwf. unfold eviction.
  destruct (activeSessions w !! conversationId) as [existing|] eqn:Hex; [|done].
  destruct (Hwf _ _ Hex) as [Hproc Htimer]. simpl.
  rewrite (proj2 (Nat.eqb_neq _ _)) by lia.
  rewrite (proj2 (Nat.eqb_neq (process existing) _)) by lia.
  by rewrite andb_false_r.
Qed.

Lemma wf_world_turn env w message conversationId claudeSessionId allowedTools :
  wf_world w ->
  wf_world (turn message conversationId claudeSessionId allowedTools env w).2.
Proof.
  intros Hwf.
  assert (forall c s, delete conversationId (activeSessions w) !! c = Some s ->
                      process s < S (next_process w) /\ clearTimeout s < S (next_process w))
    as Hdel.
  { intros c s [_ Hs]%lookup_delete_Some. destruct (Hwf _ _ Hs). lia. }
  unfold runClaudeStreaming, terminate, registry_delete.
  destruct (activeSessions w !! conversationId) as [existing|]; cbn;
    destruct (stdin_error (stdin env)); cbn;
    repeat (match goal with |- context [let '(_, _) := ?x in _] => destruct x end; cbn);
    intros c' s'; cbn; rewrite delete_insert_eq, ?delete_delete_eq; apply Hdel.
Qed.

Lemma wf_world_cancel env w conversationId :
  wf_world w -> wf_world (cancelStream env conversationId w).2.
Proof.
  intros Hwf. unfold cancelStream, terminate, registry_delete.
  destruct (activeSessions w !! conversationId) as [existing|]; [|done].
  intros c s. cbn. intros [_ Hs]%lookup_delete_Some. by apply (Hwf c).
Qed.


End TurnFacts.
(** ** Turns that interleave *)

Section HandleFacts.

Implicit Types (session : StreamSession) (msg : StreamMessage).

Lemma handle_of_without_pending_tool session :
  handle_of (without_pending_tool session) = handle_of session.
Proof. unfold without_pending_tool. by case_match. Qed.

Lemma handle_of_block block session :
  handle_of (session_after (handle_block block) session) = handle_of session.
Proof.
  rewrite session_after_handle_block.
  destruct (text_of block), (tool_of block); try done.
  - unfold handle_of. cbn. apply handle_of_without_pending_tool.
  - unfold handle_of. cbn. apply handle_of_without_pending_tool.
  - by case_match.
Qed.

Lemma handle_of_blocks blocks session :
  handle_of (session_after (for_each handle_block blocks) session) = handle_of session.
Proof.
  revert session. induction blocks as [|block blocks IH]; intros session; [done|].
  by rewrite session_after_for_each_cons, IH, handle_of_block.
Qed.

(** [handleStreamMessage] changes neither the process, nor the
    conversation, nor the timer of the session. *)
Lemma handle_of_event msg session :
  handle_of (session_after (handleStreamMessage msg) session) = handle_of session.
Proof.
  destruct (event_cases msg) as [H|[H|[H|[H|[_ H]]]]].
  - rewrite session_after_system by done. by case_match.
  - rewrite handle_assistant by done. apply handle_of_blocks.
  - rewrite session_after_result by done. apply handle_of_without_pending_tool.
  - rewrite session_after_user by done. by case_match.
  - unfold session_after. by rewrite H.
Qed.

Lemma handle_of_events msgs session :
  handle_of (session_after (handle_all msgs) session) = handle_of session.
Proof.
  revert session. induction msgs as [|msg msgs IH]; intros session; [done|].
  unfold handle_all in *. by rewrite session_after_for_each_cons, IH, handle_of_event.
Qed.

End HandleFacts.

Section SystemFacts.

Context {decoder_state : Type}.
Context (decode_byte : decoder_state -> byte -> decoder_state * string).
Context (decoder_init : decoder_state).
Context (JSON_parse : string -> option StreamMessage).

Local Abbreviation go := (run decode_byte decoder_init JSON_parse).
Local Abbreviation one_step := (step decode_byte decoder_init JSON_parse).
Local Abbreviation begin := (start_turn decoder_init).
Local Abbreviation read_on := (read_step decode_byte JSON_parse).
Local Abbreviation leave := (leave_loop JSON_parse).
Local Abbreviation begin_reading := (start_reading decoder_init).

Implicit Types (env : turn_env) (s : system (decoder_state := decoder_state))
  (r : reading (decoder_state := decoder_state)) (schedule : list event)
  (trace : list (option nat * effect)) (ev : event) (w : world)
  (t : turn_state (decoder_state := decoder_state)).

(** *** The stretches of code *)

(** The start of a call, in one piece. *)
Lemma start_turn_eq env message c sid tools outcome w :
  begin env message c sid tools outcome w
  = let proc := next_process w in
    (proc,
     eviction env c w
       ++ [Spawn proc (turn_args env sid tools); TimerSet proc; RegistrySet c proc]
       ++ stdin_effects proc message outcome
       ++ match stdin_error outcome with
          | Some e =>
              [TimerCleared proc; RegistryDelete c (Some proc);
               Invoke (onError ("Failed to send message: " +:+ e));
               Kill proc (kill_throws env proc)]
          | None => [GetReader proc]
          end,
     {| activeSessions :=
          match stdin_error outcome with
          | Some _ => delete c (activeSessions w)
          | None => <[c := new_session proc c sid]> (activeSessions w)
          end;
        next_process := S proc |},
     {| turn_reading := begin_reading proc c sid;
        turn_phase := match stdin_error outcome with
                      | Some _ => unwritten
                      | None => at_read
                      end |}).
Proof.
  unfold start_turn, eviction, terminate, registry_delete, try_kill, turn_args,
    start_reading, new_session.
  destruct (activeSessions w !! c) as [existing|] eqn:Hex; cbn;
    destruct (stdin_error outcome) as [e|]; cbn; rewrite ?lookup_insert_eq; cbn;
    by rewrite ?delete_insert_eq, ?delete_delete_eq, ?insert_delete_eq.
Qed.

Lemma read_step_eq value r :
  read_on value r
  = let chunk := read_chunk decode_byte value (decoder r) (buffer r) in
    let handled := exec (for_each (handle_line JSON_parse) chunk.2) (session r) in
    (List.map Invoke handled.2,
     {| decoder := chunk.1.1; buffer := chunk.1.2; session := handled.1;
        timedOut := timedOut r |}).
Proof.
  unfold read_step. destruct (read_chunk _ _ _ _) as [[st b] lines].
  by destruct (exec _ _) as [session' calls].
Qed.

Lemma handle_of_lines lines session :
  handle_of (exec (for_each (handle_line JSON_parse) lines) session).1 = handle_of session.
Proof. rewrite exec_lines, exec_eq. apply handle_of_events. Qed.

Lemma handle_of_line line session :
  handle_of (exec (handle_line JSON_parse line) session).1 = handle_of session.
Proof.
  unfold handle_line. destruct (parse_line JSON_parse line) as [msg|]; [|done].
  rewrite exec_eq. apply handle_of_event.
Qed.



(** *** One event *)


(** *** The names in use *)








(** *** The registry and the trace *)



(** *** The releases of a call *)











(** *** What a trace says of the system *)




(** *** A turn that nothing interleaves with *)

Lemma timers_after_app effects1 effects2 (armed : gset nat) :
  timers_after (effects1 ++ effects2) armed
  = timers_after effects2 (timers_after effects1 armed).
Proof.
  revert armed. induction effects1 as [|e effects1 IH]; intros armed; [done|].
  destruct e; cbn; by rewrite IH.
Qed.

Lemma timers_after_Invoke calls (armed : gset nat) :
  timers_after (List.map Invoke calls) armed = armed.
Proof. by induction calls. Qed.

Lemma run_app env schedule1 schedule2 s :
  go env (schedule1 ++ schedule2) s
  = ((go env schedule1 s).1 ++ (go env schedule2 (go env schedule1 s).2).1,
     (go env schedule2 (go env schedule1 s).2).2).
Proof.
  revert s. induction schedule1 as [|ev schedule1 IH]; intros s.
  - cbn. by destruct (go env schedule2 s).
  - cbn [app run]. destruct (one_step env ev s) as [[actor effects] s1].
    rewrite IH. destruct (go env schedule1 s1) as [trace1 s2]. cbn [fst snd].
    by rewrite app_assoc.
Qed.

Lemma run_idle env schedule s :
  Forall (fun ev => one_step env ev s = (None, [], s)) schedule ->
  go env schedule s = ([], s).
Proof.
  induction 1 as [|ev schedule Hev Hrest IH]; [done|]. cbn [run]. by rewrite Hev, IH.
Qed.

(** [runClaudeStreaming] in terms of the stretches of code of a call. *)
Lemma runClaudeStreaming_stretches env message c sid tools w :
  runClaudeStreaming decode_byte decoder_init JSON_parse message c sid tools env w
  = let proc := next_process w in
    let started := begin env message c sid tools (stdin env) w in
    match stdin_error (stdin env) with
    | Some _ => (started.1.1.2, started.1.2)
    | None =>
        let looped := read_loop decode_byte JSON_parse env (reads env)
                        (begin_reading proc c sid) in
        let ended := end_of_stream JSON_parse env looped.1 in
        (started.1.1.2 ++ looped.2 ++ ended.2
           ++ [TimerCleared proc; ReleaseLock proc; RegistryDelete c (Some proc)]
           ++ exit_effects env proc (timedOut ended.1),
         {| activeSessions := delete c (activeSessions w); next_process := S proc |})
    end.
Proof.
  rewrite start_turn_eq. cbn zeta.
  unfold runClaudeStreaming, eviction, terminate, registry_delete, try_kill, turn_args,
    exit_effects, start_reading, new_session.
  destruct (activeSessions w !! c) as [existing|] eqn:Hex; cbn;
    destruct (stdin_error (stdin env)) as [e|]; cbn [fst snd];
    rewrite ?lookup_insert_eq; cbn [fst snd app fmap option_fmap option_map process].
  - by rewrite delete_insert_eq, delete_delete_eq.
  - destruct (read_loop _ _ _ _ _) as [r1 looped]. destruct (end_of_stream _ _ _) as [r2 ended].
    cbn [fst snd]. by rewrite delete_insert_eq, delete_delete_eq, <- ?app_assoc.
  - by rewrite delete_insert_eq.
  - destruct (read_loop _ _ _ _ _) as [r1 looped]. destruct (end_of_stream _ _ _) as [r2 ended].
    cbn [fst snd]. by rewrite delete_insert_eq, <- ?app_assoc.
Qed.

(** The events of a call that is suspended at a read, on a system
    written with the variables of the call apart. *)
Lemma step_Elapsed_armed env proc r ph w (others : gmap nat turn_state) (armed : gset nat) :
  proc ∈ armed ->
  one_step env (Elapsed proc)
    {| module_state := w;
       turns := <[proc := {| turn_reading := r; turn_phase := ph |}]> others;
       timers := armed |}
  = (Some proc, (timer_callback env r).1,
     {| module_state := w;
        turns := <[proc := {| turn_reading := (timer_callback env r).2; turn_phase := ph |}]>
                   others;
        timers := timers_after (timer_callback env r).1 armed |}).
Proof.
  intros Harmed. cbn [step turns timers]. rewrite lookup_insert_eq, decide_True by done.
  unfold with_turn. cbn [fst snd timer_callback module_state turns timers].
  by rewrite insert_insert_eq.
Qed.

Lemma step_Elapsed_idle env proc (s : system (decoder_state := decoder_state)) :
  proc ∉ timers s -> one_step env (Elapsed proc) s = (None, [], s).
Proof.
  intros Hidle. cbn [step]. destruct (turns s !! proc) as [[r ph]|]; [|done].
  by rewrite decide_False.
Qed.

Lemma step_Chunk_reading env proc value r w (others : gmap nat turn_state)
    (armed : gset nat) :
  one_step env (Chunk proc value)
    {| module_state := w;
       turns := <[proc := {| turn_reading := r; turn_phase := at_read |}]> others;
       timers := armed |}
  = (Some proc, (read_on value r).1,
     {| module_state := w;
        turns := <[proc := {| turn_reading := (read_on value r).2; turn_phase := at_read |}]>
                   others;
        timers := timers_after (read_on value r).1 armed |}).
Proof.
  cbn [step turns timers]. rewrite lookup_insert_eq.
  destruct (read_on value r) as [effects r'].
  unfold with_turn. cbn [fst snd module_state turns timers].
  by rewrite insert_insert_eq.
Qed.

Lemma step_EndOfStream_reading env proc outcome r w (others : gmap nat turn_state)
    (armed : gset nat) :
  one_step env (EndOfStream proc outcome)
    {| module_state := w;
       turns := <[proc := {| turn_reading := r; turn_phase := at_read |}]> others;
       timers := armed |}
  = (Some proc, (leave outcome r w).1.1,
     {| module_state := (leave outcome r w).2;
        turns := <[proc := {| turn_reading := (leave outcome r w).1.2;
                              turn_phase := at_exit |}]> others;
        timers := timers_after (leave outcome r w).1.1 armed |}).
Proof.
  cbn [step turns timers module_state]. rewrite lookup_insert_eq.
  destruct (leave outcome r w) as [[effects r'] w'].
  unfold with_turn. cbn [fst snd module_state turns timers].
  by rewrite insert_insert_eq.
Qed.

Lemma step_Exited_leaving env proc exitCode r w (others : gmap nat turn_state)
    (armed : gset nat) :
  one_step env (Exited proc exitCode)
    {| module_state := w;
       turns := <[proc := {| turn_reading := r; turn_phase := at_exit |}]> others;
       timers := armed |}
  = (Some proc, (after_exit exitCode r).1,
     {| module_state := w;
        turns := <[proc := {| turn_reading := r; turn_phase := (after_exit exitCode r).2 |}]>
                   others;
        timers := timers_after (after_exit exitCode r).1 armed |}).
Proof.
  cbn [step turns timers module_state]. rewrite lookup_insert_eq.
  destruct (after_exit exitCode r) as [effects ph].
  unfold with_turn. cbn [fst snd module_state turns timers].
  by rewrite insert_insert_eq.
Qed.

Lemma step_ErrorOutput env proc r ph w (others : gmap nat turn_state) (armed : gset nat) :
  one_step env (ErrorOutput proc)
    {| module_state := w;
       turns := <[proc := {| turn_reading := r; turn_phase := ph |}]> others;
       timers := armed |}
  = match ph with
    | at_stderr =>
        (Some proc, after_stderr r,
         {| module_state := w;
            turns := <[proc := {| turn_reading := r; turn_phase := finished |}]> others;
            timers := armed |})
    | _ =>
        (None, [],
         {| module_state := w;
            turns := <[proc := {| turn_reading := r; turn_phase := ph |}]> others;
            timers := armed |})
    end.
Proof.
  cbn [step turns timers module_state]. rewrite lookup_insert_eq.
  destruct ph; try done.
  unfold with_turn. cbn [fst snd module_state turns timers after_stderr timers_after].
  by rewrite insert_insert_eq.
Qed.

(** The time of the timer of a call that reads, when it is up or not:
    what [await_read] says. *)
Lemma run_time_up env proc elapsed r w (others : gmap nat turn_state) (armed : gset nat) :
  process (session r) = proc ->
  (proc ∈ armed <-> timedOut r = false) ->
  let fired := await_read env proc elapsed (timedOut r) in
  let r' := {| decoder := decoder r; buffer := buffer r; session := session r;
               timedOut := fired.1 |} in
  go env (time_up proc elapsed)
    {| module_state := w;
       turns := <[proc := {| turn_reading := r; turn_phase := at_read |}]> others;
       timers := armed |}
  = (List.map (pair (Some proc)) fired.2,
     {| module_state := w;
        turns := <[proc := {| turn_reading := r'; turn_phase := at_read |}]> others;
        timers := timers_after fired.2 armed |})
  /\ (proc ∈ timers_after fired.2 armed <-> fired.1 = false).
Proof.
  intros Hproc Harmed. unfold await_read, time_up.
  destruct elapsed; cbn [andb].
  - destruct (timedOut r) eqn:Hout; cbn [negb fst snd].
    + cbn [run]. rewrite step_Elapsed_idle; [|cbn; intros Hin; by apply Harmed in Hin].
      cbn [run List.map app timers_after]. split; [|by rewrite Harmed].
      do 3 f_equal. destruct r; cbn in *. by subst.
    + cbn [run]. rewrite step_Elapsed_armed by (by apply Harmed).
      unfold timer_callback, try_kill. rewrite Hproc. cbn [fst snd run List.map app].
      split; [done|]. cbn [timers_after]. split; [|done].
      intros [_ Hne]%elem_of_difference. exfalso. by apply Hne, elem_of_singleton.
  - cbn [run List.map timers_after fst snd]. split; [|done].
    do 3 f_equal. by destruct r.
Qed.

(** The reads of a call that nothing interleaves with are the iterations
    of [read_loop]. *)
Lemma run_reads env proc c chunks rest r w (others : gmap nat turn_state)
    (armed : gset nat) :
  handle_of (session r) = (proc, c, proc) ->
  (proc ∈ armed <-> timedOut r = false) ->
  let looped := read_loop decode_byte JSON_parse env chunks r in
  let s2 :=
    {| module_state := w;
       turns := <[proc := {| turn_reading := looped.1; turn_phase := at_read |}]> others;
       timers := timers_after looped.2 armed |} in
  go env (read_events proc chunks ++ rest)
    {| module_state := w;
       turns := <[proc := {| turn_reading := r; turn_phase := at_read |}]> others;
       timers := armed |}
  = (List.map (pair (Some proc)) looped.2 ++ (go env rest s2).1, (go env rest s2).2)
  /\ handle_of (session looped.1) = (proc, c, proc)
  /\ (proc ∈ timers_after looped.2 armed <-> timedOut looped.1 = false).
Proof.
  revert r armed. induction chunks as [|[elapsed value] chunks IH]; intros r armed Hhandle Harmed.
  - cbn. split; [|done]. by destruct (go env rest _).
  - assert (process (session r) = proc) as Hproc by (unfold handle_of in Hhandle; congruence).
    rewrite read_loop_cons. cbn zeta. rewrite Hproc.
    destruct (run_time_up env proc elapsed r w others armed Hproc Harmed)
      as [Htime Harmed1]. cbn zeta in Htime, Harmed1.
    set (fired := await_read env proc elapsed (timedOut r)) in *.
    set (chunk := read_chunk decode_byte value (decoder r) (buffer r)).
    set (handled := exec (for_each (handle_line JSON_parse) chunk.2) (session r)).
    set (r2 := {| decoder := chunk.1.1; buffer := chunk.1.2; session := handled.1;
                  timedOut := fired.1 |}).
    assert (handle_of (session r2) = (proc, c, proc)) as Hhandle2.
    { subst r2 handled. cbn [session]. by rewrite handle_of_lines. }
    destruct (IH r2 (timers_after fired.2 armed) Hhandle2 Harmed1)
      as (Hrest & Hhandle' & Harmed'). cbn zeta in Hrest.
    unfold read_events in *. cbn [List.map concat]. rewrite <- !app_assoc.
    rewrite run_app, Htime. cbn [fst snd app run].
    rewrite step_Chunk_reading, read_step_eq. cbn zeta.
    cbn [fst snd decoder buffer session timedOut].
    fold chunk. fold handled. fold r2.
    rewrite timers_after_Invoke, Hrest. cbn [fst snd].
    rewrite !timers_after_app, timers_after_Invoke, !map_app, <- !app_assoc.
    done.
Qed.

Lemma leave_loop_eq outcome r w :
  leave outcome r w
  = let proc := process (session r) in
    let c := conversationId (session r) in
    let finally :=
      [TimerCleared proc; ReleaseLock proc;
       RegistryDelete c (process <$> activeSessions w !! c)] in
    let w' := {| activeSessions := delete c (activeSessions w);
                 next_process := next_process w |} in
    match outcome with
    | read_done =>
        (List.map Invoke (calls_made (handle_line JSON_parse (buffer r)) (session r))
           ++ finally,
         {| decoder := decoder r; buffer := buffer r;
            session := session_after (handle_line JSON_parse (buffer r)) (session r);
            timedOut := timedOut r |},
         w')
    | read_throws e =>
        ((if timedOut r then [] else [Invoke (onError ("Stream read error: " +:+ e))])
           ++ finally,
         r, w')
    end.
Proof.
  unfold leave_loop, registry_delete, session_after, calls_made. destruct outcome; [|done].
  by destruct (exec _ _).
Qed.

(** The events of a call that is over run no code. *)
Lemma step_unwritten env ev proc r (s : system (decoder_state := decoder_state)) :
  turns s !! proc = Some {| turn_reading := r; turn_phase := unwritten |} ->
  proc ∉ timers s ->
  match ev with
  | Chunk p _ | EndOfStream p _ | Exited p _ | ErrorOutput p | Elapsed p => p = proc
  | _ => False
  end ->
  one_step env ev s = (None, [], s).
Proof.
  intros Hturn Hidle. destruct ev; try done; intros ->; cbn [step]; rewrite Hturn; try done.
  by rewrite decide_False.
Qed.

(** A turn that nothing interleaves with does what [runClaudeStreaming]
    says, from any state of the system: the same effects in the same
    order, all by the call of the turn, and the same module state. *)
Lemma undisturbed_turn env message c sid tools s :
  let proc := next_process (module_state s) in
  let alone :=
    runClaudeStreaming decode_byte decoder_init JSON_parse message c sid tools env
      (module_state s) in
  let ran := go env (undisturbed message c sid tools env proc) s in
  ran.1 = List.map (pair (Some proc)) alone.1
  /\ module_state ran.2 = alone.2.
Proof.
  cbn zeta. rewrite runClaudeStreaming_stretches. cbn zeta.
  unfold undisturbed. cbn [run step].
  destruct (begin env message c sid tools (stdin env) (module_state s))
    as [[[proc effects] w] t] eqn:Hbegin.
  rewrite start_turn_eq in Hbegin. cbn zeta in Hbegin. cbn [fst snd].
  set (p := next_process (module_state s)) in *.
  unfold with_turn.
  destruct (stdin_error (stdin env)) as [e|] eqn:Herr.
  - injection Hbegin as <- <- <- <-.
    rewrite run_idle.
    { cbn [fst snd app]. by rewrite app_nil_r. }
    assert (p ∉ timers_after
                  (eviction env c (module_state s)
                   ++ [Spawn p (turn_args env sid tools); TimerSet p; RegistrySet c p]
                   ++ stdin_effects p message (stdin env)
                   ++ [TimerCleared p; RegistryDelete c (Some p);
                       Invoke (onError ("Failed to send message: " +:+ e));
                       Kill p (kill_throws env p)]) (timers s)) as Hidle.
    { rewrite !timers_after_app. cbn [timers_after].
      assert (forall armed, timers_after (stdin_effects p message (stdin env)) armed = armed)
        as -> by (intros armed; by destruct (stdin env)).
      cbn [timers_after]. intros [_ Hne]%elem_of_difference. by apply Hne, elem_of_singleton. }
    rewrite !Forall_app. unfold read_events, time_up.
    split; [|split].
    + apply Forall_concat, Forall_fmap, Forall_forall. intros [elapsed value] _. cbn.
      destruct elapsed; repeat constructor;
        (eapply step_unwritten; [apply lookup_insert_eq|done|done]).
    + destruct (final_read env).1; repeat constructor.
      eapply step_unwritten; [apply lookup_insert_eq|done|done].
    + repeat constructor; (eapply step_unwritten; [apply lookup_insert_eq|done|done]).
  - injection Hbegin as <- <- <- <-.
    assert (stdin env = stdin_ok) as Hok by (by destruct (stdin env)).
    set (armed := timers_after _ (timers s)).
    assert (p ∈ armed) as Harmed.
    { subst armed. rewrite !timers_after_app, Hok. cbn [timers_after stdin_effects app].
      apply elem_of_union. left. by apply elem_of_singleton. }
    destruct (run_reads env p c (reads env)
                (time_up p (final_read env).1
                 ++ [EndOfStream p (final_read env).2; Exited p (exitCode env);
                     ErrorOutput p])
                (begin_reading p c sid)
                {| activeSessions := <[c := new_session p c sid]> (activeSessions (module_state s));
                   next_process := S p |}
                (turns s) armed eq_refl ltac:(done))
      as (Hloop & Hhandle & Harmed1). cbn zeta in Hloop.
    unfold start_reading in *. rewrite Hloop. clear Hloop. cbn [fst snd].
    set (looped := read_loop decode_byte JSON_parse env (reads env) _) in *.
    assert (process (session looped.1) = p) as Hproc
      by (unfold handle_of in Hhandle; congruence).
    assert (conversationId (session looped.1) = c) as Hc
      by (unfold handle_of in Hhandle; congruence).
    destruct (run_time_up env p (final_read env).1 looped.1
                {| activeSessions := <[c := new_session p c sid]> (activeSessions (module_state s));
                   next_process := S p |}
                (turns s) (timers_after looped.2 armed) Hproc Harmed1)
      as [Htime _]. cbn zeta in Htime.
    rewrite run_app, Htime. clear Htime. cbn [fst snd run].
    rewrite step_EndOfStream_reading, leave_loop_eq. cbn zeta.
    cbn [decoder buffer session timedOut activeSessions next_process].
    rewrite Hproc, Hc, lookup_insert_eq, delete_insert_eq.
    rewrite end_of_stream_eq. cbn zeta. rewrite Hproc.
    set (fired := await_read env p (final_read env).1 (timedOut looped.1)).
    destruct (final_read env).2 as [|err]; cbn [fst snd];
      rewrite step_Exited_leaving, step_ErrorOutput; unfold after_exit, after_stderr,
        exit_effects; cbn [session timedOut].
    + pose proof (handle_of_line (buffer looped.1) (session looped.1)) as Hline.
      rewrite exec_eq in Hline. cbn [fst] in Hline. rewrite Hhandle in Hline.
      assert (process (session_after (handle_line JSON_parse (buffer looped.1))
                         (session looped.1)) = p) as ->
        by (unfold handle_of in Hline; congruence).
      destruct fired.1, (Z.eqb (exitCode env) 0); cbn [fst snd run module_state app List.map];
        (split; [|done]); by rewrite !map_app, ?app_nil_r, <- !app_assoc.
    + rewrite Hproc.
      destruct fired.1, (Z.eqb (exitCode env) 0); cbn [fst snd run module_state app List.map];
        (split; [|done]); by rewrite !map_app, ?app_nil_r, <- !app_assoc.
Qed.





End SystemFacts.

(** ** Events, segments and the session id *)

(** Membership in a list that is written out. *)
Ltac member H :=
  cbn [fst snd] in H;
  rewrite ?elem_of_app, ?elem_of_cons, ?elem_of_nil in H;
  repeat match type of H with
         | _ \/ _ => destruct H as [H|H]
         | False => destruct H
         end;
  try discriminate H.

Section SegmentFacts.

Implicit Types (session : StreamSession) (msg : StreamMessage) (c : callback)
  (conv : Conversation) (state : StreamingState).

(** The blocks of assistant events are handled one after the other,
    however they are grouped into events. *)
Lemma handle_all_app msgs1 msgs2 session :
  calls_made (handle_all (msgs1 ++ msgs2)) session
  = calls_made (handle_all msgs1) session
    ++ calls_made (handle_all msgs2) (session_after (handle_all msgs1) session).
Proof. apply calls_made_for_each_app. Qed.

Lemma session_after_assistant_events (groups : list (list ContentBlock)) session :
  session_after (handle_all (assistant_event <$> groups)) session
  = session_after (for_each handle_block (concat groups)) session.
Proof.
  unfold handle_all. revert session.
  induction groups as [|blocks groups IH]; intros session; [done|].
  rewrite fmap_cons, session_after_for_each_cons, IH. simpl concat.
  by rewrite session_after_for_each_app.
Qed.

Lemma calls_made_assistant_events (groups : list (list ContentBlock)) session :
  calls_made (handle_all (assistant_event <$> groups)) session
  = calls_made (for_each handle_block (concat groups)) session.
Proof.
  unfold handle_all. revert session.
  induction groups as [|blocks groups IH]; intros session; [done|].
  rewrite fmap_cons, calls_made_for_each_cons, IH. simpl concat.
  by rewrite calls_made_for_each_app.
Qed.

(** The first denial is always kept. *)
Lemma deduplicate_cons denial denials :
  deduplicatePermissionDenials (denial :: denials)
  = denial :: filter_unseen {[denial_key denial]} denials.
Proof.
  unfold deduplicatePermissionDenials. simpl.
  rewrite decide_False by set_solver. by rewrite (right_id_L ∅ (∪)).
Qed.

(** A quiet event makes no call and leaves the segment and the pending
    tool as they are. *)
Lemma quiet_blocks blocks session :
  forallb (fun block => bool_decide (text_of block = None /\ tool_of block = None)) blocks
  = true ->
  exec (for_each handle_block blocks) session = (session, []).
Proof.
  revert session. induction blocks as [|block blocks IH]; intros session Hq; [done|].
  cbn [forallb] in Hq.
  apply andb_true_iff in Hq as [[Htext Htool]%bool_decide_eq_true Hrest].
  rewrite exec_eq, session_after_for_each_cons, calls_made_for_each_cons.
  rewrite session_after_handle_block, calls_made_handle_block, Htext, Htool.
  cbn [app]. rewrite <- exec_eq. by apply IH.
Qed.

Lemma quiet_event msg session :
  is_quiet msg = true ->
  calls_made (handleStreamMessage msg) session = []
  /\ currentSegment (session_after (handleStreamMessage msg) session) = currentSegment session
  /\ lastToolName (session_after (handleStreamMessage msg) session) = lastToolName session.
Proof.
  unfold is_quiet. intros [[Hres Hblocks]%andb_true_iff Huser]%andb_true_iff.
  apply negb_true_iff in Hres.
  destruct (event_cases msg) as [H|[H|[H|[H|[_ H]]]]].
  - rewrite calls_made_system, session_after_system by done.
    by destruct (init_session_id msg).
  - rewrite H in Hblocks. rewrite handle_assistant by done.
    unfold calls_made, session_after. by rewrite quiet_blocks.
  - congruence.
  - rewrite H in Huser. apply bool_decide_eq_true in Huser.
    rewrite calls_made_user, session_after_user by done. by rewrite Huser.
  - unfold calls_made, session_after. by rewrite H.
Qed.

Lemma quiet_events msgs session :
  forallb is_quiet msgs = true ->
  calls_made (handle_all msgs) session = []
  /\ currentSegment (session_after (handle_all msgs) session) = currentSegment session
  /\ lastToolName (session_after (handle_all msgs) session) = lastToolName session.
Proof.
  unfold handle_all. revert session.
  induction msgs as [|msg msgs IH]; intros session Hq; [done|].
  cbn [forallb] in Hq. apply andb_true_iff in Hq as [Hmsg Hrest].
  rewrite calls_made_for_each_cons, session_after_for_each_cons.
  destruct (quiet_event msg session Hmsg) as (-> & <- & <-). by apply IH.
Qed.

(** The call a result event that reports success makes. *)
Lemma calls_made_success msg session :
  is_success msg = true ->
  calls_made (handleStreamMessage msg) session
  = pending_tool_end session
    ++ [onComplete (or_else (result msg) "") (sessionId session) (reported_denials msg)].
Proof.
  unfold is_success. intros [Hres Herr%negb_true_iff]%andb_true_iff.
  by rewrite calls_made_result, Herr.
Qed.

Lemma events_of_pending_tool_end conv session state :
  events_of conv (pending_tool_end session) state = pending_tool_events session
  /\ state_after conv (pending_tool_end session) state = state.
Proof. unfold pending_tool_end, pending_tool_events. by case_match. Qed.



(** Segments are finalized with text only. *)
Lemma segment_end_call_of_block block session content :
  onSegmentEnd content ∈ calls_made (handle_block block) session ->
  Str.whitespace_only content = false.
Proof.
  rewrite calls_made_handle_block. unfold pending_tool_end.
  destruct (text_of block), (tool_of block), (some_text (lastToolName session)),
    (Str.has_text (currentSegment session)) eqn:Htext; simpl; intros Hin; member Hin.
  all: injection Hin as ->; by apply StrFacts.has_text_spec.
Qed.

Lemma segment_end_call_of_blocks blocks session content :
  onSegmentEnd content ∈ calls_made (for_each handle_block blocks) session ->
  Str.whitespace_only content = false.
Proof.
  revert session. induction blocks as [|block blocks IH]; intros session.
  - by intros ?%elem_of_nil.
  - rewrite calls_made_for_each_cons. intros [Hin|Hin]%elem_of_app.
    + by eapply segment_end_call_of_block.
    + by eapply IH.
Qed.

Lemma segment_end_calls_have_text msgs session content :
  onSegmentEnd content ∈ calls_made (handle_all msgs) session ->
  Str.whitespace_only content = false.
Proof.
  unfold handle_all. revert session.
  induction msgs as [|msg msgs IH]; intros session; [by intros ?%elem_of_nil|].
  rewrite calls_made_for_each_cons. intros [Hin|Hin]%elem_of_app; [|by eapply IH].
  destruct (event_cases msg) as [H|[H|[H|[H|[_ H]]]]].
  - rewrite calls_made_system in Hin by done. by apply elem_of_nil in Hin.
  - rewrite handle_assistant in Hin by done. by eapply segment_end_call_of_blocks.
  - rewrite calls_made_result in Hin by done. unfold pending_tool_end in Hin.
    destruct (some_text (lastToolName session)), (bool_decide (is_error msg = Some true));
      member Hin.
  - rewrite calls_made_user in Hin by done.
    destruct (command_stdout msg); member Hin.
  - unfold calls_made in Hin. rewrite H in Hin. by apply elem_of_nil in Hin.
Qed.

Lemma segment_end_events_have_text conv calls state cid content :
  segment_end cid content ∈ events_of conv calls state ->
  Str.whitespace_only content = false.
Proof.
  revert state. induction calls as [|c calls IH]; intros state; [by intros ?%elem_of_nil|].
  rewrite events_of_cons. intros [Hin|Hin]%elem_of_app; [|by eapply IH].
  destruct c as [| text | | | res sid denials |]; simpl in Hin.
  - member Hin.
  - destruct (Str.has_text text) eqn:Htext; member Hin.
    injection Hin as -> ->. by apply StrFacts.has_text_spec.
  - member Hin.
  - member Hin.
  - destruct denials as [denials|];
      [destruct (deduplicatePermissionDenials denials)|];
      try destruct (_ || _); member Hin.
  - member Hin.
Qed.

(** The messages [persistStreamResult] creates have text. *)
Lemma created_messages_have_text conv (texts : list string) cid r content :
  Forall (fun s => Str.has_text s = true) texts ->
  createMessage cid r content ∈ List.map (createMessage (id conv) "assistant") texts ->
  Str.whitespace_only content = false.
Proof.
  intros Htexts (s & [= <- <- <-] & Hs)%list_elem_of_In%in_map_iff.
  apply StrFacts.has_text_spec.
  by apply (proj1 (Forall_forall _ _) Htexts), list_elem_of_In.
Qed.

Lemma persisted_messages_have_text newTitle conv state cid r content :
  Forall (fun s => Str.has_text s = true) (segments state) ->
  createMessage cid r content ∈ persistStreamResult newTitle conv state ->
  Str.whitespace_only content = false.
Proof.
  intros Hseg Hin.
  assert (Forall (fun s => Str.has_text s = true)
            (if Str.has_text (state_currentSegment state)
             then segments state ++ [state_currentSegment state]
             else segments state)) as Hall.
  { destruct (Str.has_text (state_currentSegment state)) eqn:Hcur; [|done].
    apply Forall_app. split; [done|]. by constructor. }
  unfold persistStreamResult, storeSegments in Hin.
  apply elem_of_app in Hin as [Hin|Hin].
  { destruct (some_text _); [case_bool_decide|]; member Hin. }
  destruct (result_permissionDenials (state_result state)) as [[|d ds]|].
  - destruct (if Str.has_text _ then _ else _) as [|s l] eqn:Hl; [member Hin|].
    rewrite <- Hl in *. apply elem_of_app in Hin as [Hin|Hin].
    + exact (created_messages_have_text conv _ cid r content Hall Hin).
    + destruct (newTitle _); member Hin.
  - apply elem_of_app in Hin as [Hin|Hin].
    + exact (created_messages_have_text conv _ cid r content Hseg Hin).
    + destruct (Str.has_text (state_currentSegment state)) eqn:Hcur; member Hin.
      injection Hin as -> -> ->. by apply StrFacts.has_text_spec.
  - destruct (if Str.has_text _ then _ else _) as [|s l] eqn:Hl; [member Hin|].
    rewrite <- Hl in *. apply elem_of_app in Hin as [Hin|Hin].
    + exact (created_messages_have_text conv _ cid r content Hall Hin).
    + destruct (newTitle _); member Hin.
Qed.

End SegmentFacts.

(** ** Claims about the life cycle of a turn *)

Section TurnClaims.

Context {decoder_state : Type}.
Context (decode_byte : decoder_state -> byte -> decoder_state * string).
Context (decoder_init : decoder_state).
Context (JSON_parse : string -> option StreamMessage).

Local Abbreviation turn := (runClaudeStreaming decode_byte decoder_init JSON_parse).
Local Abbreviation objects := (handed_over decode_byte decoder_init JSON_parse).
Local Abbreviation respond := (handleStreamingResponse decode_byte decoder_init JSON_parse).

Implicit Types (env : turn_env) (w : world) (message conversationId : string)
  (claudeSessionId : option string) (allowedTools : option (list string)).

(** The terminal calls of a turn: one when writing to the standard input
    fails; otherwise one for each result event handed to
    [handleStreamMessage], one more when the timeout fires, and one more
    when the read loop fails and the timeout has not fired. A read error
    after a timeout is the one case the code guards. *)
Lemma terminal_calls_of_turn message conversationId claudeSessionId allowedTools env w :
  length (List.filter is_terminal_call
            (calls_of (turn message conversationId claudeSessionId allowedTools env w).1))
  = match stdin_error (stdin env) with
    | Some _ => 1
    | None =>
        length (List.filter is_result (objects env))
        + (if timer_fires env then 1 else 0)
        + length (read_error_call env)
    end.
Proof.
  destruct (stdin_error (stdin env)) as [e|] eqn:Hstdin.
  - by rewrite (turn_calls_unwritten _ _ _ _ _ _ _ _ _ e).
  - assert (stdin env = stdin_ok) as Hok by (by destruct (stdin env)).
    destruct (turn_calls decode_byte decoder_init JSON_parse env w message conversationId
                claudeSessionId allowedTools Hok)
      as (calls1 & calls2 & -> & Hall).
    rewrite !List.filter_app, !length_app.
    pose proof (terminal_calls_of_events (objects env)
                  (new_session (next_process w) conversationId claudeSessionId))
      as Hcount.
    rewrite <- Hall, List.filter_app, length_app in Hcount.
    assert (length (List.filter is_terminal_call (timeout_call (timer_fires env)))
            = if timer_fires env then 1 else 0) as -> by (by destruct (timer_fires env)).
    assert (List.filter is_terminal_call (read_error_call env) = read_error_call env) as ->.
    { unfold read_error_call. by repeat case_match. }
    lia.
Qed.

(** A call for a conversation that has a session in the registry begins by
    clearing the timeout of that session, killing its process (whether or
    not the kill throws) and deleting its entry, and only then spawns the
    new process, sets its timer and registers the new session; the process
    that is killed is not the one that is spawned. *)
Lemma eviction_before_spawn env w message conversationId claudeSessionId allowedTools
    existing :
  wf_world w ->
  activeSessions w !! conversationId = Some existing ->
  let proc := next_process w in
  process existing <> proc
  /\ exists rest,
       (turn message conversationId claudeSessionId allowedTools env w).1
       = [TimerCleared (clearTimeout existing);
          Kill (process existing) (kill_throws env (process existing));
          RegistryDelete conversationId (Some (process existing));
          Spawn proc (turn_args env claudeSessionId allowedTools);
          TimerSet proc;
          RegistrySet conversationId proc] ++ rest.
Proof.
  intros Hwf Hex proc. split.
  { destruct (Hwf _ _ Hex). subst proc. lia. }
  destruct (stdin_error (stdin env)) as [e|] eqn:Hstdin.
  - rewrite (turn_unwritten _ _ _ _ _ _ _ _ _ e) by done. cbn zeta.
    unfold eviction. rewrite Hex. eexists. simpl. reflexivity.
  - assert (stdin env = stdin_ok) as Hok by (by destruct (stdin env)).
    rewrite turn_written by done. cbn zeta.
    unfold eviction. rewrite Hex. eexists. simpl. reflexivity.
Qed.

Local Abbreviation go := (run decode_byte decoder_init JSON_parse).


End TurnClaims.



(** C2. The code fires a second terminal callback. When the time of the
    timer is up after the result event and before the stream ends, the
    turn calls [onComplete] and then [onError]: the client receives
    [no_response] and then [error]. When the child prints a result event
    that reports an error and then one that reports success, the turn
    calls [onError] and then [onComplete]: the client receives [error] and
    then [complete], and the message is stored although the turn has
    failed for the client. *)
Theorem second_terminal_callback :
  List.filter is_terminal_call
    (calls_of (Example.run (Example.env_late_timeout [Example.j_result ""])
                 Example.empty_world).1)
  = [onComplete "" None None; onError "Request timed out"]
  /\ Example.events (Example.env_late_timeout [Example.j_result ""]) Example.empty_world
     = [no_response "c1" no_output_message; error "Request timed out"]
  /\ List.filter is_terminal_call
       (calls_of (Sample.turn [Example.j_text "a"; Sample.j_failure "boom";
                               Example.j_result ""]).1)
     = [onError "boom"; onComplete "" None None]
  /\ (Sample.respond [Example.j_text "a"; Sample.j_failure "boom"; Example.j_result ""]).1
     = ([chunk "a"; error "boom"; complete "c1"],
        [createMessage "c1" "assistant" "a";
         sendMessageReadyNotification "c1" None "a"]).
Proof. by vm_compute. Qed.

(** C3. The code leaves two live session handles for one conversation.
    The second call evicts the first; the first call then leaves its read
    loop and its [finally] deletes the entry of the conversation, which is
    that of the second call; the third call finds no entry, kills nothing
    and spawns its child while the second call still reads the output of
    its child, which nothing has killed. Afterwards [cancelStream] reaches
    the third call only; and before the third call, when the first call
    has left its loop, [cancelStream] returns false although the second
    call reads. *)
Theorem evicted_call_unregisters_successor :
  List.map snd (Schedules.ran Schedules.three_calls).1
  = [Spawn 0 ["-p"; "--output-format"; "stream-json"; "--verbose"];
     TimerSet 0; RegistrySet "c1" 0; StdinWrite 0 "one"; StdinEnd 0; GetReader 0;
     TimerCleared 0; Kill 0 false; RegistryDelete "c1" (Some 0);
     Spawn 1 ["-p"; "--output-format"; "stream-json"; "--verbose"];
     TimerSet 1; RegistrySet "c1" 1; StdinWrite 1 "two"; StdinEnd 1; GetReader 1;
     TimerCleared 0; ReleaseLock 0; RegistryDelete "c1" (Some 1);
     Spawn 2 ["-p"; "--output-format"; "stream-json"; "--verbose"];
     TimerSet 2; RegistrySet "c1" 2; StdinWrite 2 "three"; StdinEnd 2; GetReader 2]
  /\ reads_for "c1" (Schedules.ran Schedules.three_calls).2 1 = true
  /\ reads_for "c1" (Schedules.ran Schedules.three_calls).2 2 = true
  /\ process <$> activeSessions (module_state (Schedules.ran Schedules.three_calls).2) !! "c1"
     = Some 2
  /\ (cancelStream (Example.env []) "c1"
        (module_state (Schedules.ran Schedules.three_calls).2)).1
     = (true, [TimerCleared 2; Kill 2 false; RegistryDelete "c1" (Some 2)])
  /\ reads_for "c1" (Schedules.ran (take 3 Schedules.three_calls)).2 1 = true
  /\ (cancelStream (Example.env []) "c1"
        (module_state (Schedules.ran (take 3 Schedules.three_calls)).2)).1
     = (false, []).
Proof. by vm_compute. Qed.

Lemma eviction_before_spawn_witness :
  wf_world Example.busy_world
  /\ activeSessions Example.busy_world !! "c1"
     = Some {| process := 0; sessionId := None; conversationId := "c1";
               currentSegment := ""; lastToolName := None; clearTimeout := 0 |}
  /\ exists rest,
       (Example.run (Example.env [Example.j_result ""]) Example.busy_world).1
       = [TimerCleared 0; Kill 0 false; RegistryDelete "c1" (Some 0);
          Spawn 1 ["-p"; "--output-format"; "stream-json"; "--verbose"];
          TimerSet 1; RegistrySet "c1" 1] ++ rest.
Proof.
  assert (wf_world Example.busy_world) as Hwf.
  { intros c s H. unfold Example.busy_world in H. cbn [activeSessions] in H.
    apply lookup_singleton_Some in H as [_ <-]. simpl. lia. }
  assert (activeSessions Example.busy_world !! "c1"
          = Some {| process := 0; sessionId := None; conversationId := "c1";
                    currentSegment := ""; lastToolName := None; clearTimeout := 0 |}) as Hex.
  { reflexivity. }
  split; [exact Hwf|]. split; [exact Hex|].
  exact (proj2 (eviction_before_spawn latin1_byte tt Example.parse
                  (Example.env [Example.j_result ""]) Example.busy_world
                  "hi" "c1" None None _ Hwf Hex)).
Defined.

(** ** Claims about the line decoder *)

Section DecoderClaims.

Context {decoder_state : Type}.
Context (decode_byte : decoder_state -> byte -> decoder_state * string).
Context (decoder_init : decoder_state).
Context (JSON_parse : string -> option StreamMessage).

Local Abbreviation objects_of := (decoded_objects decode_byte decoder_init JSON_parse).

(** The objects a turn hands over when its stream ends without a read
    error are the decoded objects of its chunks. *)
Lemma handed_over_done env :
  read_fails env = false ->
  handed_over decode_byte decoder_init JSON_parse env
  = objects_of (List.map snd (reads env)).
Proof.
  intros Hdone. unfold handed_over, decoded_objects. rewrite Hdone.
  by destruct (feed _ _ _ _) as [[st buffer] lines].
Qed.

(** When neither the timer nor the read loop interferes, the calls of a
    turn are those of the decoded objects of its chunks. *)
Lemma calls_of_undisturbed_turn env w message conversationId resume allowedTools :
  stdin env = stdin_ok -> timer_fires env = false -> read_fails env = false ->
  calls_of (runClaudeStreaming decode_byte decoder_init JSON_parse message conversationId
              resume allowedTools env w).1
  = calls_made (handle_all (objects_of (List.map snd (reads env))))
      (new_session (next_process w) conversationId resume).
Proof.
  intros Hstdin Htimer Hread.
  destruct (turn_calls decode_byte decoder_init JSON_parse env w message conversationId
              resume allowedTools Hstdin) as (calls1 & calls2 & -> & Hall).
  rewrite <- handed_over_done, <- Hall by done. rewrite Htimer.
  unfold read_error_call, read_fails in *. destruct (final_read env).2; [|done].
  simpl. by rewrite app_nil_r.
Qed.

(** C7. However a stream of bytes is cut into chunks, the read loop of
    [runClaudeStreaming], with the parse of the rest of the buffer at the
    end of the stream, hands over the same objects in the same order as
    for the whole stream in one chunk; and the read loop of [runClaude]
    computes the same response. This holds for every stream, valid or
    not. *)
Theorem chunking_does_not_matter (chunks : list (list byte)) :
  decoded_objects decode_byte decoder_init JSON_parse chunks
  = decoded_objects decode_byte decoder_init JSON_parse [concat chunks]
  /\ forall acc,
       runClaude_loop decode_byte JSON_parse chunks decoder_init "" acc
       = runClaude_loop decode_byte JSON_parse [concat chunks] decoder_init "" acc.
Proof.
  assert (feed decode_byte chunks decoder_init ""
          = feed decode_byte [concat chunks] decoder_init "") as Hfeed.
  { rewrite !feed_concat by done. simpl. by rewrite app_nil_r. }
  split.
  - unfold decoded_objects. by rewrite Hfeed.
  - intros acc. by rewrite !runClaude_loop_feed, Hfeed.
Qed.

(** C8. A complete line on which [JSON.parse] throws is dropped: the loop
    over the lines goes on, the session it leaves and the calls it makes
    (so also the error calls) are those of the lines before and after it,
    and the objects parsed from those lines are the same. *)
Theorem unparsed_line_is_dropped (before after : list string) (bad : string)
    (session : StreamSession) :
  JSON_parse bad = None ->
  exec (for_each (handle_line JSON_parse) (before ++ bad :: after)) session
  = exec (for_each (handle_line JSON_parse) (before ++ after)) session
  /\ omap (parse_line JSON_parse) (before ++ bad :: after)
     = omap (parse_line JSON_parse) (before ++ after).
Proof.
  intros Hbad.
  assert (parse_line JSON_parse bad = None) as Hline.
  { unfold parse_line. by case_match. }
  split; [by apply exec_lines_unparsed|].
  by rewrite !omap_app, omap_cons, Hline.
Qed.

End DecoderClaims.

Lemma unparsed_line_is_dropped_witness :
  Example.parse "Warning: no config" = None
  /\ exec (for_each (handle_line Example.parse)
             ([JSON.stringify (Example.j_text "a")]
              ++ "Warning: no config" :: [JSON.stringify (Example.j_result "")]))
       (new_session 0 "c1" None)
     = exec (for_each (handle_line Example.parse)
               ([JSON.stringify (Example.j_text "a")]
                ++ [JSON.stringify (Example.j_result "")]))
         (new_session 0 "c1" None).
Proof.
  assert (Example.parse "Warning: no config" = None) as Hbad by reflexivity.
  split; [exact Hbad|].
  exact (proj1 (unparsed_line_is_dropped Example.parse
                  [JSON.stringify (Example.j_text "a")]
                  [JSON.stringify (Example.j_result "")]
                  "Warning: no config" (new_session 0 "c1" None) Hbad)).
Defined.

(** ** Claims about the events of a turn *)

Section EventClaims.

Implicit Types (session : StreamSession) (msg : StreamMessage) (c : callback)
  (conv : Conversation) (state : StreamingState).

(** C4 (amended). For the signals TextDelta "a", ToolInvoked "Bash",
    TextDelta "b" and a successful result with an empty text, however the
    three blocks are grouped into assistant events, the client receives
    chunk "a", segment_end "a", tool_start "Bash", tool_end "Bash",
    chunk "b" and then complete: the segment "b" is not finalized by a
    segment_end at the result, it stays the current segment. No tool_end
    is sent before the text "b" arrives. *)
Theorem interleaved_tool_event_order conv claudeSessionId (proc : nat)
    (groups : list (list ContentBlock)) :
  concat groups = [text_block "a"; tool_use_block "Bash"; text_block "b"] ->
  let session := new_session proc (id conv) claudeSessionId in
  events_of conv
    (calls_made (handle_all ((assistant_event <$> groups) ++ [success_event ""])) session)
    initial_state
  = [chunk "a"; segment_end (id conv) "a"; tool_start "Bash"; tool_end "Bash";
     chunk "b"; complete (id conv)]
  /\ forall earlier : list (list ContentBlock),
       concat earlier = [text_block "a"; tool_use_block "Bash"] ->
       List.filter is_tool_end
         (events_of conv (calls_made (handle_all (assistant_event <$> earlier)) session)
            initial_state)
       = [].
Proof.
  intros Hblocks session. split.
  - rewrite handle_all_app, calls_made_assistant_events, session_after_assistant_events.
    rewrite Hblocks. by vm_compute.
  - intros earlier Hearlier. rewrite calls_made_assistant_events, Hearlier. by vm_compute.
Qed.

(** C5 (amended). When a result event that reports success is handled, the
    pending tool, if there is one, is ended first; then, if the
    deduplicated denials are not empty, permission_required is sent;
    otherwise, if there is a finalized segment or the current segment is
    not white space only, complete is sent; otherwise no_response is sent.
    A turn whose events before the result carry no text and invoke no
    tool, and whose result has no denials, sends no_response and nothing
    else. *)
Theorem terminal_event_of_success conv msg session state :
  is_success msg = true ->
  let denials := deduplicatePermissionDenials (default [] (permission_denials msg)) in
  let events := events_of conv (calls_made (handleStreamMessage msg) session) state in
  (denials <> [] ->
   events = pending_tool_events session ++ [permission_required (id conv) denials])
  /\ (denials = [] ->
      segments state <> [] \/ Str.whitespace_only (state_currentSegment state) = false ->
      events = pending_tool_events session ++ [complete (id conv)])
  /\ (denials = [] ->
      segments state = [] -> Str.whitespace_only (state_currentSegment state) = true ->
      events = pending_tool_events session ++ [no_response (id conv) no_output_message])
  /\ (lastToolName session = None -> pending_tool_events session = [])
  /\ forall (quiet : list StreamMessage) (proc : nat) claudeSessionId,
       forallb is_quiet quiet = true -> denials = [] ->
       events_of conv
         (calls_made (handle_all (quiet ++ [msg])) (new_session proc (id conv) claudeSessionId))
         initial_state
       = [no_response (id conv) no_output_message].
Proof.
  intros Hsucc denials events.
  assert (forall s st, events_of conv (calls_made (handleStreamMessage msg) s) st
          = pending_tool_events s
            ++ (createStreamingCallbacks conv
                  (onComplete (or_else (result msg) "") (sessionId s) (reported_denials msg))
                  st).2) as Hevents.
  { intros s st. rewrite calls_made_success, events_of_app by done.
    destruct (events_of_pending_tool_end conv s st) as [-> ->].
    by rewrite events_of_cons, app_nil_r. }
  assert (denials <> [] ->
          forall s st,
            (createStreamingCallbacks conv
               (onComplete (or_else (result msg) "") (sessionId s) (reported_denials msg)) st).2
            = [permission_required (id conv) denials]) as Hdenied.
  { subst denials. intros Hne s st. unfold reported_denials.
    destruct (permission_denials msg) as [[|d ds]|]; try done.
    all: try (simpl; by rewrite deduplicate_cons). }
  assert (denials = [] ->
          forall s st,
            (createStreamingCallbacks conv
               (onComplete (or_else (result msg) "") (sessionId s) (reported_denials msg)) st).2
            = if Str.has_text (state_currentSegment st) || negb (Nat.eqb (length (segments st)) 0)
              then [complete (id conv)]
              else [no_response (id conv) no_output_message]) as Hgranted.
  { subst denials. intros He s st. unfold reported_denials.
    destruct (permission_denials msg) as [[|d ds]|]; try done.
    all: try (simpl in He; by rewrite deduplicate_cons in He). }
  subst events. repeat split.
  - intros Hne. by rewrite Hevents, Hdenied.
  - intros He Hvisible. rewrite Hevents, Hgranted by done.
    destruct Hvisible as [Hseg|Htext].
    + destruct (segments state); [done|]. by rewrite orb_true_r.
    + apply StrFacts.has_text_spec in Htext. by rewrite Htext.
  - intros He Hseg Htext. rewrite Hevents, Hgranted by done.
    apply StrFacts.has_text_false in Htext. by rewrite Htext, Hseg.
  - unfold pending_tool_events. by intros ->.
  - intros quiet proc claudeSessionId Hquiet He.
    rewrite handle_all_app.
    destruct (quiet_events quiet (new_session proc (id conv) claudeSessionId) Hquiet)
      as (-> & Hsegment & Htool).
    set (session' := session_after (handle_all quiet) _) in *.
    assert (calls_made (handle_all [msg]) session'
            = calls_made (handleStreamMessage msg) session') as ->.
    { unfold handle_all. rewrite calls_made_for_each_cons. apply app_nil_r. }
    cbn [app]. rewrite Hevents, Hgranted by done.
    unfold pending_tool_events. by rewrite Htool.
Qed.


(** C9. Text that is white space only counts as no text: when a tool is
    invoked while the current segment is such a text, [onSegmentEnd] is not
    called and the segment is kept; the callback [onSegmentEnd] called
    with such a text writes no event and stores no segment; no call
    [onSegmentEnd] and no segment_end event of any stream carries such a
    text; with such a current segment the terminal event is the one an
    empty current segment gives; and [persistStreamResult] creates the
    messages an empty current segment gives, and after any calls no
    message that is white space only. *)
Theorem whitespace_only_text_is_no_text (text : string) :
  Str.whitespace_only text = true ->
  (forall session block name,
     currentSegment session = text -> text_of block = None -> tool_of block = Some name ->
     exec (handle_block block) session
     = (set_lastToolName (Some name) session, [onToolStart name]))
  /\ (forall conv state,
        createStreamingCallbacks conv (onSegmentEnd text) state
        = (with_currentSegment "" state, []))
  /\ (forall msgs session content,
        onSegmentEnd content ∈ calls_made (handle_all msgs) session ->
        Str.whitespace_only content = false)
  /\ (forall conv calls state cid content,
        segment_end cid content ∈ events_of conv calls state ->
        Str.whitespace_only content = false)
  /\ (forall conv state res sid denials,
        state_currentSegment state = text ->
        (createStreamingCallbacks conv (onComplete res sid denials) state).2
        = (createStreamingCallbacks conv (onComplete res sid denials)
             (with_currentSegment "" state)).2)
  /\ (forall newTitle conv state,
        state_currentSegment state = text ->
        persistStreamResult newTitle conv state
        = persistStreamResult newTitle conv (with_currentSegment "" state))
  /\ (forall newTitle conv calls cid r content,
        createMessage cid r content
          ∈ persistStreamResult newTitle conv (state_after conv calls initial_state) ->
        Str.whitespace_only content = false).
Proof.
  intros Hblank. apply StrFacts.has_text_false in Hblank as Hno_text.
  repeat split.
  - intros session block name Hcur Htext Htool.
    rewrite exec_eq, session_after_handle_block, calls_made_handle_block.
    by rewrite Htext, Htool, Hcur, Hno_text.
  - intros conv state. simpl. by rewrite Hno_text.
  - apply segment_end_calls_have_text.
  - apply segment_end_events_have_text.
  - intros conv state res sid denials Hcur. simpl. by rewrite Hcur, Hno_text.
  - intros newTitle conv state Hcur. unfold persistStreamResult, storeSegments. simpl.
    by rewrite Hcur, Hno_text.
  - intros newTitle conv calls cid r content. apply persisted_messages_have_text.
    by apply segments_have_text.
Qed.

(** C6. [deduplicatePermissionDenials] returns exactly the first
    occurrences of the denials, one for each tool name and serialised
    input, in the order in which they come in the input, whatever the
    [tool_use_id] of the denials: the result is the one list whose items
    are those at the positions of the input that hold the first denial
    with its tool name and serialised input, taken in increasing order.
    So it keeps the denials in the order of the input, keeps no two with
    the same tool name and serialised input, and keeps a denial exactly
    when it is such a first one; of the three denials of the example it
    keeps the first and the third. *)
Theorem deduplicate_keeps_first_occurrences (denials : list PermissionDenial) :
  let kept := deduplicatePermissionDenials denials in
  (forall kept', first_occurrences composite_key denials kept' <-> kept' = kept)
  /\ sublist kept denials
  /\ NoDup (composite_key <$> kept)
  /\ (forall d, d ∈ kept <-> exists i, first_with_key composite_key denials i d)
  /\ deduplicatePermissionDenials ex_denials
     = [ {| tool_name := "Write"; tool_use_id := "1";
            tool_input := [("path", JString "/a")] |};
         {| tool_name := "Bash"; tool_use_id := "3";
            tool_input := [("cmd", JString "ls")] |} ].
Proof.
  assert (forall i d, first_with_key composite_key denials i d
                      <-> first_with_key denial_key denials i d) as Hkey.
  { intros i d. unfold first_with_key. split; intros [Hi Hfirst]; (split; [done|]);
      intros j d' Hj Hd' Heq; apply (Hfirst j d' Hj Hd'); by apply denial_key_inj. }
  intros kept.
  assert (first_occurrences composite_key denials kept) as Hkept.
  { destruct (filter_unseen_positions ∅ denials) as (positions & Hup & Hin & Hitems).
    exists positions. split; [done|]. split; [|done].
    intros i. rewrite Hin. split.
    - intros (d & Hfirst & _). exists d. by apply Hkey.
    - intros (d & Hfirst). exists d. split; [by apply Hkey|]. apply not_elem_of_empty. }
  split.
  { intros kept'. split; [|by intros ->].
    intros Hkept'. by apply (first_occurrences_unique composite_key denials). }
  repeat split.
  - apply filter_unseen_sublist.
  - pose proof (filter_unseen_NoDup ∅ denials) as Hnodup.
    fold (deduplicatePermissionDenials denials) in Hnodup. fold kept in Hnodup.
    clearbody kept. clear Hkept. induction kept as [|d kept IH]; [constructor|].
    rewrite fmap_cons in *. apply NoDup_cons in Hnodup as [Hd Hnodup].
    constructor; [|by apply IH].
    intros (d' & Heq & Hd')%list_elem_of_fmap. apply Hd.
    apply list_elem_of_fmap. exists d'. split; [|done]. by apply denial_key_inj.
  - intros Hd. apply filter_unseen_kept_first in Hd as [i Hi]. exists i. by apply Hkey.
  - intros [i Hi]. apply (filter_unseen_keeps_first ∅ denials i); [by apply Hkey|set_solver].
Qed.

End EventClaims.

Section SessionIdClaim.

Context {decoder_state : Type}.
Context (decode_byte : decoder_state -> byte -> decoder_state * string).
Context (decoder_init : decoder_state).
Context (JSON_parse : string -> option StreamMessage).

Local Abbreviation turn := (runClaudeStreaming decode_byte decoder_init JSON_parse).
Local Abbreviation objects := (handed_over decode_byte decoder_init JSON_parse).


End SessionIdClaim.

(** C4, as claimed, fails: at the result no segment_end is sent for the
    segment "b". *)
Lemma last_segment_is_not_finalized :
  events_of Example.conversation
    (calls_made
       (handle_all [Example.text_delta "a"; Example.tool_invoked "Bash";
                    Example.text_delta "b"; Example.turn_succeeded ""])
       (new_session 0 "c1" None))
    initial_state
  <> [chunk "a"; segment_end "c1" "a"; tool_start "Bash"; tool_end "Bash";
      chunk "b"; segment_end "c1" "b"; complete "c1"].
Proof. vm_compute. discriminate. Qed.

Lemma interleaved_tool_event_order_witness :
  concat [[text_block "a"]; [tool_use_block "Bash"]; [text_block "b"]]
  = [text_block "a"; tool_use_block "Bash"; text_block "b"]
  /\ events_of Example.conversation
       (calls_made
          (handle_all
             ((assistant_event <$> [[text_block "a"]; [tool_use_block "Bash"]; [text_block "b"]])
              ++ [success_event ""]))
          (new_session 0 "c1" None))
       initial_state
     = [chunk "a"; segment_end "c1" "a"; tool_start "Bash"; tool_end "Bash";
        chunk "b"; complete "c1"].
Proof.
  split; [reflexivity|].
  exact (proj1 (interleaved_tool_event_order Example.conversation None 0
                  [[text_block "a"]; [tool_use_block "Bash"]; [text_block "b"]]
                  eq_refl)).
Defined.

(** C5, as claimed, fails when the text of the turn is white space: the
    current segment has text, and no_response is sent, not complete. And
    when a tool is still pending at the result, no_response is not the
    single callback of the result: tool_end comes before it. *)
Lemma whitespace_text_is_no_response :
  let calls :=
    calls_made (handle_all [Example.text_delta " "; Example.turn_succeeded ""])
      (new_session 0 "c1" None) in
  let invoked := session_after (handleStreamMessage (Example.tool_invoked "Bash"))
                   (new_session 0 "c1" None) in
  state_currentSegment (state_after Example.conversation calls initial_state) = " "
  /\ events_of Example.conversation calls initial_state
     = [chunk " "; no_response "c1" no_output_message]
  /\ events_of Example.conversation
       (calls_made (handleStreamMessage (Example.turn_succeeded "")) invoked) initial_state
     = [tool_end "Bash"; no_response "c1" no_output_message].
Proof. by vm_compute. Qed.

Lemma terminal_event_of_success_witness :
  is_success (success_event "") = true
  /\ events_of Example.conversation
       (calls_made (handle_all ([Example.j_init_event] ++ [success_event ""]))
          (new_session 0 "c1" None))
       initial_state
     = [no_response "c1" no_output_message].
Proof.
  split; [reflexivity|].
  exact (proj2 (proj2 (proj2 (proj2
           (terminal_event_of_success Example.conversation (success_event "")
              (new_session 0 "c1" None) initial_state eq_refl))))
           [Example.j_init_event] 0 None eq_refl eq_refl).
Defined.

Lemma whitespace_only_text_is_no_text_witness :
  Str.whitespace_only " " = true
  /\ createStreamingCallbacks Example.conversation (onSegmentEnd " ") initial_state
     = (with_currentSegment "" initial_state, []).
Proof.
  split; [reflexivity|].
  exact (proj1 (proj2 (whitespace_only_text_is_no_text " " eq_refl))
           Example.conversation initial_state).
Defined.


(** ** The registry of sessions *)

Section RegistryFacts.

Context {decoder_state : Type}.
Context (decode_byte : decoder_state -> byte -> decoder_state * string).
Context (decoder_init : decoder_state).
Context (JSON_parse : string -> option StreamMessage).

Implicit Types (env : turn_env) (w : world) (message conversationId : string)
  (claudeSessionId : option string) (allowedTools : option (list string))
  (r : reading (decoder_state := decoder_state)).

Lemma await_read_in_the_loop env proc elapsed timedOut :
  forallb in_the_loop (await_read env proc elapsed timedOut).2 = true.
Proof. unfold await_read. by destruct elapsed, timedOut. Qed.

Lemma Invoke_in_the_loop calls : forallb in_the_loop (List.map Invoke calls) = true.
Proof. by induction calls. Qed.

Lemma read_loop_in_the_loop env chunks r :
  forallb in_the_loop (read_loop decode_byte JSON_parse env chunks r).2 = true.
Proof.
  revert r. induction chunks as [|[elapsed value] chunks IH]; intros r; [done|].
  rewrite read_loop_cons. cbn zeta. cbn [snd].
  by rewrite !forallb_app, await_read_in_the_loop, Invoke_in_the_loop, IH.
Qed.

Lemma end_of_stream_in_the_loop env r :
  forallb in_the_loop (end_of_stream JSON_parse env r).2 = true.
Proof.
  rewrite end_of_stream_eq. cbn zeta.
  destruct (final_read env).2; cbn [snd];
    rewrite forallb_app, await_read_in_the_loop; cbn [andb].
  - apply Invoke_in_the_loop.
  - by case_match.
Qed.

(** What is not an effect of the loop is not among the effects of the
    loop. *)
Lemma filter_in_the_loop (keep : effect -> bool) effects :
  (forall e, in_the_loop e = true -> keep e = false) ->
  forallb in_the_loop effects = true ->
  List.filter keep effects = [].
Proof.
  intros Hkeep. induction effects as [|e effects IH]; [done|].
  cbn [forallb]. intros [He Hrest]%andb_true_iff. cbn [List.filter].
  by rewrite (Hkeep e He), IH.
Qed.

(** X1. [cancelStream] for a conversation with a registered session
    returns true, clears the timer of the session, kills its process and
    deletes its entry; the sessions of the other conversations stay, the
    count of active sessions goes down by one, and cancelling again
    returns false and does nothing. *)
Theorem cancelStream_of_registered env conversationId w existing :
  activeSessions w !! conversationId = Some existing ->
  let cancelled := cancelStream env conversationId w in
  cancelled.1.1 = true
  /\ cancelled.1.2
     = [TimerCleared (clearTimeout existing);
        Kill (process existing) (kill_throws env (process existing));
        RegistryDelete conversationId (Some (process existing))]
  /\ activeSessions cancelled.2 !! conversationId = None
  /\ (forall other, other <> conversationId ->
        activeSessions cancelled.2 !! other = activeSessions w !! other)
  /\ S (getActiveSessionCount cancelled.2) = getActiveSessionCount w
  /\ forall env', cancelStream env' conversationId cancelled.2 = (false, [], cancelled.2).
Proof.
  intros Hex. unfold cancelStream, terminate, registry_delete, try_kill, getActiveSessionCount.
  rewrite Hex. cbn. repeat split.
  - apply lookup_delete_eq.
  - intros other Hne. by apply lookup_delete_ne.
  - rewrite map_size_delete, Hex. apply Nat.succ_pred.
    eapply map_size_ne_0_lookup_2. by rewrite Hex.
  - intros env'. unfold cancelStream. cbn. by rewrite lookup_delete_eq.
Qed.

(** X2. A turn spawns exactly one process, and when it is over the registry
    is the one it found without the entry of its conversation: no session
    of the turn stays behind, the sessions of the other conversations are
    not touched, and the count of active sessions does not grow. *)
Theorem turn_leaves_registry env w message conversationId claudeSessionId allowedTools :
  let finished :=
    runClaudeStreaming decode_byte decoder_init JSON_parse message conversationId
      claudeSessionId allowedTools env w in
  activeSessions finished.2 = delete conversationId (activeSessions w)
  /\ next_process finished.2 = S (next_process w)
  /\ List.filter is_spawn finished.1
     = [Spawn (next_process w) (turn_args env claudeSessionId allowedTools)]
  /\ getActiveSessionCount finished.2 <= getActiveSessionCount w.
Proof.
  cbn zeta.
  assert (activeSessions
            (runClaudeStreaming decode_byte decoder_init JSON_parse message conversationId
               claudeSessionId allowedTools env w).2
          = delete conversationId (activeSessions w)
          /\ next_process
               (runClaudeStreaming decode_byte decoder_init JSON_parse message conversationId
                  claudeSessionId allowedTools env w).2
             = S (next_process w)) as [Hreg Hnext].
  { unfold runClaudeStreaming, terminate, registry_delete.
    destruct (activeSessions w !! conversationId) as [existing|]; cbn;
      destruct (stdin_error (stdin env)); cbn;
      repeat (match goal with |- context [let '(_, _) := ?x in _] => destruct x end; cbn);
      by rewrite delete_insert_eq, ?delete_delete_eq. }
  repeat split; [done|done| |].
  - assert (forall e, in_the_loop e = true -> is_spawn e = false) as Hloop
      by (by intros []).
    assert (List.filter is_spawn (eviction env conversationId w) = []) as Hevict.
    { unfold eviction. by case_match. }
    destruct (stdin_error (stdin env)) as [e|] eqn:Hstdin.
    + rewrite (turn_unwritten _ _ _ _ _ _ _ _ _ e) by done. cbn zeta.
      rewrite !List.filter_app, Hevict.
      by destruct (stdin env).
    + assert (stdin env = stdin_ok) as Hok by (by destruct (stdin env)).
      rewrite turn_written by done. cbn zeta.
      rewrite !List.filter_app, Hevict.
      rewrite (filter_in_the_loop _ _ Hloop (read_loop_in_the_loop _ _ _)).
      rewrite (filter_in_the_loop _ _ Hloop (end_of_stream_in_the_loop _ _)).
      unfold registry_delete, exit_effects. cbn.
      by repeat case_match.
  - unfold getActiveSessionCount. rewrite Hreg. unfold getActiveSessionCount. rewrite map_size_delete.
    destruct (activeSessions w !! conversationId); simpl; lia.
Qed.

(** X30. From any state of the system, the events of a turn that nothing
    interleaves with (the call, its reads with the timer where the script
    of the turn says its time is up, the end of the stream, the exit of
    the child and the read of its error output) do what
    [runClaudeStreaming] says for the script: the same effects in the same
    order, all of them by the call of the turn, and the same registry and
    next process name. *)
Theorem undisturbed_turn_is_runClaudeStreaming env message conversationId claudeSessionId
    allowedTools (s : system (decoder_state := decoder_state)) :
  let proc := next_process (module_state s) in
  let alone :=
    runClaudeStreaming decode_byte decoder_init JSON_parse message conversationId
      claudeSessionId allowedTools env (module_state s) in
  let ran :=
    run decode_byte decoder_init JSON_parse env
      (undisturbed message conversationId claudeSessionId allowedTools env proc) s in
  ran.1 = List.map (pair (Some proc)) alone.1
  /\ module_state ran.2 = alone.2.
Proof. apply undisturbed_turn. Qed.

End RegistryFacts.

(** ** The callbacks of a stream of events *)

Section EventFacts.

Implicit Types (session : StreamSession) (msg : StreamMessage) (c : callback)
  (msgs : list StreamMessage) (calls : list callback) (conv : Conversation)
  (state : StreamingState).

(** A relation between the session before some events, the calls they make
    and the session after them holds for every list of events when it
    holds for no event, for one block, for one event that is not an
    assistant event, and for one list of events after another. *)
Lemma handle_all_relates (P : StreamSession -> list callback -> StreamSession -> Prop) :
  (forall session, P session [] session) ->
  (forall s1 calls1 s2 calls2 s3,
     P s1 calls1 s2 -> P s2 calls2 s3 -> P s1 (calls1 ++ calls2) s3) ->
  (forall block session,
     P session (calls_made (handle_block block) session)
       (session_after (handle_block block) session)) ->
  (forall msg session,
     String.eqb (msg_type msg) "assistant" = false ->
     P session (calls_made (handleStreamMessage msg) session)
       (session_after (handleStreamMessage msg) session)) ->
  forall msgs session,
    P session (calls_made (handle_all msgs) session) (session_after (handle_all msgs) session).
Proof.
  intros Hrefl Htrans Hblock Hother.
  assert (forall blocks session,
            P session (calls_made (for_each handle_block blocks) session)
              (session_after (for_each handle_block blocks) session)) as Hblocks.
  { induction blocks as [|block blocks IH]; intros session; [apply Hrefl|].
    rewrite calls_made_for_each_cons, session_after_for_each_cons.
    eapply Htrans; [apply Hblock|apply IH]. }
  induction msgs as [|msg msgs IH]; intros session; [apply Hrefl|].
  unfold handle_all in *.
  rewrite calls_made_for_each_cons, session_after_for_each_cons.
  eapply Htrans; [|apply IH].
  destruct (String.eqb (msg_type msg) "assistant") eqn:Hassistant.
  - rewrite handle_assistant by done. apply Hblocks.
  - by apply Hother.
Qed.

Lemma tool_protocol_app pending calls1 calls2 :
  tool_protocol pending (calls1 ++ calls2)
  = match tool_protocol pending calls1 with
    | Some pending' => tool_protocol pending' calls2
    | None => None
    end.
Proof.
  revert pending. induction calls1 as [|c calls1 IH]; intros pending; [done|].
  destruct c; cbn [app tool_protocol]; try apply IH.
  - by case_bool_decide.
  - by destruct pending.
  - by destruct pending.
Qed.

Lemma some_text_tool_of block name : tool_of block = Some name -> some_text (Some name) = Some name.
Proof.
  unfold tool_of. case_match; [|done]. unfold some_text.
  destruct (block_name block) as [n|]; [|done]. case_match eqn:Hn; [|done].
  intros [= <-]. by rewrite Hn.
Qed.

(** X3. The calls of any list of events follow the tools protocol: a
    tool_end names the tool that was started last and has not been ended,
    and the call a result event makes ([onComplete] or [onError]) comes
    when no tool is pending; the tool that is pending after the events is
    the one the session holds. *)
Theorem tool_calls_follow_protocol msgs session :
  tool_protocol (some_text (lastToolName session)) (calls_made (handle_all msgs) session)
  = Some (some_text (lastToolName (session_after (handle_all msgs) session))).
Proof.
  revert msgs session.
  apply (handle_all_relates
           (fun s1 calls s2 =>
              tool_protocol (some_text (lastToolName s1)) calls
              = Some (some_text (lastToolName s2)))).
  - done.
  - intros s1 calls1 s2 calls2 s3 H1 H2. by rewrite tool_protocol_app, H1.
  - intros block session.
    rewrite calls_made_handle_block, session_after_handle_block.
    unfold pending_tool_end, without_pending_tool.
    destruct (text_of block) as [text|].
    + destruct (some_text (lastToolName session)) as [name|] eqn:Hpending; cbn.
      * by rewrite bool_decide_eq_true_2.
      * by rewrite Hpending.
    + destruct (tool_of block) as [name|] eqn:Htool; [|done].
      rewrite tool_protocol_app.
      assert (forall pending,
                tool_protocol pending
                  (if Str.has_text (currentSegment session)
                   then [onSegmentEnd (currentSegment session)] else [])
                = Some pending) as -> by (intros ?; by case_match).
      cbn [tool_protocol]. f_equal.
      rewrite <- (some_text_tool_of _ _ Htool) at 1. by case_match.
  - intros msg session Hassistant.
    destruct (event_cases msg) as [H|[H|[H|[H|[_ H]]]]].
    + rewrite calls_made_system, session_after_system by done. by case_match.
    + congruence.
    + rewrite calls_made_result, session_after_result by done.
      unfold pending_tool_end, without_pending_tool.
      destruct (some_text (lastToolName session)) as [name|] eqn:Hpending; cbn.
      * rewrite bool_decide_eq_true_2 by done. by case_bool_decide.
      * rewrite Hpending. by case_bool_decide.
    + rewrite calls_made_user, session_after_user by done. by case_match.
    + unfold calls_made, session_after. by rewrite H.
Qed.

Lemma chunked_text_app events1 events2 :
  chunked_text (events1 ++ events2) = chunked_text events1 +:+ chunked_text events2.
Proof.
  induction events1 as [|e events1 IH]; [done|].
  destruct e; cbn [app chunked_text]; try done.
  by rewrite IH, StrFacts.app_assoc.
Qed.

Lemma concat_text_app texts1 texts2 :
  concat_text (texts1 ++ texts2) = concat_text texts1 +:+ concat_text texts2.
Proof.
  induction texts1 as [|text texts1 IH]; [done|].
  cbn [app concat_text]. by rewrite IH, StrFacts.app_assoc.
Qed.

(** The copy of the current segment the callbacks keep follows the one of
    the session, and the text of the chunks is the text of the segments. *)
Lemma segments_follow_session conv msgs session state :
  state_currentSegment state = currentSegment session ->
  let calls := calls_made (handle_all msgs) session in
  let session' := session_after (handle_all msgs) session in
  let state' := state_after conv calls state in
  state_currentSegment state' = currentSegment session'
  /\ segments state' = segments state ++ ended_segments (events_of conv calls state)
  /\ concat_text (segments state) +:+ currentSegment session
       +:+ chunked_text (events_of conv calls state)
     = concat_text (segments state') +:+ currentSegment session'.
Proof.
  cbn zeta. revert state. revert msgs session.
  apply (handle_all_relates
           (fun s1 calls s2 =>
              forall state,
                state_currentSegment state = currentSegment s1 ->
                state_currentSegment (state_after conv calls state) = currentSegment s2
                /\ segments (state_after conv calls state)
                   = segments state ++ ended_segments (events_of conv calls state)
                /\ concat_text (segments state) +:+ currentSegment s1
                     +:+ chunked_text (events_of conv calls state)
                   = concat_text (segments (state_after conv calls state))
                     +:+ currentSegment s2)).
  - intros session state Hstate. cbn. by rewrite !app_nil_r, !StrFacts.app_nil_r.
  - intros s1 calls1 s2 calls2 s3 H1 H2 state Hstate.
    destruct (H1 state Hstate) as (Hcur1 & Hseg1 & Htext1).
    destruct (H2 _ Hcur1) as (Hcur2 & Hseg2 & Htext2).
    rewrite state_after_app, events_of_app. split; [done|]. split.
    + rewrite Hseg2, Hseg1. unfold ended_segments. by rewrite omap_app, (assoc (++)).
    + rewrite chunked_text_app, <- Htext2.
      rewrite <- (StrFacts.app_assoc _ (currentSegment s2)), <- Htext1.
      by rewrite !StrFacts.app_assoc.
  - intros block session state Hstate.
    rewrite calls_made_handle_block, session_after_handle_block.
    unfold pending_tool_end, without_pending_tool.
    destruct (text_of block) as [text|].
    + destruct (some_text (lastToolName session)) as [name|]; cbn; rewrite Hstate;
        by rewrite ?app_nil_r, ?StrFacts.app_nil_r, ?StrFacts.app_assoc.
    + destruct (tool_of block) as [name|]; [|by cbn; rewrite ?app_nil_r, ?StrFacts.app_nil_r].
      unfold state_after, events_of.
      destruct (Str.has_text (currentSegment session)) eqn:Htext; cbn -[Str.has_text].
      * rewrite Htext. cbn. rewrite concat_text_app. cbn.
        by rewrite ?StrFacts.app_nil_r, ?StrFacts.app_assoc.
      * by rewrite ?app_nil_r, ?StrFacts.app_nil_r.
  - intros msg session Hassistant state Hstate.
    destruct (event_cases msg) as [H|[H|[H|[H|[_ H]]]]].
    + rewrite calls_made_system, session_after_system by done.
      cbn. rewrite ?app_nil_r, ?StrFacts.app_nil_r. by case_match.
    + congruence.
    + rewrite calls_made_result, session_after_result by done.
      unfold pending_tool_end, without_pending_tool.
      destruct (some_text (lastToolName session)) as [name|]; case_bool_decide; cbn;
        repeat case_match; cbn; by rewrite ?app_nil_r, ?StrFacts.app_nil_r.
    + rewrite calls_made_user, session_after_user by done.
      destruct (command_stdout msg) as [inner|]; cbn; rewrite ?Hstate;
        by rewrite ?app_nil_r, ?StrFacts.app_nil_r, ?StrFacts.app_assoc.
    + unfold calls_made, session_after. rewrite H. cbn.
      by rewrite ?app_nil_r, ?StrFacts.app_nil_r.
Qed.

(** X4. Whatever the events of a turn are, the text the client receives
    in chunks is the text of the segments whose end it is told followed by
    the segment that is current; that segment is the one the session of
    the bridge holds. *)
Theorem segments_account_for_chunks msgs conv (proc : nat) (conversationId : string)
    (resume : option string) :
  let session0 := new_session proc conversationId resume in
  let calls := calls_made (handle_all msgs) session0 in
  let events := events_of conv calls initial_state in
  let state := state_after conv calls initial_state in
  state_currentSegment state = currentSegment (session_after (handle_all msgs) session0)
  /\ segments state = ended_segments events
  /\ chunked_text events = concat_text (ended_segments events) +:+ state_currentSegment state.
Proof.
  cbn zeta.
  destruct (segments_follow_session conv msgs (new_session proc conversationId resume)
              initial_state eq_refl) as (Hcur & Hseg & Htext).
  cbn zeta in *. cbn [segments initial_state app] in Hseg.
  split; [done|]. split; [done|].
  rewrite <- Hseg, Hcur, <- Htext. done.
Qed.

(** *** The output of a slash command *)

Lemma prefix_app (needle rest : string) : String.prefix needle (needle +:+ rest) = true.
Proof.
  induction needle as [|ch needle IH]; [by destruct rest|].
  change (String ch needle +:+ rest) with (String ch (needle +:+ rest)).
  cbn [String.prefix]. by destruct (ascii_dec ch ch).
Qed.

Lemma drop_app (needle rest : string) : Str.drop (String.length needle) (needle +:+ rest) = rest.
Proof. induction needle as [|ch needle IH]; [by destruct rest|]. exact IH. Qed.

(** A needle is found where it first stands when its first character does
    not occur before. *)
Lemma cut_first (ch : ascii) (needle before rest : string) :
  occurs ch before = false ->
  Str.cut (String ch needle) (before +:+ String ch needle +:+ rest) = Some (before, rest).
Proof.
  intros Hbefore. induction before as [|b before IH].
  - change ("" +:+ String ch needle +:+ rest) with (String ch (needle +:+ rest)).
    cbn [Str.cut].
    change (String ch (needle +:+ rest)) with (String ch needle +:+ rest) at 1.
    rewrite prefix_app.
    change (String ch (needle +:+ rest)) with (String ch needle +:+ rest).
    by rewrite drop_app.
  - cbn [occurs] in Hbefore. apply orb_false_iff in Hbefore as [Hb Hbefore].
    change (String b before +:+ String ch needle +:+ rest)
      with (String b (before +:+ String ch needle +:+ rest)).
    cbn [Str.cut String.prefix].
    destruct (ascii_dec ch b) as [->|_]; [by rewrite Ascii.eqb_refl in Hb|].
    by rewrite IH.
Qed.

Lemma match_command_stdout_between (before inner rest : string) :
  occurs "<" before = false -> occurs "<" inner = false ->
  match_command_stdout (before +:+ open_tag +:+ inner +:+ close_tag +:+ rest) = Some inner.
Proof.
  intros Hbefore Hinner. unfold match_command_stdout, open_tag, close_tag.
  rewrite cut_first by done. by rewrite cut_first.
Qed.

(** X5. A [user] event whose content is a text with the output of a slash
    command between the tags, with no [<] before the opening tag and none
    in the output, makes one chunk of the trimmed output (an empty chunk
    when the output is white space) and appends it to the current segment;
    a tool that is pending stays pending. *)
Theorem command_output_is_a_chunk (before inner rest : string) session :
  occurs "<" before = false -> occurs "<" inner = false -> inner <> "" ->
  let msg := user_event (before +:+ open_tag +:+ inner +:+ close_tag +:+ rest) in
  calls_made (handleStreamMessage msg) session = [onChunk (Str.trim inner)]
  /\ session_after (handleStreamMessage msg) session
     = set_currentSegment (currentSegment session +:+ Str.trim inner) session.
Proof.
  intros Hbefore Hinner Hne. cbn zeta.
  assert (command_stdout
            (user_event (before +:+ open_tag +:+ inner +:+ close_tag +:+ rest))
          = Some inner) as Hout.
  { unfold command_stdout, user_event. cbn [message content].
    rewrite match_command_stdout_between by done.
    assert (Str.truthy (before +:+ open_tag +:+ inner +:+ close_tag +:+ rest) = true) as ->.
    { apply StrFacts.truthy_spec. intros Hnil.
      apply StrFacts.app_eq_nil in Hnil as [_ Hnil]. discriminate Hnil. }
    unfold some_text. by rewrite (proj2 (StrFacts.truthy_spec inner) Hne). }
  by rewrite calls_made_user, session_after_user, Hout.
Qed.

(** X6. A result event that reports an error ends the pending tool, if
    there is one, and then sends the event error with the result text, or
    with Unknown error when the event has no result text; the message is
    never empty, the result the callbacks keep has that error, no session
    id and no permission denials, and no tool is pending afterwards. *)
Theorem failed_result_is_reported conv msg session state :
  is_result msg = true -> is_error msg = Some true ->
  let text := or_else (result msg) "Unknown error" in
  let calls := calls_made (handleStreamMessage msg) session in
  events_of conv calls state = pending_tool_events session ++ [error text]
  /\ text <> ""
  /\ (some_text (result msg) = None -> text = "Unknown error")
  /\ state_result (state_after conv calls state)
     = {| result_sessionId := None; result_permissionDenials := None;
          result_error := Some text |}
  /\ some_text (lastToolName (session_after (handleStreamMessage msg) session)) = None.
Proof.
  intros Hres Herr. cbn zeta.
  rewrite calls_made_result, session_after_result by done.
  rewrite bool_decide_eq_true_2 by done.
  unfold pending_tool_end, pending_tool_events, without_pending_tool.
  repeat split.
  - by destruct (some_text (lastToolName session)).
  - apply StrFacts.truthy_spec. unfold or_else.
    destruct (some_text (result msg)) as [r|] eqn:Hr; [|done].
    unfold some_text in Hr. destruct (result msg) as [r'|]; [|done].
    destruct (Str.truthy r') eqn:Htruthy; by simplify_eq.
  - intros Hnone. unfold or_else. by rewrite Hnone.
  - by destruct (some_text (lastToolName session)).
  - by destruct (some_text (lastToolName session)) eqn:Hpending.
Qed.

End EventFacts.

(** ** What a turn leaves in the database *)

Section PersistFacts.

Context {decoder_state : Type}.
Context (decode_byte : decoder_state -> byte -> decoder_state * string).
Context (decoder_init : decoder_state).
Context (JSON_parse : string -> option StreamMessage).

Implicit Types (env : turn_env) (w : world) (message conversationId : string)
  (allowedTools : option (list string)) (conv : Conversation) (state : StreamingState)
  (calls : list callback) (c : callback) (newTitle : list string -> option string)
  (failing_write : option nat).

(** [handleStreamingResponse] in terms of the calls of the turn. *)
Lemma handleStreamingResponse_eq newTitle failing_write message conv allowedTools env w :
  handleStreamingResponse decode_byte decoder_init JSON_parse newTitle failing_write
    message conv allowedTools env w
  = let finished :=
      runClaudeStreaming decode_byte decoder_init JSON_parse message (id conv)
        (claudeSessionId conv) allowedTools env w in
    let calls := calls_of finished.1 in
    let state := state_after conv calls initial_state in
    let events := events_of conv calls initial_state in
    match some_text (result_error (state_result state)) with
    | Some _ => (events, [], finished.2)
    | None =>
        let ops := persistStreamResult newTitle conv state in
        match failing_write with
        | None => (events ++ List.concat (List.map persist_event ops), ops, finished.2)
        | Some failing =>
            (events ++ List.concat (List.map persist_event (until_failure failing ops).1)
               ++ (if (until_failure failing ops).2
                   then [error "Failed to store response"] else []),
             (until_failure failing ops).1, finished.2)
        end
    end.
Proof.
  unfold handleStreamingResponse, state_after, events_of. cbn zeta.
  destruct (runClaudeStreaming _ _ _ _ _ _ _ _ _) as [effects w']. cbn [fst snd].
  destruct (run_callbacks _ _ _) as [state events]. cbn [fst snd].
  case_match; [done|]. destruct failing_write as [failing|]; [|done].
  by destruct (until_failure _ _).
Qed.

(** The segments of the state are those the client was told the end of. *)
Lemma segments_of_calls conv calls state :
  segments (state_after conv calls state)
  = segments state ++ ended_segments (events_of conv calls state).
Proof.
  revert state. induction calls as [|c calls IH]; intros state.
  - cbn. by rewrite app_nil_r.
  - rewrite state_after_cons, events_of_cons, IH.
    unfold ended_segments. rewrite omap_app, (assoc (++)). f_equal.
    destruct c as [| text | | | |]; cbn -[Str.has_text]; rewrite ?app_nil_r; try done.
    + by destruct (Str.has_text text); cbn; rewrite ?app_nil_r.
    + repeat case_match; by cbn; rewrite ?app_nil_r.
Qed.

Lemma state_currentSegment_terminal conv c state :
  is_terminal_call c = true ->
  state_currentSegment (createStreamingCallbacks conv c state).1 = state_currentSegment state.
Proof. by destruct c. Qed.

Lemma created_messages_app ops1 ops2 :
  created_messages (ops1 ++ ops2) = created_messages ops1 ++ created_messages ops2.
Proof. unfold created_messages. apply omap_app. Qed.

Lemma created_messages_map cid texts :
  created_messages (List.map (createMessage cid "assistant") texts) = texts.
Proof. induction texts as [|text texts IH]; [done|]. cbn. by f_equal. Qed.

(** The assistant messages [persistStreamResult] stores for a state. *)
Lemma created_messages_of_state newTitle conv state :
  created_messages (persistStreamResult newTitle conv state)
  = segments state ++ final_segment state.
Proof.
  unfold persistStreamResult, storeSegments, final_segment.
  rewrite created_messages_app.
  assert (created_messages
            match some_text (result_sessionId (state_result state)) with
            | Some sid =>
                if bool_decide (Some sid ≠ claudeSessionId conv)
                then [updateClaudeSessionId (id conv) sid] else []
            | None => []
            end = []) as -> by (by repeat case_match).
  cbn [app].
  destruct (result_permissionDenials (state_result state)) as [[|denial denials]|].
  2: { rewrite created_messages_app, created_messages_map. by case_match. }
  all: destruct (Str.has_text (state_currentSegment state)).
  all: try (destruct (segments state) as [|text texts] eqn:Htexts; [done|]).
  all: try (destruct (segments state ++ [state_currentSegment state])
              as [|text texts] eqn:Htexts; [by destruct (segments state)|]).
  all: rewrite <- ?Htexts, !created_messages_app, created_messages_map.
  all: cbn; rewrite ?app_nil_r; repeat case_match; try done.
  all: by (unfold created_messages; cbn; rewrite ?app_nil_r).
Qed.

(** X7. The assistant messages [persistStreamResult] stores are the
    segments the client was told the end of, in their order, followed by
    the segment that is current when it has text: with permission denials
    and without them. *)
Theorem stored_messages_are_the_segments newTitle conv calls :
  let state := state_after conv calls initial_state in
  let events := events_of conv calls initial_state in
  created_messages (persistStreamResult newTitle conv state)
  = ended_segments events ++ final_segment state.
Proof.
  cbn zeta. rewrite created_messages_of_state. f_equal.
  apply (segments_of_calls conv calls initial_state).
Qed.

(** X8. Whatever the events of a turn are, the assistant messages
    [persistStreamResult] stores for them are, one after the other, the
    text the client has received in chunks, but for a last segment of
    white space only, which is not stored. *)
Theorem stored_text_is_the_streamed_text newTitle conv (msgs : list StreamMessage)
    (proc : nat) conversationId (resume : option string) :
  let calls := calls_made (handle_all msgs) (new_session proc conversationId resume) in
  let state := state_after conv calls initial_state in
  concat_text (created_messages (persistStreamResult newTitle conv state))
  +:+ (if Str.has_text (state_currentSegment state) then "" else state_currentSegment state)
  = chunked_text (events_of conv calls initial_state).
Proof.
  cbn zeta. rewrite created_messages_of_state.
  destruct (segments_follow_session conv msgs (new_session proc conversationId resume)
              initial_state eq_refl) as (Hcur & _ & Htext).
  cbn zeta in *. cbn [segments initial_state concat_text currentSegment new_session] in Htext.
  change ("" +:+ "" +:+ ?x) with x in Htext. rewrite Htext, <- Hcur.
  unfold final_segment. rewrite concat_text_app.
  destruct (Str.has_text _); cbn [concat_text];
    by rewrite ?StrFacts.app_nil_r, ?StrFacts.app_assoc.
Qed.

(** The error of the result the callbacks keep is that of the last
    terminal call. *)
Lemma result_error_after conv calls state :
  result_error (state_result (state_after conv calls state))
  = match last_terminal_call calls with
    | Some (onError e) => Some e
    | Some _ => None
    | None => result_error (state_result state)
    end.
Proof.
  unfold last_terminal_call.
  induction calls as [|c calls IH] using rev_ind; [done|].
  rewrite state_after_app, List.filter_app. cbn [List.filter].
  destruct (is_terminal_call c) eqn:Hc.
  - rewrite last_snoc. by destruct c.
  - rewrite app_nil_r, <- IH. destruct c as [| text | | | |]; try done.
    unfold state_after. cbn -[Str.has_text]. by destruct (Str.has_text text).
Qed.

Lemma or_else_truthy x fallback :
  Str.truthy fallback = true -> Str.truthy (or_else x fallback) = true.
Proof.
  intros H. unfold or_else, some_text. destruct x as [s|]; [|done].
  by destruct (Str.truthy s) eqn:Hs.
Qed.

Lemma errors_of_events_have_text msgs session :
  forallb error_has_text (calls_made (handle_all msgs) session) = true.
Proof.
  revert msgs session.
  apply (handle_all_relates (fun _ calls _ => forallb error_has_text calls = true)).
  - done.
  - intros _ calls1 _ calls2 _ H1 H2. by rewrite forallb_app, H1, H2.
  - intros block session. rewrite calls_made_handle_block. unfold pending_tool_end.
    by repeat case_match.
  - intros msg session _.
    destruct (event_cases msg) as [H|[H|[H|[H|[_ H]]]]].
    + by rewrite calls_made_system.
    + rewrite handle_assistant by done.
      induction (content_blocks msg) as [|block blocks IH] in session |- *; [done|].
      rewrite calls_made_for_each_cons, forallb_app, IH, andb_true_r.
      rewrite calls_made_handle_block. unfold pending_tool_end. by repeat case_match.
    + rewrite calls_made_result by done. unfold pending_tool_end.
      rewrite forallb_app. case_bool_decide; cbn.
      * rewrite or_else_truthy by done. by case_match.
      * by case_match.
    + rewrite calls_made_user by done. by case_match.
    + unfold calls_made. by rewrite H.
Qed.

(** Every error a turn reports has a message. *)
Lemma errors_of_turn_have_text env w message conversationId resume allowedTools :
  forallb error_has_text
    (calls_of (runClaudeStreaming decode_byte decoder_init JSON_parse message conversationId
                 resume allowedTools env w).1) = true.
Proof.
  destruct (stdin_error (stdin env)) as [e|] eqn:Hstdin.
  - by rewrite (turn_calls_unwritten _ _ _ _ _ _ _ _ _ e).
  - assert (stdin env = stdin_ok) as Hok by (by destruct (stdin env)).
    destruct (turn_calls decode_byte decoder_init JSON_parse env w message conversationId
                resume allowedTools Hok) as (calls1 & calls2 & -> & Hall).
    pose proof (errors_of_events_have_text
                  (handed_over decode_byte decoder_init JSON_parse env)
                  (new_session (next_process w) conversationId resume)) as Herr.
    rewrite <- Hall, forallb_app in Herr. apply andb_true_iff in Herr as [H1 H2].
    rewrite !forallb_app, H1, H2. unfold timeout_call, read_error_call.
    by repeat case_match.
Qed.

(** X9. When the last terminal call of a turn is [onError], the route
    stores nothing: no session id, no message (the segments the client has
    received are not kept), no title, and no notification is sent; the
    client receives the events of the calls and nothing after them. *)
Theorem failed_turn_stores_nothing newTitle failing_write message conv allowedTools env w e :
  let finished :=
    runClaudeStreaming decode_byte decoder_init JSON_parse message (id conv)
      (claudeSessionId conv) allowedTools env w in
  let response :=
    handleStreamingResponse decode_byte decoder_init JSON_parse newTitle failing_write
      message conv allowedTools env w in
  last_terminal_call (calls_of finished.1) = Some (onError e) ->
  response.1.2 = []
  /\ response.1.1 = events_of conv (calls_of finished.1) initial_state.
Proof.
  cbn zeta. intros Hlast. rewrite handleStreamingResponse_eq. cbn zeta.
  rewrite result_error_after, Hlast.
  assert (Str.truthy e = true) as He.
  { pose proof (errors_of_turn_have_text env w message (id conv) (claudeSessionId conv)
                  allowedTools) as Herr.
    rewrite forallb_forall in Herr.
    apply (Herr (onError e)). apply list_elem_of_In.
    apply last_Some_elem_of in Hlast. unfold last_terminal_call in Hlast.
    apply list_elem_of_In, List.filter_In in Hlast as [Hin _].
    by apply list_elem_of_In. }
  unfold some_text. by rewrite He.
Qed.

(** The exit code of the child is read after the loop only. *)
Lemma read_loop_exitCode code env chunks (r : reading (decoder_state := decoder_state)) :
  read_loop decode_byte JSON_parse (with_exitCode code env) chunks r
  = read_loop decode_byte JSON_parse env chunks r.
Proof.
  revert r. induction chunks as [|[elapsed value] chunks IH]; intros r; [done|].
  cbn [read_loop].
  assert (await_read (with_exitCode code env) (process (session r)) elapsed (timedOut r)
          = await_read env (process (session r)) elapsed (timedOut r)) as -> by done.
  destruct (await_read _ _ _ _) as [t fired].
  destruct (read_chunk _ _ _ _) as [[st b] lines].
  destruct (exec _ _) as [s made]. by rewrite IH.
Qed.

Lemma calls_of_exit_effects env proc timedOut : calls_of (exit_effects env proc timedOut) = [].
Proof. unfold exit_effects. by repeat case_match. Qed.

Lemma world_after_turn env w message conversationId resume allowedTools :
  (runClaudeStreaming decode_byte decoder_init JSON_parse message conversationId resume
     allowedTools env w).2
  = {| activeSessions := delete conversationId (activeSessions w);
       next_process := S (next_process w) |}.
Proof.
  unfold runClaudeStreaming, terminate, registry_delete.
  destruct (activeSessions w !! conversationId) as [existing|]; cbn;
    destruct (stdin_error (stdin env)); cbn;
    repeat (match goal with |- context [let '(_, _) := ?x in _] => destruct x end; cbn);
    by rewrite delete_insert_eq, ?delete_delete_eq.
Qed.

Lemma calls_of_turn_exitCode code env w message conversationId resume allowedTools :
  calls_of (runClaudeStreaming decode_byte decoder_init JSON_parse message conversationId
              resume allowedTools (with_exitCode code env) w).1
  = calls_of (runClaudeStreaming decode_byte decoder_init JSON_parse message conversationId
                resume allowedTools env w).1.
Proof.
  destruct (stdin_error (stdin env)) as [e|] eqn:Hstdin.
  - by rewrite !(turn_calls_unwritten _ _ _ _ _ _ _ _ _ e).
  - assert (stdin env = stdin_ok) as Hok by (by destruct (stdin env)).
    rewrite !turn_written by done. cbn zeta.
    cbn [with_exitCode reads]. rewrite read_loop_exitCode.
    assert (forall r : reading (decoder_state := decoder_state),
              end_of_stream JSON_parse (with_exitCode code env) r
              = end_of_stream JSON_parse env r) as Hend by done.
    rewrite Hend.
    assert (eviction (with_exitCode code env) conversationId w = eviction env conversationId w)
      as -> by done.
    rewrite !calls_of_app, !calls_of_exit_effects. done.
Qed.

(** X10. The exit code of the child is not reported: two turns whose
    scripts differ in the exit code only send the same events to the
    client, store the same and leave the same registry. *)
Theorem exit_code_is_not_reported newTitle failing_write message conv allowedTools env w
    (code : Z) :
  handleStreamingResponse decode_byte decoder_init JSON_parse newTitle failing_write
    message conv allowedTools (with_exitCode code env) w
  = handleStreamingResponse decode_byte decoder_init JSON_parse newTitle failing_write
      message conv allowedTools env w.
Proof.
  rewrite !handleStreamingResponse_eq. cbn zeta.
  by rewrite calls_of_turn_exitCode, !world_after_turn.
Qed.

End PersistFacts.

(** ** The call that does not stream *)

Section CallFacts.

Context {decoder_state : Type}.
Context (decode_byte : decoder_state -> byte -> decoder_state * string).
Context (decoder_init : decoder_state).
Context (JSON_parse : string -> option StreamMessage).

Implicit Types (env : call_env) (w : world) (message : string) (resume : option string)
  (r : call_reading (decoder_state := decoder_state)) (acc : ClaudeResponse)
  (conv : Conversation).

(** The effects of the timer of a call. *)
Lemma await_call_eq env proc elapsed timedOut :
  await_call env proc elapsed timedOut
  = (timedOut || elapsed,
     if elapsed && negb timedOut
     then [TimerFired proc; Kill proc (call_kill_throws env proc)] else []).
Proof. unfold await_call. by destruct elapsed, timedOut. Qed.

(** The loop of a call: the response it computes, whether the timer has
    fired, and the effects, which are those of the timer. *)
Lemma call_loop_spec env proc (chunks : list (bool * list byte)) r :
  let looped := call_loop decode_byte JSON_parse env proc chunks r in
  call_response looped.1
  = runClaude_loop decode_byte JSON_parse (List.map snd chunks) (call_decoder r)
      (call_buffer r) (call_response r)
  /\ call_timedOut looped.1 = call_timedOut r || existsb fst chunks
  /\ looped.2
     = if negb (call_timedOut r) && existsb fst chunks
       then [TimerFired proc; Kill proc (call_kill_throws env proc)] else [].
Proof.
  revert r. induction chunks as [|[elapsed value] chunks IH]; intros r.
  - cbn. by rewrite orb_false_r, andb_false_r.
  - cbn [call_loop List.map snd runClaude_loop existsb fst]. rewrite await_call_eq.
    destruct (read_chunk decode_byte value (call_decoder r) (call_buffer r))
      as [[st b] lines].
    specialize (IH {| call_decoder := st; call_buffer := b;
                      call_response :=
                        fold_left (fun acc line => runClaude_line JSON_parse line acc) lines
                          (call_response r);
                      call_timedOut := call_timedOut r || elapsed |}).
    destruct (call_loop _ _ _ _ _ _) as [r' effects].
    cbn [fst snd call_response call_decoder call_buffer call_timedOut] in *.
    destruct IH as (-> & -> & ->). split; [done|].
    destruct (call_timedOut r), elapsed, (existsb fst chunks); by cbn.
Qed.

Lemma fold_lines lines acc :
  fold_left (fun a line => runClaude_line JSON_parse line a) lines acc
  = fold_left (fun a event => runClaude_event event a)
      (omap (parse_line JSON_parse) lines) acc.
Proof.
  revert acc. induction lines as [|line lines IH]; intros acc; [done|].
  rewrite omap_cons. cbn [fold_left]. rewrite IH. unfold runClaude_line.
  by destruct (parse_line JSON_parse line).
Qed.

(** [runClaude] in closed form. *)
Lemma runClaude_eq message resume env w :
  runClaude decode_byte decoder_init JSON_parse message resume env w
  = let proc := next_process w in
    let kill := Kill proc (call_kill_throws env proc) in
    ([Spawn proc
        (buildBaseArgs (call_additionalDirs env)
           {| opt_message := Some message; opt_claudeSessionId := resume;
              opt_allowedTools := None; opt_useStdin := false |});
      TimerSet proc; GetReader proc]
     ++ (if call_times_out env then [TimerFired proc; kill] else [])
     ++ (match snd (call_final_read env) with
         | read_done => [TimerCleared proc]
         | read_throws _ => []
         end)
     ++ (if call_reads_stderr env then [StderrRead proc; StderrReleaseLock proc] else [])
     ++ (if call_succeeds env then [] else [kill])
     ++ [TimerCleared proc; ReleaseLock proc],
     if call_succeeds env
     then returned
            (response_of
               (complete_objects decode_byte decoder_init JSON_parse
                  (List.map snd (call_reads env))))
     else thrown (call_exception env),
     {| activeSessions := activeSessions w; next_process := S proc |}).
Proof.
  cbn zeta.
  unfold runClaude, call_succeeds, call_reads_stderr, call_exception, call_times_out,
    response_of, complete_objects.
  pose proof (call_loop_spec env (next_process w) (call_reads env)
                {| call_decoder := decoder_init; call_buffer := "";
                   call_response := no_response_yet; call_timedOut := false |})
    as (Hresponse & Htimed & Hlooped).
  destruct (call_loop _ _ _ _ _ _) as [r looped].
  cbn [fst snd call_response call_decoder call_buffer call_timedOut negb andb orb] in *.
  subst looped. rewrite runClaude_loop_feed, fold_lines in Hresponse.
  destruct (call_final_read env) as [elapsed last_outcome]. rewrite await_call_eq.
  cbn [fst snd]. rewrite Htimed, Hresponse.
  destruct (existsb fst (call_reads env)), elapsed, last_outcome as [|e];
    cbn [orb andb negb app]; try done.
  destruct (call_exitCode env) as [[| |]|]; by try case_bool_decide.
Qed.

(** X11. [runClaude] returns a response when the read loop ends without an
    exception, the timer has not fired and the child has exited with code
    0, and throws otherwise: the exception of the read, else that of the
    timeout, else that of the exit code. The response is made of the
    events of the complete lines; the rest of the output after the last
    line break is not parsed. *)
Theorem runClaude_outcome message resume env w :
  (runClaude decode_byte decoder_init JSON_parse message resume env w).1.2
  = match snd (call_final_read env) with
    | read_throws e => thrown e
    | read_done =>
        if call_times_out env then thrown "Claude CLI request timed out"
        else if bool_decide (call_exitCode env = Some 0%Z)
        then returned
               (response_of
                  (complete_objects decode_byte decoder_init JSON_parse
                     (List.map snd (call_reads env))))
        else thrown ("Claude CLI exited with code " +:+ exit_code_text (call_exitCode env))
    end.
Proof.
  rewrite runClaude_eq. cbn zeta. cbn [fst snd].
  unfold call_succeeds, call_exception.
  destruct (snd (call_final_read env)); [|done].
  destruct (call_times_out env); [done|]. cbn [negb andb]. by case_bool_decide.
Qed.

(** X12. On every path of [runClaude] the timer is cleared and the lock
    of the reader is released at the end, the lock once; the [catch] kills
    the child on the paths that throw and on no other, after the kill of
    the timer when it has fired. One process is spawned and the registry
    of the streaming sessions is not touched. *)
Theorem runClaude_kills_and_releases message resume env w :
  let called := runClaude decode_byte decoder_init JSON_parse message resume env w in
  let proc := next_process w in
  let kill := Kill proc (call_kill_throws env proc) in
  List.filter is_kill_or_release called.1.1
  = (if call_times_out env then [kill] else [])
    ++ (match snd (call_final_read env) with
        | read_done => [TimerCleared proc]
        | read_throws _ => []
        end)
    ++ (if call_succeeds env then [] else [kill])
    ++ [TimerCleared proc; ReleaseLock proc]
  /\ List.filter is_spawn called.1.1
     = [Spawn proc
          (buildBaseArgs (call_additionalDirs env)
             {| opt_message := Some message; opt_claudeSessionId := resume;
                opt_allowedTools := None; opt_useStdin := false |})]
  /\ called.2 = {| activeSessions := activeSessions w; next_process := S proc |}.
Proof.
  cbn zeta. rewrite runClaude_eq. cbn zeta. cbn [fst snd].
  rewrite !List.filter_app. split; [|split; [|done]].
  - by destruct (call_times_out env), (snd (call_final_read env)), (call_reads_stderr env),
      (call_succeeds env).
  - by destruct (call_times_out env), (snd (call_final_read env)), (call_reads_stderr env),
      (call_succeeds env).
Qed.

Lemma chunks_of_app calls1 calls2 :
  chunks_of (calls1 ++ calls2) = chunks_of calls1 +:+ chunks_of calls2.
Proof.
  induction calls1 as [|c calls1 IH]; [done|].
  destruct c; cbn [app chunks_of]; try done.
  by rewrite IH, StrFacts.app_assoc.
Qed.

(** The chunks the client receives are those of the calls. *)
Lemma chunked_text_events conv calls state :
  chunked_text (events_of conv calls state) = chunks_of calls.
Proof.
  revert state. induction calls as [|c calls IH]; intros state; [done|].
  rewrite events_of_cons, chunked_text_app, IH.
  destruct c as [chunked | text | | | |]; cbn -[Str.has_text]; try done.
  - by rewrite StrFacts.app_nil_r.
  - by destruct (Str.has_text text).
  - by repeat case_match.
Qed.

Lemma chunks_of_block block session :
  chunks_of (calls_made (handle_block block) session) = default "" (text_of block).
Proof.
  rewrite calls_made_handle_block. unfold pending_tool_end.
  destruct (text_of block) as [text|].
  - rewrite chunks_of_app. cbn. rewrite StrFacts.app_nil_r.
    by destruct (some_text (lastToolName session)).
  - destruct (tool_of block) as [name|]; [|done]. rewrite chunks_of_app.
    by destruct (Str.has_text (currentSegment session)).
Qed.

Lemma response_text_blocks blocks text session :
  forallb (fun block =>
             negb (String.eqb (block_type block) "text")
             || bool_decide (block_text block <> None)) blocks = true ->
  fold_left
    (fun text block =>
       if String.eqb (block_type block) "text"
       then text +:+ default "undefined" (block_text block)
       else text) blocks text
  = text +:+ chunks_of (calls_made (for_each handle_block blocks) session).
Proof.
  revert text session. induction blocks as [|block blocks IH]; intros text session.
  - by rewrite StrFacts.app_nil_r.
  - cbn [forallb fold_left]. intros [Hblock Hblocks]%andb_true_iff.
    rewrite calls_made_for_each_cons, chunks_of_app.
    rewrite (IH _ (session_after (handle_block block) session) Hblocks).
    rewrite <- StrFacts.app_assoc. f_equal.
    rewrite chunks_of_block. unfold text_of, some_text.
    destruct (String.eqb (block_type block) "text"); [|by rewrite StrFacts.app_nil_r].
    destruct (block_text block) as [t|]; [|done]. cbn [default].
    destruct (Str.truthy t) eqn:Ht; [done|].
    by apply negb_false_iff, String.eqb_eq in Ht as ->.
Qed.

Lemma response_text_event msg acc session :
  texts_present msg = true ->
  response_text (runClaude_event msg acc)
  = response_text acc
    +:+ (if is_assistant msg
         then chunks_of (calls_made (handleStreamMessage msg) session) else "").
Proof.
  intros Hpresent. unfold runClaude_event, is_assistant.
  destruct (String.eqb (msg_type msg) "assistant") eqn:Hassistant.
  - assert (String.eqb (msg_type msg) "system" = false) as ->.
    { apply String.eqb_eq in Hassistant. by rewrite Hassistant. }
    rewrite handle_assistant by done. unfold texts_present, content_blocks in *.
    destruct (message msg) as [[role [blocks|text]]|]; cbn [response_text].
    + by apply response_text_blocks.
    + rewrite StrFacts.app_nil_r. by case_match.
    + by rewrite StrFacts.app_nil_r.
  - rewrite StrFacts.app_nil_r. by repeat case_match.
Qed.

(** X13. When every block of type text of the events carries a text, the
    text [runClaude] returns for the events is the text
    [runClaudeStreaming] sends in chunks for their assistant events. *)
Theorem call_text_is_the_chunked_text (msgs : list StreamMessage) conv
    (session : StreamSession) (state : StreamingState) :
  forallb texts_present msgs = true ->
  response_text (response_of msgs)
  = chunked_text
      (events_of conv (calls_made (handle_all (List.filter is_assistant msgs)) session) state).
Proof.
  intros Hpresent. rewrite chunked_text_events. unfold response_of.
  change (chunks_of (calls_made (handle_all (List.filter is_assistant msgs)) session))
    with (response_text no_response_yet
          +:+ chunks_of (calls_made (handle_all (List.filter is_assistant msgs)) session)).
  generalize no_response_yet as acc. revert session.
  induction msgs as [|msg msgs IH]; intros session acc.
  - by rewrite StrFacts.app_nil_r.
  - cbn [forallb] in Hpresent. apply andb_true_iff in Hpresent as [Hmsg Hmsgs].
    cbn [fold_left List.filter].
    destruct (is_assistant msg) eqn:Hassistant.
    + unfold handle_all. rewrite calls_made_for_each_cons, chunks_of_app.
      rewrite (IH Hmsgs (session_after (handleStreamMessage msg) session)).
      rewrite (response_text_event msg acc session Hmsg), Hassistant.
      by rewrite StrFacts.app_assoc.
    + rewrite (IH Hmsgs session).
      rewrite (response_text_event msg acc session Hmsg), Hassistant.
      by rewrite StrFacts.app_nil_r.
Qed.

(** X14. [sendNonStreamingMessage] stores one assistant message, with the
    text of the response, also when the text is empty, exactly when
    [runClaude] returns; it updates the session id of the conversation
    before when the response has one that is not that of the
    conversation. When [runClaude] throws nothing is stored. *)
Theorem answer_is_stored_when_returned conv message env w :
  let sent :=
    sendNonStreamingMessage decode_byte decoder_init JSON_parse conv message env w in
  let response :=
    response_of
      (complete_objects decode_byte decoder_init JSON_parse (List.map snd (call_reads env))) in
  if call_succeeds env
  then sent.1.2 = returned (response_text response)
       /\ sent.1.1.2
          = (if Str.truthy (response_sessionId response)
                && bool_decide (Some (response_sessionId response) ≠ claudeSessionId conv)
             then [updateClaudeSessionId (id conv) (response_sessionId response)] else [])
            ++ [createMessage (id conv) "assistant" (response_text response)]
  else sent.1.1.2 = [] /\ exists e, sent.1.2 = thrown e.
Proof.
  cbn zeta. unfold sendNonStreamingMessage. rewrite runClaude_eq. cbn zeta.
  destruct (call_succeeds env); [done|by eauto].
Qed.

End CallFacts.

(** ** The configuration and the arguments of the child *)

Section ConfigFacts.

Implicit Types (sep : ascii) (s piece rest : string) (dirs : list string).

Lemma split_unbroken sep s : occurs sep s = false -> Str.split sep s = [s].
Proof.
  induction s as [|ch s IH]; [done|]. cbn [occurs Str.split].
  intros [-> Hs]%orb_false_iff. by rewrite (IH Hs).
Qed.

Lemma split_piece sep piece rest :
  occurs sep piece = false ->
  Str.split sep (piece +:+ String sep rest) = piece :: Str.split sep rest.
Proof.
  induction piece as [|ch piece IH].
  - intros _. change ("" +:+ String sep rest) with (String sep rest).
    cbn [Str.split]. by rewrite Ascii.eqb_refl.
  - cbn [occurs]. intros [Hch Hpiece]%orb_false_iff.
    rewrite StrFacts.app_cons. cbn [Str.split]. by rewrite Hch, (IH Hpiece).
Qed.

Lemma split_pieces sep s : Forall (fun piece => occurs sep piece = false) (Str.split sep s).
Proof.
  induction s as [|ch s IH]; [by constructor|]. cbn [Str.split].
  destruct (Ascii.eqb ch sep) eqn:Hch; [by constructor|].
  destruct (Str.split sep s) as [|piece pieces]; [by constructor; cbn; rewrite ?Hch|].
  apply Forall_cons in IH as [Hpiece Hpieces]. constructor; [|done].
  cbn. by rewrite Hch.
Qed.

(** A directory the variable can name: not empty, without a colon. *)
Lemma split_join_colons dirs :
  Forall (fun dir => Str.truthy dir && negb (occurs ":" dir) = true) dirs ->
  List.filter Str.truthy (Str.split ":" (join_colons dirs)) = dirs.
Proof.
  induction dirs as [|dir dirs IH]; [done|].
  intros [[Hdir Hcolon%negb_true_iff]%andb_true_iff Hdirs]%Forall_cons.
  destruct dirs as [|dir' dirs].
  - cbn [join_colons]. rewrite split_unbroken by done. cbn. by rewrite Hdir.
  - change (join_colons (dir :: dir' :: dirs))
      with (dir +:+ String ":" (join_colons (dir' :: dirs))).
    rewrite split_piece by done. cbn [List.filter]. by rewrite Hdir, (IH Hdirs).
Qed.

(** X15. Every directory [getAdditionalDirs] returns is not empty and has
    no colon in it, whatever the variable holds; and for directories that
    are not empty and have no colon, written with colons between them, it
    returns these directories in their order. *)
Theorem additional_dirs_round_trip (value : option string) dirs :
  Forall (fun dir => Str.truthy dir && negb (occurs ":" dir) = true)
    (claudeAdditionalDirs value)
  /\ (Forall (fun dir => Str.truthy dir && negb (occurs ":" dir) = true) dirs ->
      claudeAdditionalDirs (Some (join_colons dirs)) = dirs).
Proof.
  split.
  - unfold claudeAdditionalDirs. apply Forall_forall. intros dir Hin.
    apply list_elem_of_In, List.filter_In in Hin as [Hin ->].
    pose proof (split_pieces ":" (or_else value "")) as Hpieces.
    rewrite Forall_forall in Hpieces.
    by rewrite (Hpieces dir) by (by apply list_elem_of_In).
  - intros Hdirs. unfold claudeAdditionalDirs.
    destruct dirs as [|dir dirs]; [done|].
    assert (or_else (Some (join_colons (dir :: dirs))) "" = join_colons (dir :: dirs)) as ->.
    { unfold or_else, some_text.
      destruct (Str.truthy (join_colons (dir :: dirs))) eqn:Hjoin; [done|].
      by apply negb_false_iff, String.eqb_eq in Hjoin as ->. }
    by apply split_join_colons.
Qed.

End ConfigFacts.

(** ** Titles *)

Section TitleFacts.

Implicit Types (s t pad output : string) (n : nat).

Lemma length_slice_head n s :
  String.length (slice_head n s) = Nat.min n (String.length s).
Proof.
  revert s. induction n as [|n IH]; intros [|ch s]; cbn; try done. by rewrite IH.
Qed.

(** A title [clean_title] gives has at most sixty characters. *)
Lemma clean_title_length output t :
  clean_title output = Some t -> String.length t <= 60.
Proof.
  unfold clean_title. case_match; [done|].
  set (title := Str.trim (strip_quotes (Str.trim output))).
  destruct (Nat.ltb 60 (String.length title)) eqn:Hlong; intros Ht.
  - apply Nat.ltb_lt in Hlong.
    replace t with (slice_head 57 title +:+ "...") by congruence.
    rewrite StrFacts.string_length_app, length_slice_head. cbn [String.length]. lia.
  - apply Nat.ltb_ge in Hlong. replace t with title by congruence. lia.
Qed.

(** X16. A title [generateAndUpdateTitle] returns is not empty and has at
    most sixty characters, whatever the child prints. *)
Theorem generated_title_is_short (run : string -> title_process) (conv : Conversation)
    (userMessage : string) (segments : list string) t :
  generateAndUpdateTitle run conv userMessage segments = Some t ->
  t <> "" /\ String.length t <= 60.
Proof.
  unfold generateAndUpdateTitle, generateTitle.
  destruct (run _) as [e|output exitCode]; cbn [generated_title]; [done|].
  destruct (Z.eqb exitCode 0); cbn [generated_title]; [|done].
  unfold some_text. destruct (clean_title output) as [t'|] eqn:Hclean; [|done].
  destruct (Str.truthy t') eqn:Ht; [|done]. intros [= <-].
  split; [by apply StrFacts.truthy_spec|by eapply clean_title_length].
Qed.

Lemma trimStart_padded pad s :
  Str.whitespace_only pad = true -> Str.trimStart (pad +:+ s) = Str.trimStart s.
Proof.
  induction pad as [|ch pad IH]; [done|]. cbn [Str.whitespace_only].
  intros [Hch Hpad]%andb_true_iff. rewrite StrFacts.app_cons. cbn [Str.trimStart].
  by rewrite Hch, IH.
Qed.

Lemma trimStart_app s t :
  Str.whitespace_only s = false -> Str.trimStart (s +:+ t) = Str.trimStart s +:+ t.
Proof.
  induction s as [|ch s IH]; [done|]. cbn [Str.whitespace_only].
  rewrite StrFacts.app_cons. cbn [Str.trimStart].
  destruct (Str.is_whitespace ch); [|done]. cbn [andb]. apply IH.
Qed.

Lemma trimEnd_padded s pad :
  Str.whitespace_only pad = true -> Str.trimEnd (s +:+ pad) = Str.trimEnd s.
Proof.
  intros Hpad. unfold Str.trimEnd. rewrite StrFacts.rev_app.
  by rewrite trimStart_padded by (by rewrite StrFacts.whitespace_only_rev).
Qed.

(** White space around a text is trimmed with that of the text. *)
Lemma trim_padded pad1 s pad2 :
  Str.whitespace_only pad1 = true -> Str.whitespace_only pad2 = true ->
  Str.trim (pad1 +:+ s +:+ pad2) = Str.trim s.
Proof.
  intros Hpad1 Hpad2. unfold Str.trim. rewrite trimStart_padded by done.
  destruct (Str.whitespace_only s) eqn:Hs.
  - rewrite trimStart_padded by done.
    rewrite (proj2 (StrFacts.trimStart_nil pad2) Hpad2).
    by rewrite (proj2 (StrFacts.trimStart_nil s) Hs).
  - rewrite trimStart_app by done. by apply trimEnd_padded.
Qed.

(** X17. White space around what the child prints does not change the
    title: [clean_title] of a padded output is that of the output. The
    answer KEEP and the empty answer keep the title, so also a line with
    KEEP and a line break. *)
Theorem title_ignores_padding pad1 output pad2 :
  Str.whitespace_only pad1 = true -> Str.whitespace_only pad2 = true ->
  clean_title (pad1 +:+ output +:+ pad2) = clean_title output
  /\ clean_title (pad1 +:+ "KEEP" +:+ pad2) = None
  /\ clean_title (pad1 +:+ pad2) = None.
Proof.
  intros Hpad1 Hpad2. unfold clean_title. repeat split.
  - by rewrite trim_padded.
  - by rewrite trim_padded.
  - change (pad1 +:+ pad2) with (pad1 +:+ "" +:+ pad2).
    by rewrite (trim_padded pad1 "" pad2).
Qed.

End TitleFacts.

(** ** The text of the events *)

Section WrittenFacts.

Implicit Types (s t : string) (v : json).

Lemma no_control_app s t : no_control (s +:+ t) = no_control s && no_control t.
Proof.
  induction s as [|ch s IH]; [done|]. rewrite StrFacts.app_cons. cbn [no_control].
  by rewrite IH, andb_assoc.
Qed.

Lemma no_control_escape (ch : ascii) : no_control (JSON.escape ch) = true.
Proof. by destruct ch as [[] [] [] [] [] [] [] []]. Qed.

Lemma no_control_quote s : no_control (JSON.quote s) = true.
Proof.
  unfold JSON.quote. cbn [no_control]. rewrite no_control_app.
  assert (no_control (JSON.escape_all s) = true) as ->; [|done].
  induction s as [|ch s IH]; [done|]. cbn [JSON.escape_all].
  by rewrite no_control_app, no_control_escape, IH.
Qed.

Lemma no_control_uint u : no_control (NilEmpty.string_of_uint u) = true.
Proof. induction u; cbn; done. Qed.

Lemma no_control_number (n : Z) : no_control (JSON.number n) = true.
Proof.
  unfold JSON.number, NilZero.string_of_int, NilZero.string_of_uint.
  destruct (Z.to_int n) as [u|u]; [destruct u|destruct u]; try done;
    cbn; apply no_control_uint.
Qed.

Lemma no_control_join pieces :
  Forall (fun piece => no_control piece = true) pieces -> no_control (JSON.join pieces) = true.
Proof.
  induction 1 as [|piece pieces Hpiece _ IH]; [done|].
  destruct pieces as [|piece' pieces]; [done|].
  change (JSON.join (piece :: piece' :: pieces))
    with (piece +:+ "," +:+ JSON.join (piece' :: pieces)).
  by rewrite !no_control_app, Hpiece, IH.
Qed.

(** [JSON.stringify] writes no control character. *)
Lemma no_control_stringify v : no_control (JSON.stringify v) = true.
Proof.
  induction v as [ |[]|n|s|items IH|fields IH] using json_induction; try done.
  - apply no_control_number.
  - apply no_control_quote.
  - change (JSON.stringify (JArray items))
      with ("[" +:+ JSON.join (List.map JSON.stringify items) +:+ "]").
    rewrite !no_control_app, no_control_join; [done|].
    apply Forall_forall. intros piece Hpiece.
    apply list_elem_of_In, in_map_iff in Hpiece as (v & <- & Hv).
    by apply (proj1 (Forall_forall _ _) IH), list_elem_of_In.
  - change (JSON.stringify (JObject fields))
      with ("{" +:+ JSON.join
                      (List.map (fun kv => JSON.quote kv.1 +:+ ":" +:+ JSON.stringify kv.2)
                         fields) +:+ "}").
    rewrite !no_control_app, no_control_join; [done|].
    apply Forall_forall. intros piece Hpiece.
    apply list_elem_of_In, in_map_iff in Hpiece as (kv & <- & Hkv).
    rewrite !no_control_app, no_control_quote.
    by rewrite (proj1 (Forall_forall _ _) IH kv) by (by apply list_elem_of_In).
Qed.

(** X18. The text [writeSSEEvent] writes for an event has no control
    character in it, so it is one line whatever the texts and the denials
    of the event are; it is an object whose first property is the type of
    the event. *)
Theorem written_event_is_one_line (e : sse_event) :
  no_control (written e) = true
  /\ String.prefix ("{" +:+ JSON.quote "type" +:+ ":" +:+ JSON.quote (event_type e) +:+ ",")
       (written e) = true.
Proof.
  split; [apply no_control_stringify|].
  by destruct e.
Qed.

End WrittenFacts.

(** ** The middleware *)

Section MiddlewareFacts.

Implicit Types (a b key : string) (result : N) (store : gmap string RateLimitEntry)
  (config : RateLimitConfig) (now : Z).

Lemma N_of_ascii_inj (x y : ascii) : N_of_ascii x = N_of_ascii y -> x = y.
Proof.
  intros H. rewrite <- (ascii_N_embedding x), <- (ascii_N_embedding y). by rewrite H.
Qed.

(** The loop of [secureCompare] ends with 0 when it has started with 0
    and the strings, of the same length, are equal, and only then. *)
Lemma secure_fold_zero a b result :
  String.length a = String.length b ->
  secure_fold a b result = 0%N <-> result = 0%N /\ a = b.
Proof.
  revert b result. induction a as [|x a IH]; intros [|y b] result Hlen; try done.
  - cbn. split; [done|by intros [-> _]].
  - cbn [secure_fold]. rewrite IH by (cbn in Hlen; lia).
    rewrite N.lor_eq_0_iff, N.lxor_eq_0_iff. split.
    + intros [[-> Hxy] ->]. by apply N_of_ascii_inj in Hxy as ->.
    + intros [-> [= -> ->]]. done.
Qed.

(** X19. [secureCompare] returns true for two strings exactly when they
    are equal. *)
Theorem secureCompare_decides_equality a b :
  secureCompare a b = true <-> a = b.
Proof.
  unfold secureCompare. destruct (Nat.eqb (String.length a) (String.length b)) eqn:Hlen.
  - apply Nat.eqb_eq in Hlen. cbn [negb]. rewrite N.eqb_eq, secure_fold_zero by done.
    split; [by intros [_ ->]|done].
  - cbn [negb]. split; [done|]. intros ->. by rewrite Nat.eqb_refl in Hlen.
Qed.

(** X20. In production the server starts only with an API key that is
    not empty, and a request for a path other than /health goes on to the
    next middleware exactly when its header X-API-Key is that key. *)
Theorem api_key_gate (API_KEY : option string) key (path : string) (header : option string) :
  config_apiKey true API_KEY = returned key ->
  path <> "/health" ->
  key <> ""
  /\ (apiKeyMiddleware key true path header = next <-> header = Some key).
Proof.
  unfold config_apiKey, requireEnv. intros Hkey Hpath.
  assert (Str.truthy key = true) as Htruthy.
  { unfold some_text in Hkey. destruct API_KEY as [v|]; [|done].
    destruct (Str.truthy v) eqn:Hv; by simplify_eq. }
  split; [by apply StrFacts.truthy_spec|].
  unfold apiKeyMiddleware. rewrite (proj2 (String.eqb_neq _ _) Hpath), Htruthy.
  cbn [negb]. unfold some_text. destruct header as [h|]; [|done].
  destruct (Str.truthy h) eqn:Hh; [|split; [done|]; intros [= ->]; congruence].
  unfold secureCompare.
  destruct (Nat.eqb (String.length h) (String.length key)) eqn:Hlen; cbn [negb].
  - apply Nat.eqb_eq in Hlen.
    destruct (N.eqb (secure_fold h key 0) 0) eqn:Hfold.
    + apply N.eqb_eq, secure_fold_zero in Hfold as [_ ->]; done.
    + split; [done|]. intros [= ->].
      apply N.eqb_neq in Hfold. destruct Hfold. by apply secure_fold_zero.
  - split; [done|]. intros [= ->]. by rewrite Nat.eqb_refl in Hlen.
Qed.

(** *** The limiter *)

(** A request in a window that is open. *)
Lemma rateLimit_in_window config key now store entry :
  store !! key = Some entry -> (now <= entry_resetAt entry)%Z ->
  is_let_through (rateLimit config key now store).1
  = (entry_count entry <? maxRequests config)%Z
  /\ (rateLimit config key now store).2 !! key
     = Some {| entry_count :=
                 entry_count entry
                 + (if (entry_count entry <? maxRequests config)%Z then 1 else 0);
               entry_resetAt := entry_resetAt entry |}.
Proof.
  intros Hentry Hnow. unfold rateLimit. rewrite Hentry.
  rewrite (proj2 (Z.ltb_ge _ _) Hnow).
  destruct (Z.leb_spec (maxRequests config) (entry_count entry)) as [Hmax|Hmax].
  - rewrite (proj2 (Z.ltb_ge _ _) Hmax). cbn. rewrite Hentry, Z.add_0_r.
    by destruct entry.
  - rewrite (proj2 (Z.ltb_lt _ _) Hmax). cbn. by rewrite lookup_insert_eq.
Qed.

(** A request when no window is open opens one and is let through. *)
Lemma rateLimit_new_window config key now store :
  no_open_window key now store = true ->
  is_let_through (rateLimit config key now store).1 = true
  /\ (rateLimit config key now store).2 !! key
     = Some {| entry_count := 1; entry_resetAt := now + windowMs config |}.
Proof.
  unfold no_open_window, rateLimit.
  destruct (store !! key) as [entry|]; [intros ->|intros _]; cbn;
    (split; [done|apply lookup_insert_eq]).
Qed.

Lemma serve_cons key config now requests store :
  serve key ((config, now) :: requests) store
  = ((rateLimit config key now store).1 :: (serve key requests (rateLimit config key now store).2).1,
     (serve key requests (rateLimit config key now store).2).2).
Proof.
  cbn [serve]. destruct (rateLimit config key now store) as [d store1]. cbn [fst snd].
  by destruct (serve key requests store1) as [ds store2].
Qed.

Lemma passes_cons d decisions :
  passes (d :: decisions) = (if is_let_through d then 1 else 0) + passes decisions.
Proof. unfold passes. cbn [List.filter]. by destruct (is_let_through d). Qed.

(** The entry of the key counts the requests let through in its window,
    by whichever limiter. *)
Lemma serve_in_window key requests store entry :
  store !! key = Some entry ->
  Forall (fun request => (request.2 <= entry_resetAt entry)%Z) requests ->
  (serve key requests store).2 !! key
  = Some {| entry_count := entry_count entry + Z.of_nat (passes (serve key requests store).1);
            entry_resetAt := entry_resetAt entry |}.
Proof.
  revert store entry. induction requests as [|[config now] requests IH];
    intros store entry Hentry Hwithin.
  - cbn. rewrite Hentry, Z.add_0_r. by destruct entry.
  - apply Forall_cons in Hwithin as [Hnow Hwithin]. cbn [snd] in Hnow.
    rewrite serve_cons. cbn [fst snd]. rewrite passes_cons.
    destruct (rateLimit_in_window config key now store entry Hentry Hnow) as [Hd Hstore].
    rewrite (IH _ _ Hstore Hwithin). cbn [entry_count entry_resetAt]. rewrite Hd.
    f_equal. f_equal. destruct (entry_count entry <? maxRequests config)%Z; lia.
Qed.

(** X21. The limiters share one store: the entry of a key counts the
    requests of the key that were let through since its window was opened,
    by whichever limiter, and a further request in the window is let
    through exactly when that count is below the maximum of the limiter
    that handles it. *)
Theorem limiters_share_the_count key (first : RateLimitConfig) (t0 : Z)
    (requests : list (RateLimitConfig * Z)) store :
  no_open_window key t0 store = true ->
  Forall (fun request => (request.2 <= t0 + windowMs first)%Z) requests ->
  let served := serve key ((first, t0) :: requests) store in
  served.2 !! key
  = Some {| entry_count := Z.of_nat (passes served.1);
            entry_resetAt := t0 + windowMs first |}
  /\ forall config now,
       (now <= t0 + windowMs first)%Z ->
       is_let_through (rateLimit config key now served.2).1
       = (Z.of_nat (passes served.1) <? maxRequests config)%Z.
Proof.
  intros Hclosed Hwithin. cbn zeta. rewrite serve_cons. cbn [fst snd]. rewrite passes_cons.
  destruct (rateLimit_new_window first key t0 store Hclosed) as [-> Hstore].
  pose proof (serve_in_window key requests _ _ Hstore Hwithin) as Hserved.
  cbn [entry_count entry_resetAt] in Hserved.
  assert (forall n, (1 + Z.of_nat n)%Z = Z.of_nat (1 + n)) as Hn by (intros; lia).
  rewrite Hn in Hserved. split; [done|].
  intros config now Hnow.
  by destruct (rateLimit_in_window config key now _ _ Hserved Hnow) as [-> _].
Qed.

(** The requests one limiter lets through in a window that is open. *)
Lemma passes_in_window config key (times : list Z) store entry :
  store !! key = Some entry ->
  Forall (fun now => (now <= entry_resetAt entry)%Z) times ->
  passes (serve key (List.map (pair config) times) store).1
  = Nat.min (length times) (Z.to_nat (maxRequests config - entry_count entry)).
Proof.
  revert store entry. induction times as [|now times IH]; intros store entry Hentry Hwithin;
    [done|].
  apply Forall_cons in Hwithin as [Hnow Hwithin].
  cbn [List.map]. rewrite serve_cons. cbn [fst snd]. rewrite passes_cons.
  destruct (rateLimit_in_window config key now store entry Hentry Hnow) as [Hd Hstore].
  rewrite (IH _ _ Hstore Hwithin). cbn [entry_count entry_resetAt length]. rewrite Hd.
  destruct (Z.ltb_spec (entry_count entry) (maxRequests config)); lia.
Qed.

(** X22. Of the requests of a key that one limiter handles in one window,
    the one that opens the window and those that arrive before it is
    over, the limiter lets through the first [maxRequests], and one when
    [maxRequests] is less than one: the request that opens a window is
    always let through. *)
Theorem rate_limit_budget config key (t0 : Z) (times : list Z) store :
  no_open_window key t0 store = true ->
  Forall (fun now => (now <= t0 + windowMs config)%Z) times ->
  passes (serve key (List.map (pair config) (t0 :: times)) store).1
  = Nat.min (S (length times)) (Z.to_nat (Z.max 1 (maxRequests config))).
Proof.
  intros Hclosed Hwithin. cbn [List.map]. rewrite serve_cons. cbn [fst snd].
  rewrite passes_cons.
  destruct (rateLimit_new_window config key t0 store Hclosed) as [-> Hstore].
  rewrite (passes_in_window config key times _ _ Hstore Hwithin).
  cbn [entry_count]. lia.
Qed.

(** *** The cleanup of the store *)

Lemma cleanup_is_pruned now store : is_pruned now (cleanup now store) store.
Proof.
  intros key. unfold cleanup.
  destruct (store !! key) as [entry|] eqn:Hentry.
  - destruct (decide (entry_resetAt entry < now)%Z) as [Hover|Hopen].
    + right. split; [|by eauto]. apply map_lookup_filter_None. right.
      intros entry' Hentry'. cbn. simplify_eq. by intros Hopen.
    + left. by apply map_lookup_filter_Some.
  - left. apply map_lookup_filter_None. by left.
Qed.

Lemma rateLimit_pruned config key now now' pruned store :
  is_pruned now' pruned store -> (now' <= now)%Z ->
  (rateLimit config key now pruned).1 = (rateLimit config key now store).1
  /\ is_pruned now' (rateLimit config key now pruned).2 (rateLimit config key now store).2.
Proof.
  intros Hpruned Hnow.
  assert (forall entry,
            is_pruned now' (<[key := entry]> pruned) (<[key := entry]> store)) as Hinsert.
  { intros entry other. destruct (decide (key = other)) as [->|Hne].
    - left. by rewrite !lookup_insert_eq.
    - rewrite !lookup_insert_ne by done. apply Hpruned. }
  unfold rateLimit. destruct (Hpruned key) as [->|[-> (entry & -> & Hover)]].
  - destruct (store !! key) as [entry|]; [|by split; [|apply Hinsert]].
    repeat case_match; split; try done; apply Hinsert.
  - rewrite (proj2 (Z.ltb_lt _ _)) by lia. split; [done|apply Hinsert].
Qed.

(** X23. The cleanup of the store is not observed: the requests that
    arrive after a cleanup are decided, headers included, as they are
    when the cleanup has not run. *)
Theorem cleanup_is_not_observed (now : Z) (requests : list (RateLimitConfig * string * Z))
    store :
  Forall (fun request => (now <= request.2)%Z) requests ->
  (serve_all requests (cleanup now store)).1 = (serve_all requests store).1.
Proof.
  intros Hlater. pose proof (cleanup_is_pruned now store) as Hpruned.
  revert Hpruned. generalize (cleanup now store) as pruned. revert store.
  induction requests as [|[[config key] at_time] requests IH]; intros store pruned Hpruned;
    [done|].
  apply Forall_cons in Hlater as [Hnow Hlater]. cbn [snd] in Hnow. cbn [serve_all].
  destruct (rateLimit_pruned config key at_time now pruned store Hpruned Hnow)
    as [Hd Hstores].
  destruct (rateLimit config key at_time pruned) as [d1 pruned1].
  destruct (rateLimit config key at_time store) as [d2 store1].
  cbn [fst snd] in *. subst d2.
  specialize (IH Hlater store1 pruned1 Hstores).
  destruct (serve_all requests pruned1) as [ds1 pruned2].
  destruct (serve_all requests store1) as [ds2 store2].
  cbn [fst] in *. by rewrite IH.
Qed.

End MiddlewareFacts.

(** ** Who may use a conversation *)

Section AuthorizationFacts.

Implicit Types (userId conversationId : string) (table : list ConversationRow)
  (row : ConversationRow) (conversation : StoredConversation).

Lemma getConversation_Some conversationId table conversation :
  getConversation conversationId table = Some conversation ->
  stored_id conversation = conversationId
  /\ exists row, row ∈ table /\ conversation = rowToConversation row.
Proof.
  unfold getConversation.
  destruct (List.find _ table) as [row|] eqn:Hfind; [|done]. intros [= <-].
  apply find_some in Hfind as [Hin Hid%String.eqb_eq].
  split; [done|]. exists row. split; [by apply list_elem_of_In|done].
Qed.

(** X24. [authorizeConversation] authorizes a request exactly when the
    table has the conversation and it belongs to the user of the request;
    the conversation it hands on is then that one. A conversation of
    another user gets the answer of a conversation that does not exist. *)
Theorem owner_is_authorized userId conversationId table :
  (forall conversation,
     authorizeConversation userId conversationId table = authorized conversation <->
     getConversation conversationId table = Some conversation
     /\ stored_userId conversation = userId)
  /\ (forall conversation,
        authorizeConversation userId conversationId table = authorized conversation ->
        stored_id conversation = conversationId)
  /\ ((forall conversation,
         authorizeConversation userId conversationId table <> authorized conversation) ->
      authorizeConversation userId conversationId table
      = authorizeConversation userId conversationId []).
Proof.
  unfold authorizeConversation.
  destruct (getConversation conversationId table) as [found|] eqn:Hfound.
  - destruct (String.eqb (stored_userId found) userId) eqn:Howner.
    + apply String.eqb_eq in Howner. split; [|split].
      * intros conversation. split; [by intros [= <-]|by intros [[= <-] _]].
      * intros conversation [= <-]. by apply getConversation_Some in Hfound as [? _].
      * intros Hnot. by destruct (Hnot found).
    + apply String.eqb_neq in Howner. split; [|split]; try done.
      intros conversation. split; [done|]. by intros [[= <-] ?].
  - split; [|split]; try done. intros conversation. split; [done|]. by intros [? _].
Qed.

(** X25. In a table whose ids are unique, the route that deletes a
    conversation leaves the conversations of the other users in the
    table, whatever conversation the request names; when it answers 200
    the table has no row with the id of the request any more and the rows
    with other ids are all there, and when it does not the table is as it
    was. *)
Theorem delete_chat_spares_others userId conversationId table :
  NoDup (List.map row_id table) ->
  let deleted := delete_chat userId conversationId table in
  (forall row, row ∈ table -> row_user_id row <> userId -> row ∈ deleted.2)
  /\ (deleted.1 = 200%Z ->
      getConversation conversationId deleted.2 = None
      /\ forall row, row ∈ table -> row_id row <> conversationId -> row ∈ deleted.2)
  /\ (deleted.1 <> 200%Z -> deleted.2 = table).
Proof.
  intros Hkey. cbn zeta.
  assert (forall row, row ∈ table -> row_id row <> conversationId ->
                      row ∈ deleteConversation conversationId table) as Hkept.
  { intros row Hin Hid. apply list_elem_of_In, List.filter_In.
    split; [by apply list_elem_of_In|]. by apply negb_true_iff, String.eqb_neq. }
  assert (getConversation conversationId (deleteConversation conversationId table) = None)
    as Hgone.
  { unfold getConversation, deleteConversation.
    destruct (List.find _ (List.filter _ table)) as [row|] eqn:Hfind; [|done].
    apply find_some in Hfind as [[_ Hne%negb_true_iff]%List.filter_In Heq]. congruence. }
  unfold delete_chat, authorizeConversation.
  destruct (getConversation conversationId table) as [found|] eqn:Hfound; [|done].
  destruct (String.eqb (stored_userId found) userId) eqn:Howner; [|done].
  cbn [fst snd]. split; [|done].
  intros row Hin Hother. apply Hkept; [done|]. intros Hid.
  unfold getConversation in Hfound.
  destruct (List.find _ table) as [first|] eqn:Hfind; [|done]. injection Hfound as <-.
  apply find_some in Hfind as [Hfirst Hfirst_id%String.eqb_eq].
  apply String.eqb_eq in Howner. cbn in Howner.
  assert (row = first) as ->; [|done].
  apply list_elem_of_In in Hfirst.
  apply list_elem_of_lookup in Hin as [i Hi]. apply list_elem_of_lookup in Hfirst as [j Hj].
  assert (i = j) as ->; [|congruence].
  apply (NoDup_lookup (List.map row_id table) i j conversationId); [done| |].
  - change (List.map row_id table) with (row_id <$> table). by rewrite list_lookup_fmap, Hi; cbn; f_equal.
  - change (List.map row_id table) with (row_id <$> table). by rewrite list_lookup_fmap, Hj; cbn; f_equal.
Qed.

End AuthorizationFacts.

(** ** Pages *)

Section PagingFacts.

Lemma text_before_irrefl (a : string) : text_before a a = false.
Proof.
  unfold text_before, String.ltb. pose proof (String.compare_antisym a a) as H.
  by destruct (String.compare a a).
Qed.

Lemma text_before_connex (a b : string) :
  a <> b -> text_before a b = false -> text_before b a = true.
Proof.
  unfold text_before, String.ltb. intros Hne.
  rewrite (String.compare_antisym b a).
  destruct (String.compare a b) eqn:Hcompare; try done.
  by apply String.compare_eq_iff in Hcompare.
Qed.

Context {Row : Type} (key : Row -> string).

Implicit Types (row boundary : Row) (ordered front back rows : list Row) (limit : nat).

Lemma descending_app front back :
  descending key (front ++ back) ->
  descending key back
  /\ forall earlier later,
       earlier ∈ front -> later ∈ back -> text_before (key earlier) (key later) = false.
Proof.
  induction front as [|row front IH]; cbn [app descending].
  - intros Hback. split; [done|]. intros ?? Hin. by apply elem_of_nil in Hin.
  - intros [Hrow Hrest]. destruct (IH Hrest) as [Hback Hfront]. split; [done|].
    intros earlier later [->|Hin]%elem_of_cons Hlater.
    + rewrite Forall_forall in Hrow. apply Hrow. apply elem_of_app. by right.
    + by apply Hfront.
Qed.

(** The row a page ends with, when there are more rows than the page has. *)
Lemma page_boundary ordered limit :
  0 < limit -> limit < length ordered ->
  exists front boundary back,
    ordered = front ++ boundary :: back /\ take limit ordered = front ++ [boundary].
Proof.
  intros Hpos Hmore.
  destruct (lookup_lt_is_Some_2 ordered (limit - 1)) as [boundary Hboundary]; [lia|].
  exists (take (limit - 1) ordered), boundary, (drop limit ordered). split.
  - rewrite <- (take_drop (limit - 1) ordered) at 1. f_equal.
    rewrite (drop_S _ boundary _ Hboundary). do 2 f_equal. lia.
  - replace limit with (S (limit - 1)) at 1 by lia.
    by rewrite (take_S_r _ _ boundary Hboundary).
Qed.

(** The rows of a page are those that are not before its last row, when
    the keys are all different. *)
Lemma page_is_not_before front boundary back row :
  descending key (front ++ boundary :: back) ->
  NoDup (key <$> front ++ boundary :: back) ->
  row ∈ front ++ boundary :: back ->
  row ∈ front ++ [boundary] <-> text_before (key row) (key boundary) = false.
Proof.
  intros Hdesc Hkeys Hin.
  destruct (descending_app front (boundary :: back) Hdesc) as [[Hback _] Hfront].
  rewrite fmap_app, fmap_cons in Hkeys.
  apply NoDup_app in Hkeys as (_ & Hfront_keys & Hback_keys).
  apply NoDup_cons in Hback_keys as [Hboundary_key _].
  rewrite Forall_forall in Hback.
  apply elem_of_app in Hin as [Hin|[->|Hin]%elem_of_cons].
  - split; [intros _|intros _; apply elem_of_app; by left].
    apply Hfront; [done|]. by left.
  - split; [intros _; apply text_before_irrefl|].
    intros _. apply elem_of_app. right. by left.
  - assert (key row <> key boundary) as Hne.
    { intros Heq. apply Hboundary_key. rewrite <- Heq. by apply list_elem_of_fmap_2. }
    rewrite (text_before_connex (key boundary) (key row)) by (by auto).
    split; [|done]. intros [Hfront_in|Hlast%list_elem_of_singleton]%elem_of_app.
    + destruct (Hfront_keys (key row)); [by apply list_elem_of_fmap_2|].
      right. by apply list_elem_of_fmap_2.
    + by subst.
Qed.

End PagingFacts.

Section Pages.

Implicit Types (options : PaginationOptions) (conversationId userId cursor : string).

Lemma limit_of_pos options fallback : 0 < fallback -> 0 < limit_of options fallback.
Proof. unfold limit_of. destruct (page_limit options) as [[|n]|]; lia. Qed.

Lemma rowToMessage_inj (row1 row2 : MessageRow) :
  rowToMessage row1 = rowToMessage row2 -> row1 = row2.
Proof. destruct row1, row2. unfold rowToMessage. cbn. by intros [= -> -> -> -> ->]. Qed.

Lemma rowToConversation_inj (row1 row2 : ConversationRow) :
  rowToConversation row1 = rowToConversation row2 -> row1 = row2.
Proof.
  destruct row1, row2. unfold rowToConversation. cbn. by intros [= -> -> -> -> -> ->].
Qed.

(** X26. [getMessages] returns the newest messages that match, as many as
    the limit allows, the oldest of them first, and [hasMore] is true
    exactly when more messages match than the limit allows; when it is
    false every message that matches is on the page and there is no next
    cursor. The limit is 50 when the options give none, or 0. *)
Theorem messages_page conversationId options (table rows : list MessageRow) :
  let limit := limit_of options 50 in
  let matching := List.filter (message_selected conversationId options) table in
  let page := getMessages options rows in
  answers (message_selected conversationId options) message_row_created_at (S limit)
    table rows ->
  exists ordered,
    ordered ≡ₚ matching
    /\ descending message_row_created_at ordered
    /\ items page = List.map rowToMessage (List.rev (take limit ordered))
    /\ hasMore page = Nat.ltb limit (length matching)
    /\ (hasMore page = false ->
        nextCursor page = None /\ forall row, row ∈ matching -> rowToMessage row ∈ items page).
Proof.
  cbn zeta. intros (ordered & Hperm & Hdesc & ->). exists ordered.
  split; [done|]. split; [done|].
  assert (take (limit_of options 50) (take (S (limit_of options 50)) ordered)
          = take (limit_of options 50) ordered) as Htake.
  { rewrite take_take. f_equal. lia. }
  assert (Nat.ltb (limit_of options 50) (length (take (S (limit_of options 50)) ordered))
          = Nat.ltb (limit_of options 50)
              (length (List.filter (message_selected conversationId options) table)))
    as Hmore.
  { rewrite length_take, <- (Permutation_length Hperm).
    destruct (Nat.ltb_spec (limit_of options 50) (length ordered));
      [apply Nat.ltb_lt|apply Nat.ltb_ge]; lia. }
  unfold getMessages. cbn [items hasMore nextCursor]. rewrite Htake, Hmore.
  split; [done|]. split; [done|]. intros Hless. rewrite Hless.
  split; [by case_match|].
  intros row Hrow. apply Nat.ltb_ge in Hless. rewrite <- (Permutation_length Hperm) in Hless.
  rewrite take_ge by done. apply list_elem_of_In, in_map, in_rev. rewrite rev_involutive.
  apply list_elem_of_In. by rewrite Hperm.
Qed.

(** X27. When the messages that match have time stamps that are all
    different and not empty, the query of the next page, asked with the
    cursor [getMessages] returns, selects of them exactly those that are
    not on the page: no message is skipped and none comes twice. *)
Theorem next_page_of_messages conversationId options (table rows : list MessageRow) cursor :
  let limit := limit_of options 50 in
  let matching := List.filter (message_selected conversationId options) table in
  let page := getMessages options rows in
  answers (message_selected conversationId options) message_row_created_at (S limit)
    table rows ->
  NoDup (message_row_created_at <$> matching) ->
  Forall (fun row => message_row_created_at row <> "") matching ->
  nextCursor page = Some cursor ->
  forall row,
    row ∈ matching ->
    rowToMessage row ∈ items page
    <-> message_selected conversationId (with_cursor cursor options) row = false.
Proof.
  cbn zeta. intros (ordered & Hperm & Hdesc & ->) Hkeys Hstamps Hcursor row Hrow.
  pose proof (limit_of_pos options 50 ltac:(lia)) as Hpos.
  revert Hcursor. unfold getMessages. cbn [items hasMore nextCursor].
  assert (take (limit_of options 50) (take (S (limit_of options 50)) ordered)
          = take (limit_of options 50) ordered) as -> by (rewrite take_take; f_equal; lia).
  destruct (Nat.ltb_spec (limit_of options 50)
              (length (take (S (limit_of options 50)) ordered))) as [Hmore|Hless];
    [|by case_match].
  rewrite length_take in Hmore.
  destruct (page_boundary ordered (limit_of options 50) Hpos ltac:(lia))
    as (front & boundary & back & Hordered & ->).
  rewrite rev_app_distr. cbn [List.rev app List.map]. intros [= <-].
  assert (row ∈ front ++ boundary :: back) as Hin by (by rewrite <- Hordered, Hperm).
  rewrite <- Hperm, Hordered in Hkeys.
  rewrite Hordered in Hdesc.
  pose proof (page_is_not_before message_row_created_at front boundary back row Hdesc Hkeys Hin)
    as Hpage.
  assert (message_selected conversationId (with_cursor (message_row_created_at boundary) options)
            row
          = text_before (message_row_created_at row) (message_row_created_at boundary))
    as ->.
  { unfold message_selected, with_cursor. cbn [page_cursor].
    apply list_elem_of_In, List.filter_In in Hrow as [_ Hselected].
    apply andb_true_iff in Hselected as [-> _]. cbn [andb].
    unfold some_text. rewrite (proj2 (StrFacts.truthy_spec _)); [done|].
    rewrite Forall_forall in Hstamps. apply Hstamps.
    rewrite <- Hperm, Hordered. apply elem_of_app. right. by left. }
  rewrite <- Hpage. change (rowToMessage boundary :: List.map rowToMessage (List.rev front))
    with (List.map rowToMessage (boundary :: List.rev front)).
  split.
  - intros Hitem. apply list_elem_of_In, in_map_iff in Hitem as (row' & Heq & Hin').
    apply rowToMessage_inj in Heq as ->. apply elem_of_app.
    destruct Hin' as [->|Hin']; [right; by left|left].
    by apply list_elem_of_In, in_rev.
  - intros [Hfront|Hlast%list_elem_of_singleton]%elem_of_app;
      apply list_elem_of_In, in_map.
    + right. by apply in_rev; rewrite rev_involutive; apply list_elem_of_In.
    + left. by subst.
Qed.

(** X28. When [getConversations] returns a next cursor, [hasMore] is true
    and the page has as many conversations as the limit (20 when the
    options give none, or 0); and when the time stamps of the
    conversations that match are all different and not empty, the query
    of the next page, asked with that cursor, selects of them exactly
    those that are not on the page. *)
Theorem next_page_of_conversations userId options (table rows : list ConversationRow)
    cursor :
  let limit := limit_of options 20 in
  let matching := List.filter (conversation_selected userId options) table in
  let page := getConversations options rows in
  answers (conversation_selected userId options) row_updated_at (S limit) table rows ->
  NoDup (row_updated_at <$> matching) ->
  Forall (fun row => row_updated_at row <> "") matching ->
  nextCursor page = Some cursor ->
  hasMore page = true
  /\ length (items page) = limit
  /\ forall row,
       row ∈ matching ->
       rowToConversation row ∈ items page
       <-> conversation_selected userId (with_cursor cursor options) row = false.
Proof.
  cbn zeta. intros (ordered & Hperm & Hdesc & ->) Hkeys Hstamps Hcursor.
  pose proof (limit_of_pos options 20 ltac:(lia)) as Hpos.
  revert Hcursor. unfold getConversations. cbn [items hasMore nextCursor].
  assert (take (limit_of options 20) (take (S (limit_of options 20)) ordered)
          = take (limit_of options 20) ordered) as -> by (rewrite take_take; f_equal; lia).
  destruct (Nat.ltb_spec (limit_of options 20)
              (length (take (S (limit_of options 20)) ordered))) as [Hmore|Hless];
    [|by case_match].
  rewrite length_take in Hmore.
  destruct (page_boundary ordered (limit_of options 20) Hpos ltac:(lia))
    as (front & boundary & back & Hordered & Htake).
  rewrite Htake, map_app. cbn [List.map]. rewrite last_snoc. intros [= <-].
  split; [done|]. split.
  { rewrite length_app, length_map. apply (f_equal length) in Htake.
    rewrite length_take, length_app in Htake. cbn [length] in *. lia. }
  intros row Hrow.
  assert (row ∈ front ++ boundary :: back) as Hin by (by rewrite <- Hordered, Hperm).
  rewrite <- Hperm, Hordered in Hkeys.
  rewrite Hordered in Hdesc.
  pose proof (page_is_not_before row_updated_at front boundary back row Hdesc Hkeys Hin)
    as Hpage.
  assert (conversation_selected userId (with_cursor (row_updated_at boundary) options) row
          = text_before (row_updated_at row) (row_updated_at boundary)) as ->.
  { unfold conversation_selected, with_cursor. cbn [page_cursor].
    apply list_elem_of_In, List.filter_In in Hrow as [_ Hselected].
    apply andb_true_iff in Hselected as [-> _]. cbn [andb].
    unfold some_text. rewrite (proj2 (StrFacts.truthy_spec _)); [done|].
    rewrite Forall_forall in Hstamps. apply Hstamps.
    rewrite <- Hperm, Hordered. apply elem_of_app. right. by left. }
  rewrite <- Hpage.
  change (List.map rowToConversation front ++ [rowToConversation boundary])
    with (List.map rowToConversation front ++ List.map rowToConversation [boundary]).
  rewrite <- List.map_app. split.
  - intros Hitem. apply list_elem_of_In, in_map_iff in Hitem as (row' & Heq & Hin').
    apply rowToConversation_inj in Heq as ->. by apply list_elem_of_In.
  - intros Hpage_in. by apply list_elem_of_In, in_map, list_elem_of_In.
Qed.

End Pages.

(** ** Time stamps *)

Section TimeStamps.

Implicit Types (a b c s t : string) (f : nat -> string) (n m lo count width : nat).

Lemma compare_refl s : String.compare s s = Eq.
Proof. pose proof (String.compare_antisym s s) as H. by destruct (String.compare s s). Qed.

Lemma ascii_compare_refl (x : ascii) : Ascii.compare x x = Eq.
Proof. unfold Ascii.compare. apply N.compare_refl. Qed.

Lemma ascii_compare_Lt_trans (x y z : ascii) :
  Ascii.compare x y = Lt -> Ascii.compare y z = Lt -> Ascii.compare x z = Lt.
Proof. unfold Ascii.compare. rewrite !N.compare_lt_iff. lia. Qed.

Lemma compare_Lt_trans a b c :
  String.compare a b = Lt -> String.compare b c = Lt -> String.compare a c = Lt.
Proof.
  revert b c. induction a as [|x a IH]; intros [|y b] [|z c]; cbn; try done.
  destruct (Ascii.compare x y) eqn:Hxy; try done;
    destruct (Ascii.compare y z) eqn:Hyz; try done.
  - apply Ascii.compare_eq_iff in Hxy as ->. apply Ascii.compare_eq_iff in Hyz as ->.
    rewrite ascii_compare_refl. apply IH.
  - apply Ascii.compare_eq_iff in Hxy as ->. by rewrite Hyz.
  - apply Ascii.compare_eq_iff in Hyz as ->. by rewrite Hxy.
  - by rewrite (ascii_compare_Lt_trans x y z).
Qed.

(** Texts that start with texts of the same length are compared by these
    first. *)
Lemma compare_app a b s t :
  String.length a = String.length b ->
  String.compare (a +:+ s) (b +:+ t)
  = then_compare (String.compare a b) (String.compare s t).
Proof.
  revert b. induction a as [|x a IH]; intros [|y b] Hlen; try done.
  rewrite !StrFacts.app_cons. cbn [String.compare].
  destruct (Ascii.compare x y); try done. apply IH. cbn in Hlen. lia.
Qed.

(** A function from numbers to texts that puts each number of a range
    before the next one keeps the order of the numbers of the range. *)
Lemma compare_in_range f lo count n m :
  forallb (fun n => String.ltb (f n) (f (S n))) (seq lo count) = true ->
  lo <= n <= lo + count -> lo <= m <= lo + count ->
  String.compare (f n) (f m) = Nat.compare n m.
Proof.
  intros Hnext.
  assert (forall n, lo <= n < lo + count -> String.compare (f n) (f (S n)) = Lt) as Hstep.
  { intros k Hk. rewrite forallb_forall in Hnext.
    specialize (Hnext k ltac:(apply in_seq; lia)). unfold String.ltb in Hnext.
    by destruct (String.compare (f k) (f (S k))). }
  assert (forall n m, lo <= n -> n < m -> m <= lo + count -> String.compare (f n) (f m) = Lt)
    as Hless.
  { clear n m. intros n m Hlo Hlt. induction Hlt as [|m Hlt IH]; intros Hhi.
    - apply Hstep. lia.
    - apply (compare_Lt_trans _ (f m)); [apply IH; lia|apply Hstep; lia]. }
  intros Hn Hm. destruct (Nat.compare_spec n m) as [->|Hlt|Hgt].
  - apply compare_refl.
  - apply Hless; lia.
  - rewrite String.compare_antisym, (Hless m n); [done|lia..].
Qed.

Lemma length_in_range f width lo count n :
  forallb (fun n => Nat.eqb (String.length (f n)) width) (seq lo (S count)) = true ->
  lo <= n <= lo + count -> String.length (f n) = width.
Proof.
  intros Hall Hn. rewrite forallb_forall in Hall.
  by apply Nat.eqb_eq, Hall, in_seq; lia.
Qed.

Lemma two_digits n m :
  n < 100 -> m < 100 ->
  String.length (pad 2 n) = 2 /\ String.compare (pad 2 n) (pad 2 m) = Nat.compare n m.
Proof.
  intros Hn Hm. split.
  - apply (length_in_range (pad 2) 2 0 99); [by vm_compute|lia].
  - apply (compare_in_range (pad 2) 0 99); [by vm_compute|lia..].
Qed.

Lemma three_digits n m :
  n < 1000 -> m < 1000 -> String.compare (pad 3 n) (pad 3 m) = Nat.compare n m.
Proof. intros Hn Hm. apply (compare_in_range (pad 3) 0 999); [by vm_compute|lia..]. Qed.

Lemma four_digits n m :
  1000 <= n < 10 * 1000 -> 1000 <= m < 10 * 1000 ->
  String.length (decimal n) = 4 /\ String.compare (decimal n) (decimal m) = Nat.compare n m.
Proof.
  intros Hn Hm. split.
  - apply (length_in_range decimal 4 1000 (9 * 1000 - 1)); [by vm_compute|lia].
  - apply (compare_in_range decimal 1000 (9 * 1000 - 1)); [by vm_compute|lia..].
Qed.

(** X29. For dates whose year has four digits, the time stamps
    [formatSqliteTimestamp] writes are in the order of the dates: the
    comparison of two time stamps as texts is the comparison of the dates.
    So the earlier of two messages has the lesser [created_at], and two
    dates have the same time stamp only when they are the same. *)
Theorem timestamps_keep_the_order (d1 d2 : UTCDate) :
  four_digit_year d1 -> four_digit_year d2 ->
  String.compare (formatSqliteTimestamp d1) (formatSqliteTimestamp d2) = date_compare d1 d2
  /\ text_before (formatSqliteTimestamp d1) (formatSqliteTimestamp d2)
     = bool_decide (date_compare d1 d2 = Lt).
Proof.
  intros (Hy1 & Hmo1 & Hd1 & Hh1 & Hmi1 & Hs1 & Hms1) (Hy2 & Hmo2 & Hd2 & Hh2 & Hmi2 & Hs2 & Hms2).
  assert (String.compare (formatSqliteTimestamp d1) (formatSqliteTimestamp d2)
          = date_compare d1 d2) as Hcompare.
  { assert (forall (sep : ascii) s t,
              String.compare (String sep "" +:+ s) (String sep "" +:+ t) = String.compare s t)
      as Hsep.
    { intros sep s t. change (String sep "" +:+ s) with (String sep s).
      change (String sep "" +:+ t) with (String sep t). cbn [String.compare].
      by rewrite ascii_compare_refl. }
    assert (forall n m s t, n < 100 -> m < 100 ->
              String.compare (pad 2 n +:+ s) (pad 2 m +:+ t)
              = then_compare (Nat.compare n m) (String.compare s t)) as Htwo.
    { intros n m s t Hn Hm. destruct (two_digits n m Hn Hm) as [Hl1 Hcmp].
      destruct (two_digits m n Hm Hn) as [Hl2 _].
      rewrite compare_app by congruence. by rewrite Hcmp. }
    unfold formatSqliteTimestamp, date_compare.
    destruct (four_digits _ _ Hy1 Hy2) as [Hlen Hyear].
    destruct (four_digits _ _ Hy2 Hy1) as [Hlen' _].
    rewrite compare_app, Hyear by congruence. f_equal.
    rewrite Hsep, Htwo by lia.
    replace (Nat.compare (utc_month d1 + 1) (utc_month d2 + 1))
      with (Nat.compare (utc_month d1) (utc_month d2))
      by (rewrite !Nat.add_1_r; symmetry; apply Nat.compare_succ).
    f_equal. rewrite Hsep, Htwo by lia. f_equal.
    rewrite Hsep, Htwo by lia. f_equal.
    rewrite Hsep, Htwo by lia. f_equal.
    rewrite Hsep, Htwo by lia. f_equal.
    rewrite Hsep. by apply three_digits. }
  split; [done|]. unfold text_before, String.ltb. rewrite Hcompare.
  by destruct (date_compare d1 d2).
Qed.

End TimeStamps.

(** ** The further properties on samples *)

Lemma cancelStream_of_registered_witness :
  activeSessions Example.busy_world !! "c1"
  = Some {| process := 0; sessionId := None; conversationId := "c1";
            currentSegment := ""; lastToolName := None; clearTimeout := 0 |}
  /\ (cancelStream (Example.env []) "c1" Example.busy_world).1.1 = true.
Proof.
  split; [reflexivity|].
  exact (proj1 (cancelStream_of_registered (Example.env []) "c1" Example.busy_world _
                  eq_refl)).
Defined.

Lemma failed_result_is_reported_witness :
  is_result Sample.failure_event = true
  /\ is_error Sample.failure_event = Some true
  /\ events_of Example.conversation
       (calls_made (handleStreamMessage Sample.failure_event) (new_session 0 "c1" None))
       initial_state
     = [error "Unknown error"].
Proof.
  split; [reflexivity|]. split; [reflexivity|].
  exact (proj1 (failed_result_is_reported Example.conversation Sample.failure_event
                  (new_session 0 "c1" None) initial_state eq_refl eq_refl)).
Defined.

Lemma command_output_is_a_chunk_witness :
  occurs "<" "" = false /\ occurs "<" " ok " = false /\ " ok " <> ""
  /\ calls_made (handleStreamMessage (user_event Sample.command_text))
       (new_session 0 "c1" None)
     = [onChunk "ok"].
Proof.
  split; [reflexivity|]. split; [reflexivity|]. split; [discriminate|].
  exact (proj1 (command_output_is_a_chunk "" " ok " "" (new_session 0 "c1" None)
                  eq_refl eq_refl ltac:(discriminate))).
Defined.

Lemma failed_turn_stores_nothing_witness :
  last_terminal_call (calls_of (Sample.turn [Example.j_text "a"; Sample.j_failure "boom"]).1)
  = Some (onError "boom")
  /\ (Sample.respond [Example.j_text "a"; Sample.j_failure "boom"]).1.1
     = [chunk "a"; error "boom"]
  /\ (Sample.respond [Example.j_text "a"; Sample.j_failure "boom"]).1.2 = [].
Proof.
  assert (last_terminal_call
            (calls_of (Sample.turn [Example.j_text "a"; Sample.j_failure "boom"]).1)
          = Some (onError "boom")) as Hlast by (by vm_compute).
  split; [exact Hlast|]. split; [by vm_compute|].
  exact (proj1 (failed_turn_stores_nothing latin1_byte tt Sample.parse (fun _ => None) None
                  "hi" Example.conversation None
                  (Example.env [Example.j_text "a"; Sample.j_failure "boom"])
                  Example.empty_world "boom" Hlast)).
Defined.

Lemma call_text_is_the_chunked_text_witness :
  forallb texts_present
    [Example.text_delta "a"; Example.tool_invoked "Bash"; Example.text_delta "b"] = true
  /\ response_text
       (response_of
          [Example.text_delta "a"; Example.tool_invoked "Bash"; Example.text_delta "b"])
     = "ab".
Proof.
  split; [reflexivity|].
  exact (call_text_is_the_chunked_text
           [Example.text_delta "a"; Example.tool_invoked "Bash"; Example.text_delta "b"]
           Example.conversation (new_session 0 "c1" None) initial_state eq_refl).
Defined.

Lemma additional_dirs_round_trip_witness :
  Forall (fun dir => Str.truthy dir && negb (occurs ":" dir) = true) ["/srv/a"; "/srv/b"]
  /\ claudeAdditionalDirs (Some "/srv/a:/srv/b") = ["/srv/a"; "/srv/b"].
Proof.
  assert (Forall (fun dir => Str.truthy dir && negb (occurs ":" dir) = true)
            ["/srv/a"; "/srv/b"]) as Hdirs by (by repeat constructor).
  split; [exact Hdirs|].
  exact (proj2 (additional_dirs_round_trip None ["/srv/a"; "/srv/b"]) Hdirs).
Defined.

Lemma generated_title_is_short_witness :
  generateAndUpdateTitle Sample.titled Example.conversation "hi" ["a"]
  = Some "Fixing the build"
  /\ "Fixing the build" <> "" /\ String.length "Fixing the build" <= 60.
Proof.
  split; [reflexivity|].
  exact (generated_title_is_short Sample.titled Example.conversation "hi" ["a"]
           "Fixing the build" eq_refl).
Defined.

Lemma title_ignores_padding_witness :
  Str.whitespace_only "" = true /\ Str.whitespace_only Str.newline = true
  /\ clean_title ("KEEP" +:+ Str.newline) = None.
Proof.
  split; [reflexivity|]. split; [reflexivity|].
  exact (proj1 (proj2 (title_ignores_padding "" "x" Str.newline eq_refl eq_refl))).
Defined.

Lemma api_key_gate_witness :
  config_apiKey true (Some "secret") = returned "secret" /\ "/chat" <> "/health"
  /\ apiKeyMiddleware "secret" true "/chat" (Some "secret") = next
  /\ apiKeyMiddleware "secret" true "/chat" (Some "secred") <> next.
Proof.
  split; [reflexivity|]. split; [discriminate|]. split.
  - exact (proj2 (proj2 (api_key_gate (Some "secret") "secret" "/chat" (Some "secret")
                           eq_refl ltac:(discriminate))) eq_refl).
  - discriminate.
Defined.

Lemma rate_limit_budget_witness :
  no_open_window "u1" 0 ∅ = true
  /\ Forall (fun now => (now <= 0 + windowMs claudeRateLimit)%Z) (replicate 11 1000%Z)
  /\ passes (serve "u1" (List.map (pair claudeRateLimit) (0%Z :: replicate 11 1000%Z)) ∅).1
     = 10.
Proof.
  assert (Forall (fun now => (now <= 0 + windowMs claudeRateLimit)%Z)
            (replicate 11 1000%Z)) as Hwithin by (by repeat constructor).
  split; [reflexivity|]. split; [exact Hwithin|].
  exact (rate_limit_budget claudeRateLimit "u1" 0 (replicate 11 1000%Z) ∅ eq_refl Hwithin).
Defined.

Lemma limiters_share_the_count_witness :
  no_open_window "u1" 0 ∅ = true
  /\ Forall (fun request => (request.2 <= 0 + windowMs standardRateLimit)%Z)
       (replicate 9 (standardRateLimit, 1000%Z))
  /\ is_let_through
       (rateLimit claudeRateLimit "u1" 2000
          (serve "u1" ((standardRateLimit, 0%Z) :: replicate 9 (standardRateLimit, 1000%Z))
             ∅).2).1
     = false.
Proof.
  assert (Forall (fun request => (request.2 <= 0 + windowMs standardRateLimit)%Z)
            (replicate 9 (standardRateLimit, 1000%Z))) as Hwithin by (by repeat constructor).
  split; [reflexivity|]. split; [exact Hwithin|].
  exact (proj2 (limiters_share_the_count "u1" standardRateLimit 0
                  (replicate 9 (standardRateLimit, 1000%Z)) ∅ eq_refl Hwithin)
           claudeRateLimit 2000%Z ltac:(by vm_compute)).
Defined.

Lemma cleanup_is_not_observed_witness :
  Forall (fun request => (100 <= request.2)%Z) [(claudeRateLimit, "u1", 200%Z)]
  /\ (serve_all [(claudeRateLimit, "u1", 200%Z)] (cleanup 100 Sample.stale_store)).1
     = (serve_all [(claudeRateLimit, "u1", 200%Z)] Sample.stale_store).1.
Proof.
  assert (Forall (fun request => (100 <= request.2)%Z) [(claudeRateLimit, "u1", 200%Z)])
    as Hlater by (by repeat constructor).
  split; [exact Hlater|].
  exact (cleanup_is_not_observed 100 [(claudeRateLimit, "u1", 200%Z)] Sample.stale_store
           Hlater).
Defined.

Lemma owner_is_authorized_witness :
  authorizeConversation "u1" "c1" Sample.table
  = authorized (rowToConversation (Sample.row "c1" "u1"))
  /\ authorizeConversation "u1" "c2" Sample.table
     = authorizeConversation "u1" "c2" [].
Proof.
  split.
  - exact (proj2 (proj1 (owner_is_authorized "u1" "c1" Sample.table) _)
             (conj eq_refl eq_refl)).
  - reflexivity.
Defined.

Lemma delete_chat_spares_others_witness :
  NoDup (List.map row_id Sample.table)
  /\ (delete_chat "u1" "c2" Sample.table).2 = Sample.table
  /\ (delete_chat "u1" "c1" Sample.table).2 = [Sample.row "c2" "u2"].
Proof.
  assert (NoDup (List.map row_id Sample.table)) as Hkey.
  { apply (bool_decide_unpack _). by vm_compute. }
  split; [exact Hkey|]. split.
  - exact (proj2 (proj2 (delete_chat_spares_others "u1" "c2" Sample.table Hkey))
             ltac:(discriminate)).
  - reflexivity.
Defined.

Lemma sample_messages_answer :
  answers (message_selected "c1" SamplePages.first_page) message_row_created_at 3
    SamplePages.messages SamplePages.messages.
Proof.
  exists SamplePages.messages. split; [done|]. split; [|done].
  cbn. by repeat constructor.
Qed.

Lemma sample_conversations_answer :
  answers (conversation_selected "u1" SamplePages.first_page) row_updated_at 3
    SamplePages.conversations SamplePages.conversations.
Proof.
  exists SamplePages.conversations. split; [done|]. split; [|done].
  cbn. by repeat constructor.
Qed.

Lemma messages_page_witness :
  answers (message_selected "c1" SamplePages.first_page) message_row_created_at 3
    SamplePages.messages SamplePages.messages
  /\ items (getMessages SamplePages.first_page SamplePages.messages)
     = [rowToMessage (SamplePages.message "2"); rowToMessage (SamplePages.message "3")]
  /\ exists ordered,
       ordered ≡ₚ List.filter (message_selected "c1" SamplePages.first_page)
                    SamplePages.messages
       /\ descending message_row_created_at ordered
       /\ items (getMessages SamplePages.first_page SamplePages.messages)
          = List.map rowToMessage (List.rev (take 2 ordered))
       /\ hasMore (getMessages SamplePages.first_page SamplePages.messages)
          = Nat.ltb 2
              (length (List.filter (message_selected "c1" SamplePages.first_page)
                         SamplePages.messages))
       /\ (hasMore (getMessages SamplePages.first_page SamplePages.messages) = false ->
           nextCursor (getMessages SamplePages.first_page SamplePages.messages) = None
           /\ forall row,
                row ∈ List.filter (message_selected "c1" SamplePages.first_page)
                        SamplePages.messages ->
                rowToMessage row
                ∈ items (getMessages SamplePages.first_page SamplePages.messages)).
Proof.
  split; [exact sample_messages_answer|]. split; [reflexivity|].
  exact (messages_page "c1" SamplePages.first_page SamplePages.messages SamplePages.messages
           sample_messages_answer).
Defined.

Lemma next_page_of_messages_witness :
  nextCursor (getMessages SamplePages.first_page SamplePages.messages)
  = Some "2025-01-01 00:00:02.000"
  /\ (rowToMessage (SamplePages.message "1")
      ∈ items (getMessages SamplePages.first_page SamplePages.messages)
      <-> message_selected "c1"
            (with_cursor "2025-01-01 00:00:02.000" SamplePages.first_page)
            (SamplePages.message "1") = false).
Proof.
  split; [reflexivity|].
  assert (NoDup (message_row_created_at
                   <$> List.filter (message_selected "c1" SamplePages.first_page)
                         SamplePages.messages)) as Hkeys.
  { apply (bool_decide_unpack _). by vm_compute. }
  assert (Forall (fun row => message_row_created_at row <> "")
            (List.filter (message_selected "c1" SamplePages.first_page)
               SamplePages.messages)) as Hstamps by (by repeat constructor).
  assert (SamplePages.message "1"
          ∈ List.filter (message_selected "c1" SamplePages.first_page) SamplePages.messages)
    as Hrow by (cbn; by repeat constructor).
  exact (next_page_of_messages "c1" SamplePages.first_page SamplePages.messages
           SamplePages.messages "2025-01-01 00:00:02.000" sample_messages_answer Hkeys
           Hstamps eq_refl (SamplePages.message "1") Hrow).
Defined.

Lemma next_page_of_conversations_witness :
  nextCursor (getConversations SamplePages.first_page SamplePages.conversations)
  = Some "2025-01-01 00:00:02"
  /\ hasMore (getConversations SamplePages.first_page SamplePages.conversations) = true
  /\ length (items (getConversations SamplePages.first_page SamplePages.conversations)) = 2.
Proof.
  split; [reflexivity|].
  assert (NoDup (row_updated_at
                   <$> List.filter (conversation_selected "u1" SamplePages.first_page)
                         SamplePages.conversations)) as Hkeys.
  { apply (bool_decide_unpack _). by vm_compute. }
  assert (Forall (fun row => row_updated_at row <> "")
            (List.filter (conversation_selected "u1" SamplePages.first_page)
               SamplePages.conversations)) as Hstamps by (by repeat constructor).
  pose proof (next_page_of_conversations "u1" SamplePages.first_page
                SamplePages.conversations SamplePages.conversations "2025-01-01 00:00:02"
                sample_conversations_answer Hkeys Hstamps eq_refl) as (Hmore & Hlength & _).
  exact (conj Hmore Hlength).
Defined.

Lemma timestamps_keep_the_order_witness :
  formatSqliteTimestamp SamplePages.new_years_eve = "2024-12-31 23:59:59.999"
  /\ formatSqliteTimestamp SamplePages.new_year = "2025-01-01 00:00:00.000"
  /\ text_before (formatSqliteTimestamp SamplePages.new_years_eve)
       (formatSqliteTimestamp SamplePages.new_year)
     = bool_decide (date_compare SamplePages.new_years_eve SamplePages.new_year = Lt).
Proof.
  split; [reflexivity|]. split; [reflexivity|].
  apply (timestamps_keep_the_order SamplePages.new_years_eve SamplePages.new_year).
  - unfold four_digit_year, SamplePages.new_years_eve; cbn. lia.
  - unfold four_digit_year, SamplePages.new_year; cbn. lia.
Defined.

(** A turn whose first write to the database throws: the client has
    received [complete] and then receives [error], and nothing is stored. *)
Example failed_write_is_reported :
  (handleStreamingResponse latin1_byte tt Example.parse (fun _ => None) (Some 0) "hi"
     Example.conversation None (Example.env [Example.j_text "a"; Example.j_result ""])
     Example.empty_world).1
  = ([chunk "a"; complete "c1"; error "Failed to store response"], []).
Proof. by vm_compute. Qed.

